(** * Email classification and field extraction (parser.service.ts)

    A shallow embedding of the parser service of the job application
    tracker: the ordered pattern classifier [classifyEmail], the field
    extractors behind [parseJobApplication] and the pieces of the
    JavaScript runtime they rest on (strings of UTF-16 code units,
    regular expressions with backtracking, [Date]).

    Conventions of the model.
    - A JavaScript string is the list of its UTF-16 code units ([str]).
      [length], [slice] and the regular expressions (none of which
      carries the [u] flag) all count code units, as in the source.
    - [null] and [undefined] results are [None].
    - The only operations of the service that can raise are the ones of
      [Date] ([toISOString] on an invalid date): they live in the error
      monad [result].
    - [getDate] and [setDate] work in the local time of the host; the
      time zone of the host is a parameter ([LocalTZA]) of the functions
      that use them.
    - Case mapping ([toLowerCase], [toUpperCase]) is modelled on the ASCII
      letters, plus the Kelvin sign whose lower case is the ASCII [k];
      other code units are left as they are.  The tests the service makes
      on lower-cased text compare against ASCII words only, and those tests
      come out the same under the full Unicode tables. *)

From Stdlib Require Import List NArith ZArith Bool Arith Lia Ascii.
From Stdlib Require String.
Import ListNotations.
Import String.StringSyntax.
Delimit Scope string_scope with string.

Set Implicit Arguments.

(* ================================================================= *)
(** ** JavaScript strings *)

Module JsString.

(** A string is a list of UTF-16 code units. *)
Definition str := list N.

(** [js "..."] reads an ASCII literal as a JavaScript string. *)
Definition js (s : String.string) : str :=
  List.map N_of_ascii (String.list_ascii_of_string s).
Arguments js s%_string.

(** Code units that have no ASCII spelling in the patterns. *)
Definition dquote : N := 34.
Definition endash : N := 8211.
Definition newline : N := 10.

Definition str_eqb (a b : str) : bool :=
  if list_eq_dec N.eq_dec a b then true else false.

(** Truthiness of a string value: only the empty string is falsy. *)
Definition truthy (s : str) : bool :=
  match s with [] => false | _ :: _ => true end.

(** WhiteSpace and LineTerminator code points of ECMAScript: the set
    that [trim] strips and that [\s] matches. *)
Definition isLineTerminator (c : N) : bool :=
  ((c =? 10) || (c =? 13) || (c =? 8232) || (c =? 8233))%N.

Definition isWhiteSpace (c : N) : bool :=
  ((c =? 9) || (c =? 11) || (c =? 12) || (c =? 32) || (c =? 160)
   || (c =? 5760) || ((8192 <=? c) && (c <=? 8202))
   || (c =? 8239) || (c =? 8287) || (c =? 12288) || (c =? 65279))%N
  || isLineTerminator c.

Definition isUpperAscii (c : N) : bool := ((65 <=? c) && (c <=? 90))%N.
Definition isLowerAscii (c : N) : bool := ((97 <=? c) && (c <=? 122))%N.

(** Lower case of an ASCII letter. *)
Definition lowerAscii (c : N) : N :=
  if isUpperAscii c then (c + 32)%N else c.

(** Lower case as [toLowerCase] has it: the Kelvin sign becomes the
    ASCII letter k. *)
Definition lowerChar (c : N) : N :=
  if (c =? 8490)%N then 107%N else lowerAscii c.

Definition upperChar (c : N) : N :=
  if isLowerAscii c then (c - 32)%N else c.

Definition toLowerCase (s : str) : str := List.map lowerChar s.
Definition toUpperCase (s : str) : str := List.map upperChar s.

Fixpoint trimStart (s : str) : str :=
  match s with
  | c :: tl => if isWhiteSpace c then trimStart tl else s
  | [] => []
  end.

Definition trimEnd (s : str) : str := rev (trimStart (rev s)).

Definition trim (s : str) : str := trimEnd (trimStart s).

(** [s.slice(0, n)] and [s.slice(n)] for a non-negative [n]. *)
Definition slice0 (n : nat) (s : str) : str := firstn n s.
Definition sliceFrom (n : nat) (s : str) : str := skipn n s.

(** [s.charAt(0)]: the empty string when [s] is empty. *)
Definition charAt0 (s : str) : str := firstn 1 s.

Fixpoint startsWith (p s : str) : bool :=
  match p, s with
  | [], _ => true
  | a :: p', b :: s' => (a =? b)%N && startsWith p' s'
  | _ :: _, [] => false
  end.

(** [s.includes(d)]. *)
Fixpoint includes (d s : str) : bool :=
  startsWith d s ||
  match s with
  | [] => false
  | _ :: tl => includes d tl
  end.

(** [arr.includes(x)] on an array of strings. *)
Definition arr_includes (x : str) (arr : list str) : bool :=
  existsb (str_eqb x) arr.

(** [s.split(sep)] for a one-code-unit separator. *)
Fixpoint splitChar (sep : N) (s : str) : list str :=
  match s with
  | [] => [[]]
  | c :: tl =>
      if (c =? sep)%N then [] :: splitChar sep tl
      else match splitChar sep tl with
           | p :: ps => (c :: p) :: ps
           | [] => [[c]]
           end
  end.

(** [arr[0]] of a split result (never empty). *)
Definition first_piece (l : list str) : str :=
  match l with p :: _ => p | [] => [] end.

End JsString.
Export JsString.

(* ================================================================= *)
(** ** Regular expressions

    The patterns of the service, as abstract syntax, and the backtracking
    matcher of ECMAScript (continuation-passing, leftmost alternative
    first, greedy and lazy quantifiers, capture groups, the [i] and [m]
    flags).  No pattern of the service uses look-around, back-references
    or the [u], [s] and [y] flags, and none has a capture group under a
    quantifier. *)

Module Regex.

(** Members of a character class. *)
Inductive citem : Type :=
| CChr (c : N)              (* a single code unit *)
| CRange (lo hi : N)        (* lo-hi *)
| CSpace                    (* \s *)
| CDigit                    (* \d *)
| CWord.                    (* \w *)

Inductive regex : Type :=
| Empty                               (* the empty pattern *)
| Chr (c : N)                         (* a literal code unit *)
| Dot                                 (* . *)
| Cls (neg : bool) (items : list citem)   (* [...] and [^...] *)
| Bol                                 (* ^ *)
| Eol                                 (* $ *)
| WordB                               (* \b *)
| Seq (a b : regex)
| Alt (a b : regex)
| Rep (min : nat) (max : option nat) (greedy : bool) (r : regex)
| Group (n : nat) (r : regex).         (* the n-th capturing group *)

(** A regular expression object: its pattern and flags. *)
Record RegExp : Type := mkRegExp {
  source : regex;
  ignoreCase : bool;
  multiline : bool;
  global : bool
}.

(** Matcher state: the input already passed (most recent code unit
    first), the input still ahead and the captures made so far. *)
Record MState : Type := mkState {
  before : str;
  ahead : str;
  caps : list (nat * str)
}.

Definition advance (x : MState) : MState :=
  match ahead x with
  | c :: tl => mkState (c :: before x) tl (caps x)
  | [] => x
  end.

(** The input between two states of one run, [x] the earlier one. *)
Definition between (x y : MState) : str :=
  firstn (List.length (ahead x) - List.length (ahead y)) (ahead x).

Definition set_cap (n : nat) (s : str) (x : MState) : MState :=
  mkState (before x) (ahead x) ((n, s) :: caps x).

Fixpoint get_cap (n : nat) (cs : list (nat * str)) : option str :=
  match cs with
  | [] => None
  | (k, s) :: tl => if Nat.eqb k n then Some s else get_cap n tl
  end.

Definition isDigit (c : N) : bool := ((48 <=? c) && (c <=? 57))%N.

Definition isWordChar (c : N) : bool :=
  isUpperAscii c || isLowerAscii c || isDigit c || (c =? 95)%N.

Definition in_range (lo hi c : N) : bool := ((lo <=? c) && (c <=? hi))%N.

Section Matcher.

(** The [i] and [m] flags of the expression being run. *)
Variables (ic ml : bool).

(** Canonicalize of ECMAScript without the [u] flag: upper-casing that
    never sends a code unit outside ASCII into ASCII.  The patterns of
    the service hold ASCII code units and the en dash only, for which
    this is upper-casing of the ASCII letters. *)
Definition canon (c : N) : N := if ic then upperChar c else c.

Definition item_matches (c : N) (it : citem) : bool :=
  match it with
  | CChr a => (canon a =? canon c)%N
  | CRange lo hi =>
      in_range lo hi c
      || (ic && (in_range lo hi (upperChar c) || in_range lo hi (lowerAscii c)))
  | CSpace => isWhiteSpace c
  | CDigit => isDigit c
  | CWord => isWordChar c
  end.

Definition class_matches (neg : bool) (items : list citem) (c : N) : bool :=
  xorb neg (existsb (item_matches c) items).

Definition at_bol (x : MState) : bool :=
  match before x with
  | [] => true
  | c :: _ => ml && isLineTerminator c
  end.

Definition at_eol (x : MState) : bool :=
  match ahead x with
  | [] => true
  | c :: _ => ml && isLineTerminator c
  end.

Definition word_before (x : MState) : bool :=
  match before x with c :: _ => isWordChar c | [] => false end.

Definition word_ahead (x : MState) : bool :=
  match ahead x with c :: _ => isWordChar c | [] => false end.

Definition step_if (ok : N -> bool) (x : MState)
           (k : MState -> option MState) : option MState :=
  match ahead x with
  | c :: _ => if ok c then k (advance x) else None
  | [] => None
  end.

Definition or_else (a : option MState) (b : unit -> option MState)
  : option MState :=
  match a with Some z => Some z | None => b tt end.

Definition dec_max (max : option nat) : option nat :=
  match max with Some n => Some (Nat.pred n) | None => None end.

Definition max_is_zero (max : option nat) : bool :=
  match max with Some O => true | _ => false end.

(** RepeatMatcher of ECMAScript for a sub-matcher [m1] and a
    continuation [k].  An iteration of a satisfied quantifier that
    consumes nothing is refused, so every further iteration shortens
    the input; started with [min + |ahead x| + 1], the fuel is never
    exhausted. *)
Fixpoint rep_loop (m1 : MState -> (MState -> option MState) -> option MState)
         (k : MState -> option MState) (greedy : bool)
         (fuel min : nat) (max : option nat) (x : MState)
         {struct fuel} : option MState :=
  match fuel with
  | O => None
  | S fuel' =>
      if max_is_zero max then k x else
      let d := fun y =>
        if Nat.eqb min 0
           && Nat.eqb (List.length (ahead y)) (List.length (ahead x))
        then None
        else rep_loop m1 k greedy fuel' (Nat.pred min) (dec_max max) y in
      if negb (Nat.eqb min 0) then m1 x d
      else if greedy then or_else (m1 x d) (fun _ => k x)
      else or_else (k x) (fun _ => m1 x d)
  end.

(** [run r x k]: match [r] at state [x] and hand the end state to the
    continuation [k]; [None] is failure, on which the caller
    backtracks. *)
Fixpoint run (r : regex) (x : MState) (k : MState -> option MState)
         {struct r} : option MState :=
  match r with
  | Empty => k x
  | Chr c => step_if (fun ch => (canon ch =? canon c)%N) x k
  | Dot => step_if (fun ch => negb (isLineTerminator ch)) x k
  | Cls neg items => step_if (class_matches neg items) x k
  | Bol => if at_bol x then k x else None
  | Eol => if at_eol x then k x else None
  | WordB => if xorb (word_before x) (word_ahead x) then k x else None
  | Seq a b => run a x (fun y => run b y k)
  | Alt a b => or_else (run a x k) (fun _ => run b x k)
  | Group n r1 => run r1 x (fun y => k (set_cap n (between x y) y))
  | Rep min max greedy r1 =>
      rep_loop (run r1) k greedy (min + List.length (ahead x) + 1)
               min max x
  end.

End Matcher.

End Regex.

(* ================================================================= *)
(** ** The regular expression methods the service calls *)

Module RegexApi.
Import Regex.

Definition run_re (re : RegExp) : MState -> (MState -> option MState) -> option MState :=
  run (ignoreCase re) (multiline re) (source re).

(** Leftmost match at or after the current position: the start state
    and the end state of the match. *)
Fixpoint search (re : RegExp) (bef ah : str) {struct ah}
  : option (MState * MState) :=
  let x := mkState bef ah [] in
  match run_re re x (fun y => Some y) with
  | Some y => Some (x, y)
  | None =>
      match ah with
      | [] => None
      | c :: tl => search re (c :: bef) tl
      end
  end.

(** The match array of [exec]: [m0] is element 0, [group n] element n. *)
Record Match : Type := mkMatch {
  index : nat;
  m0 : str;
  groups : list (nat * str)
}.

Definition group (n : nat) (m : Match) : option str := get_cap n (groups m).

Definition to_match (xy : MState * MState) : Match :=
  let (x, y) := xy in
  mkMatch (List.length (before x)) (between x y) (caps y).

(** [re.exec(s)] with [lastIndex] 0, which is also [s.match(re)] for an
    expression without the [g] flag. *)
Definition exec (re : RegExp) (s : str) : option Match :=
  option_map to_match (search re [] s).

(** [re.test(s)] for an expression without the [g] flag (the service
    calls [test] on such expressions only, so no [lastIndex] is kept). *)
Definition test (re : RegExp) (s : str) : bool :=
  match search re [] s with Some _ => true | None => false end.

Definition is_empty_match (x y : MState) : bool :=
  Nat.eqb (List.length (ahead x)) (List.length (ahead y)).

(** [s.match(re)] for an expression with the [g] flag: every match,
    left to right; after an empty match the search moves one code
    unit on. *)
Fixpoint match_all_from (fuel : nat) (re : RegExp) (bef ah : str)
  : list str :=
  match fuel with
  | O => []
  | S f =>
      match search re bef ah with
      | None => []
      | Some (x, y) =>
          between x y ::
          (if is_empty_match x y then
             match ahead y with
             | [] => []
             | c :: tl => match_all_from f re (c :: before y) tl
             end
           else match_all_from f re (before y) (ahead y))
      end
  end.

Definition match_global (re : RegExp) (s : str) : option (list str) :=
  match match_all_from (S (List.length s)) re [] s with
  | [] => None
  | l => Some l
  end.

(** [s.replace(re, repl)] for a replacement text without [$]. *)
Fixpoint replace_all_from (fuel : nat) (re : RegExp) (repl bef ah : str)
  : str :=
  match fuel with
  | O => ah
  | S f =>
      match search re bef ah with
      | None => ah
      | Some (x, y) =>
          firstn (List.length ah - List.length (ahead x)) ah ++ repl ++
          (if is_empty_match x y then
             match ahead y with
             | [] => []
             | c :: tl => c :: replace_all_from f re repl (c :: before y) tl
             end
           else replace_all_from f re repl (before y) (ahead y))
      end
  end.

Definition replace (re : RegExp) (repl : str) (s : str) : str :=
  if global re then replace_all_from (S (List.length s)) re repl [] s
  else match search re [] s with
       | None => s
       | Some (x, y) => rev (before x) ++ repl ++ ahead y
       end.

(** [s.split(re)] for a pattern without capture groups, after
    RegExp.prototype[Symbol.split]: [piece] holds, most recent first, the
    code units since the last separator; the pattern is tried at the
    current position only. *)
Fixpoint split_from (fuel : nat) (re : RegExp) (bef ah piece : str)
  : list str :=
  match fuel with
  | O => [rev piece ++ ah]
  | S f =>
      match ah with
      | [] => [rev piece]
      | c :: tl =>
          let x := mkState bef ah [] in
          match run_re re x (fun y => Some y) with
          | None => split_from f re (c :: bef) tl (c :: piece)
          | Some y =>
              if is_empty_match x y && negb (truthy piece)
              then split_from f re (c :: bef) tl (c :: piece)
              else rev piece :: split_from f re (before y) (ahead y) []
          end
      end
  end.

Definition split_re (re : RegExp) (s : str) : list str :=
  match s with
  | [] => if test re [] then [] else [[]]
  | _ => split_from (2 * List.length s + 2) re [] s []
  end.

(** *** Pattern building *)

Definition lit (s : String.string) : regex :=
  fold_right (fun c r => Seq (Chr c) r) Empty (js s).
Arguments lit s%_string.

Definition seq (l : list regex) : regex := fold_right Seq Empty l.

Fixpoint alt (l : list regex) : regex :=
  match l with
  | [] => Empty
  | [r] => r
  | r :: tl => Alt r (alt tl)
  end.

Definition star (r : regex) : regex := Rep 0 None true r.
Definition plus (r : regex) : regex := Rep 1 None true r.
Definition opt (r : regex) : regex := Rep 0 (Some 1) true r.
Definition plus_lazy (r : regex) : regex := Rep 1 None false r.
Definition star_lazy (r : regex) : regex := Rep 0 None false r.
Definition times (n : nat) (r : regex) : regex := Rep n (Some n) true r.

Definition chars (s : String.string) : list citem := List.map CChr (js s).
Arguments chars s%_string.

Definition range (a b : ascii) : citem :=
  CRange (N_of_ascii a) (N_of_ascii b).
Arguments range (a b)%_char.

Definition ws : regex := Cls false [CSpace].

(** Flags. *)
Definition re_plain (r : regex) : RegExp := mkRegExp r false false false.
Definition re_i (r : regex) : RegExp := mkRegExp r true false false.
Definition re_im (r : regex) : RegExp := mkRegExp r true true false.
Definition re_g (r : regex) : RegExp := mkRegExp r false false true.
Definition re_gi (r : regex) : RegExp := mkRegExp r true false true.

End RegexApi.


(* ================================================================= *)
(** ** Errors *)

(** The exceptions the runtime can raise in the service. *)
Inductive exn : Type :=
| RangeError.     (* "Invalid time value", from [toISOString] *)

Inductive result (A : Type) : Type :=
| Ok (a : A)
| Throw (e : exn).
Arguments Ok {A} a.
Arguments Throw {A} e.

Definition bind {A B : Type} (r : result A) (f : A -> result B) : result B :=
  match r with
  | Ok a => f a
  | Throw e => Throw e
  end.

Notation "'let*' x ':=' r 'in' k" := (bind r (fun x => k))
  (at level 10, x name, r at level 100, k at level 200).

(* ================================================================= *)
(** ** Dates

    A [Date] holds a time value: milliseconds since the epoch in UTC, or
    NaN ([None]) for an invalid date.  The host's time zone enters
    through [LocalTZA], as in ECMAScript: [LocalTZA t true] is the offset
    of local time at the UTC time [t], [LocalTZA t false] the offset at
    the local time [t]. *)

Module JsDate.

Local Open Scope Z_scope.

Definition msPerDay : Z := 86400000.
Definition maxTime : Z := 8640000000000000.

Definition Day (t : Z) : Z := t / msPerDay.
Definition TimeWithinDay (t : Z) : Z := t mod msPerDay.

(** Proleptic Gregorian calendar: day number (days since 1970-01-01) to
    year, month (1-12) and day of the month, and back. *)
Definition civil_from_days (z : Z) : Z * Z * Z :=
  let z := z + 719468 in
  let era := z / 146097 in
  let doe := z - era * 146097 in
  let yoe := (doe - doe / 1460 + doe / 36524 - doe / 146096) / 365 in
  let doy := doe - (365 * yoe + yoe / 4 - yoe / 100) in
  let mp := (5 * doy + 2) / 153 in
  let d := doy - (153 * mp + 2) / 5 + 1 in
  let m := if mp <? 10 then mp + 3 else mp - 9 in
  let y := yoe + era * 400 in
  (if m <=? 2 then y + 1 else y, m, d).

Definition days_from_civil (y m d : Z) : Z :=
  let y := if m <=? 2 then y - 1 else y in
  let era := y / 400 in
  let yoe := y - era * 400 in
  let doy := (153 * (if 2 <? m then m - 3 else m + 9) + 2) / 5 + d - 1 in
  let doe := yoe * 365 + yoe / 4 - yoe / 100 + doy in
  era * 146097 + doe - 719468.

Definition isLeapYear (y : Z) : bool :=
  ((y mod 4 =? 0) && negb (y mod 100 =? 0)) || (y mod 400 =? 0).

Definition DaysInMonth (y m : Z) : Z :=
  if m =? 2 then (if isLeapYear y then 29 else 28)
  else if (m =? 4) || (m =? 6) || (m =? 9) || (m =? 11) then 30
  else 31.

Definition TimeClip (t : Z) : option Z :=
  if Z.abs t <=? maxTime then Some t else None.

Definition MakeTime (h mi s ms : Z) : Z :=
  ((h * 60 + mi) * 60 + s) * 1000 + ms.

(** MakeDay for a month taken from a date ([m] in 1-12). *)
Definition MakeDay (y m dt : Z) : Z := days_from_civil y m 1 + dt - 1.

Definition MakeDate (day time : Z) : Z := day * msPerDay + time.

(** *** Parsing *)

Definition digit_val (c : N) : option Z :=
  if Regex.isDigit c then Some (Z.of_N c - 48) else None.

(** Exactly [n] decimal digits. *)
Fixpoint take_digits (n : nat) (acc : Z) (s : str) : option (Z * str) :=
  match n with
  | O => Some (acc, s)
  | S k =>
      match s with
      | c :: tl =>
          match digit_val c with
          | Some d => take_digits k (acc * 10 + d) tl
          | None => None
          end
      | [] => None
      end
  end.

Definition expect (c : N) (s : str) : option str :=
  match s with
  | a :: tl => if (a =? c)%N then Some tl else None
  | [] => None
  end.

Definition obind {A B : Type} (o : option A) (f : A -> option B) : option B :=
  match o with Some a => f a | None => None end.

(** YYYY, or a sign and six digits (minus zero is not a year). *)
Definition parse_year (s : str) : option (Z * str) :=
  match s with
  | 43%N :: tl => take_digits 6 0 tl
  | 45%N :: tl =>
      obind (take_digits 6 0 tl) (fun '(y, r) =>
        if y =? 0 then None else Some (- y, r))
  | _ => take_digits 4 0 s
  end.

Definition parse_date (s : str) : option (Z * str) :=
  obind (parse_year s) (fun '(y, s) =>
  obind (expect 45 s) (fun s =>
  obind (take_digits 2 0 s) (fun '(m, s) =>
  obind (expect 45 s) (fun s =>
  obind (take_digits 2 0 s) (fun '(d, s) =>
    if (1 <=? m) && (m <=? 12) && (1 <=? d) && (d <=? DaysInMonth y m)
    then Some (days_from_civil y m d, s)
    else None))))).

Definition parse_millis (s : str) : option (Z * str) :=
  match s with
  | 46%N :: tl => take_digits 3 0 tl
  | _ => Some (0, s)
  end.

(** T HH:mm:ss, an optional .sss, and the UTC designator Z. *)
Definition parse_time (s : str) : option Z :=
  obind (expect 84 s) (fun s =>
  obind (take_digits 2 0 s) (fun '(h, s) =>
  obind (expect 58 s) (fun s =>
  obind (take_digits 2 0 s) (fun '(mi, s) =>
  obind (expect 58 s) (fun s =>
  obind (take_digits 2 0 s) (fun '(sec, s) =>
  obind (parse_millis s) (fun '(ms, s) =>
    match s with
    | [90%N] =>
        if (h <=? 23) && (mi <=? 59) && (sec <=? 59)
        then Some (MakeTime h mi sec ms) else None
    | _ => None
    end))))))).

(** [Date.parse] on the Date Time String Format in its forms that fix the
    time zone: the date-only form YYYY-MM-DD (UTC) and the date-time form
    YYYY-MM-DDTHH:mm:ss[.sss]Z, with four-digit or expanded years.  This
    covers what [toISOString] prints, which is how the mail collaborator
    writes [email.date].  ECMAScript leaves every other string to the
    implementation; the model does not recognise them (NaN), which is what
    every implementation answers for the empty string. *)
Definition Date_parse (s : str) : option Z :=
  obind (parse_date s) (fun '(day, rest) =>
    match rest with
    | [] => TimeClip (MakeDate day 0)
    | _ => obind (parse_time rest) (fun time => TimeClip (MakeDate day time))
    end).

(** *** Printing *)

Definition digit_char (d : Z) : N := Z.to_N (48 + d).

(** The last [n] decimal digits of [v]. *)
Fixpoint pad (n : nat) (v : Z) : str :=
  match n with
  | O => []
  | S k => pad k (v / 10) ++ [digit_char (v mod 10)]
  end.

Definition year_string (y : Z) : str :=
  if (0 <=? y) && (y <=? 9999) then pad 4 y
  else (if y <? 0 then 45%N else 43%N) :: pad 6 (Z.abs y).

(** The date part YYYY-MM-DD of the ISO form of a day number. *)
Definition date_string (day : Z) : str :=
  let '(y, m, d) := civil_from_days day in
  year_string y ++ [45%N] ++ pad 2 m ++ [45%N] ++ pad 2 d.

Definition time_string (tod : Z) : str :=
  pad 2 (tod / 3600000) ++ [58%N] ++ pad 2 ((tod / 60000) mod 60)
  ++ [58%N] ++ pad 2 ((tod / 1000) mod 60) ++ [46%N] ++ pad 3 (tod mod 1000).

(** [date.toISOString()]: raises RangeError on an invalid date. *)
Definition toISOString (tv : option Z) : result str :=
  match tv with
  | None => Throw RangeError
  | Some t =>
      Ok (date_string (Day t) ++ [84%N] ++ time_string (TimeWithinDay t)
          ++ [90%N])
  end.

Section Host.

Variable LocalTZA : Z -> bool -> Z.

Definition LocalTime (t : Z) : Z := t + LocalTZA t true.
Definition UTC (t : Z) : Z := t - LocalTZA t false.

(** [date.getDate()]: the day of the month in local time, NaN on an
    invalid date. *)
Definition getDate (tv : option Z) : option Z :=
  option_map (fun t => snd (civil_from_days (Day (LocalTime t)))) tv.

(** [date.setDate(dt)]: the new time value of the date. *)
Definition setDate (tv : option Z) (dt : option Z) : option Z :=
  match tv, dt with
  | Some t, Some dt =>
      let lt := LocalTime t in
      let '(y, m, _) := civil_from_days (Day lt) in
      TimeClip (UTC (MakeDate (MakeDay y m dt) (TimeWithinDay lt)))
  | _, _ => None
  end.

End Host.

(** A host whose local time is UTC. *)
Definition utcHost : Z -> bool -> Z := fun _ _ => 0.

End JsDate.

(* ================================================================= *)
(** ** Data model (types/index.ts) *)

Inductive JobStatus : Type :=
| Applied | PhoneScreen | Interview | Technical | Offer | Rejected | Ghosted.

Inductive EmailCategory : Type :=
| application_confirmation
| rejection
| interview_invitation
| offer
| follow_up
| unknown.

Record ParsedEmail : Type := mkEmail {
  id : str;
  threadId : str;
  from : str;
  subject : str;
  date : str;
  body : str;
  htmlBody : option str
}.

(** What a lookup in an object literal can produce at run time: a string
    of the literal, or a member inherited from [Object.prototype] (a
    function or an object, named here by its property key). *)
Inductive jsval : Type :=
| JString (s : str)
| JInherited (key : str).

Record JobApplication : Type := mkApplication {
  company : jsval;
  position : str;
  dateApplied : str;
  status : JobStatus;
  salaryRange : option str;
  location : option str;
  jobLink : option str;
  emailThreadLink : option str;
  followUpDate : option str;
  notes : option str;
  sourceEmail : str
}.

(** The category as the string it is at run time. *)
Definition category_name (c : EmailCategory) : str :=
  match c with
  | application_confirmation => js "application_confirmation"
  | rejection => js "rejection"
  | interview_invitation => js "interview_invitation"
  | offer => js "offer"
  | follow_up => js "follow_up"
  | unknown => js "unknown"
  end.

(* ================================================================= *)
(** ** Truthiness and the [||] operator *)

Definition val_truthy (v : option jsval) : bool :=
  match v with
  | None => false
  | Some (JString s) => truthy s
  | Some (JInherited _) => true
  end.

(** [a || b] on values that may be [null]. *)
Definition or_js (a b : option jsval) : option jsval :=
  if val_truthy a then a else b.

(** [a || d] where [d] is a value. *)
Definition or_default (a : option jsval) (d : jsval) : jsval :=
  match a with
  | Some v => if val_truthy a then v else d
  | None => d
  end.

Definition opt_truthy (o : option str) : bool :=
  match o with Some s => truthy s | None => false end.

(** [s || undefined] and [s || null] on a string that may be [null]. *)
Definition or_undefined (o : option str) : option str :=
  if opt_truthy o then o else None.

Definition string_val (o : option str) : option jsval :=
  option_map JString o.

(* ================================================================= *)
(** ** The parser service (first, ATS-aware version of the file) *)

Module Parser.
Import Regex RegexApi JsDate.

Definition chr (a : ascii) : regex := Chr (N_of_ascii a).
Arguments chr a%_char.

Record PatternGroup : Type := mkGroup {
  category : EmailCategory;
  patterns : list RegExp
}.

(** CATEGORY_PATTERNS, in the order of the source. *)
Definition CATEGORY_PATTERNS : list PatternGroup :=
  [ mkGroup offer
      [ re_i (lit "offer letter");
        re_i (lit "job offer");
        re_i (lit "we are pleased to offer");
        re_i (lit "extend an offer");
        re_i (lit "offer of employment");
        re_i (seq [lit "congratulations"; star Dot; lit "offer"]) ];
    mkGroup interview_invitation
      [ re_i (seq [lit "schedule"; star Dot; lit "interview"]);
        re_i (seq [lit "interview"; star Dot; lit "schedule"]);
        re_i (lit "phone screen");
        re_i (lit "invite you to interview");
        re_i (lit "like to schedule");
        re_i (seq [lit "next steps"; star Dot; lit "interview"]);
        re_i (lit "technical assessment");
        re_i (lit "coding challenge");
        re_i (lit "take-home");
        re_i (lit "onsite interview");
        re_i (lit "virtual interview");
        re_i (lit "meet the team") ];
    mkGroup rejection
      [ re_i (lit "unfortunately");
        re_i (lit "not moving forward");
        re_i (lit "other candidates");
        re_i (lit "position has been filled");
        re_i (lit "decided not to proceed");
        re_i (lit "will not be moving");
        re_i (lit "not be able to offer");
        re_i (lit "pursue other candidates");
        re_i (lit "after careful consideration");
        re_i (lit "regret to inform");
        re_i (lit "won't be moving forward") ];
    mkGroup application_confirmation
      [ re_i (seq [lit "application"; star Dot; lit "received"]);
        re_i (lit "thank you for applying");
        re_i (seq [lit "application"; star Dot; lit "submitted"]);
        re_i (lit "we received your application");
        re_i (lit "application confirmation");
        re_i (lit "successfully applied");
        re_i (seq [lit "application"; star Dot; lit "review"]) ];
    mkGroup follow_up
      [ re_i (lit "following up");
        re_i (lit "checking in");
        re_i (lit "update on your application");
        re_i (seq [lit "status"; star Dot; lit "application"]);
        re_i (lit "wanted to reach out") ] ].

Definition STATUS_MAP (c : EmailCategory) : JobStatus :=
  match c with
  | application_confirmation => Applied
  | rejection => Rejected
  | interview_invitation => Interview
  | offer => Offer
  | follow_up => Applied
  | unknown => Applied
  end.

(** [patterns.some((p) => p.test(text))]. *)
Definition some_matches (text : str) (ps : list RegExp) : bool :=
  existsb (fun p => test p text) ps.

(** The [for ... of] loop of [classifyEmail] over a table of groups. *)
Fixpoint classify_loop (gs : list PatternGroup) (text : str)
  : EmailCategory :=
  match gs with
  | [] => unknown
  | g :: rest =>
      if some_matches text (patterns g) then category g
      else classify_loop rest text
  end.

Definition email_text (email : ParsedEmail) : str :=
  subject email ++ js " " ++ body email.

Definition classifyEmail (email : ParsedEmail) : EmailCategory :=
  classify_loop CATEGORY_PATTERNS (email_text email).

Definition shouldProcess (email : ParsedEmail) : bool :=
  match classifyEmail email with
  | unknown => false
  | _ => true
  end.

(** *** Company *)

Definition GENERIC_SENDER_NAMES : RegExp :=
  re_i (seq [Bol; Group 1 (alt
    [ seq [lit "no"; opt (Cls false (chars "- ")); lit "reply"];
      seq [lit "do"; opt (Cls false (chars "- ")); lit "not";
           opt (Cls false (chars "- ")); lit "reply"];
      lit "recruiting"; lit "careers"; lit "talent"; lit "hr"; lit "jobs";
      seq [lit "notification"; opt (chr "s")];
      lit "info"; lit "support"; lit "admin"; lit "hello"; lit "team";
      lit "mailer";
      seq [lit "update"; opt (chr "s")];
      seq [lit "alert"; opt (chr "s")] ])]).

Definition SENDER_SUFFIXES : RegExp :=
  re_i (seq [plus ws; Group 1 (alt
    [ lit "recruiting"; lit "careers"; lit "talent acquisition";
      lit "talent"; lit "team"; lit "hr"; lit "jobs"; lit "hiring";
      lit "staffing"; seq [lit "notification"; opt (chr "s")] ]);
    star ws; Eol]).

Definition ATS_DOMAINS : list str :=
  [ js "greenhouse.io"; js "lever.co"; js "workday.com";
    js "myworkdayjobs.com"; js "icims.com"; js "smartrecruiters.com";
    js "ashbyhq.com"; js "jobvite.com"; js "bamboohr.com";
    js "applytojob.com"; js "recruitee.com"; js "breezy.hr"; js "jazz.co";
    js "rippling.com" ].

(** /\s*(Inc\.?|LLC|Ltd\.?|Corp\.?|Co\.?)\s*$/i *)
Definition LEGAL_SUFFIXES : RegExp :=
  re_i (seq [star ws; Group 1 (alt
    [ seq [lit "Inc"; opt (chr ".")]; lit "LLC";
      seq [lit "Ltd"; opt (chr ".")]; seq [lit "Corp"; opt (chr ".")];
      seq [lit "Co"; opt (chr ".")] ]);
    star ws; Eol]).

Definition bad_names : list str :=
  [ js "the"; js "a"; js "an"; js "your"; js "our"; js "this"; js "that";
    js "us"; js "we"; js "thank"; js "thanks"; js "hi"; js "hello";
    js "dear"; js "application"; js "confirmation"; js "update";
    js "status"; js "re"; js "fwd" ].

Definition cleanCompanyName (name : str) : option str :=
  let cleaned :=
    trim (replace (re_g (plus ws)) (js " ")
           (replace LEGAL_SUFFIXES []
             (replace SENDER_SUFFIXES [] name))) in
  if arr_includes (toLowerCase cleaned) bad_names then None
  else or_undefined (Some cleaned).

(** [name && name.length >= 2 && name.length < 80]. *)
Definition valid_company (name : option str) : bool :=
  match name with
  | Some n =>
      truthy n && (2 <=? List.length n)%nat && (List.length n <? 80)%nat
  | None => false
  end.

(** The loop shared by the body and subject strategies: the first
    pattern that matches and whose capture cleans to a valid name.
    Every match of these patterns defines [match[1]]
    ([exec_defines_group] below), so the branch for an undefined
    capture, where the source would read a property of [undefined], is
    never taken; the same holds in the sender, domain and position
    strategies. *)
Fixpoint first_company (ps : list RegExp) (text : str) : option str :=
  match ps with
  | [] => None
  | p :: rest =>
      match exec p text with
      | Some m =>
          let name :=
            match group 1 m with
            | Some g => cleanCompanyName g
            | None => None
            end in
          if valid_company name then name else first_company rest text
      | None => first_company rest text
      end
  end.

(** ([A-Z][A-Za-z0-9\s&.,'-]+?) *)
Definition name_class : regex :=
  Cls false ([range "A" "Z"; range "a" "z"; range "0" "9"; CSpace]
             ++ chars "&.,'-").

Definition company_group : regex :=
  Group 1 (seq [Cls false [range "A" "Z"]; plus_lazy name_class]).

Definition punct_end : regex := seq [star ws; Cls false (chars ".!,")].

Definition body_company_patterns : list RegExp :=
  [ re_i (seq [opt (seq [lit "your"; plus ws]); lit "application"; plus ws;
               alt [lit "to"; lit "at"; lit "with"; lit "for"]; plus ws;
               opt (seq [lit "the"; plus ws]); company_group;
               seq [plus ws;
                    alt [lit "has been"; lit "was"; lit "is"; lit "for the";
                         lit "for a"];
                    WordB]]);
    re_i (seq [alt [lit "applying"; lit "applied"]; plus ws;
               alt [lit "to"; lit "at"; lit "with"; lit "for"]; plus ws;
               opt (seq [lit "the"; plus ws]); company_group;
               alt [punct_end;
                    seq [plus ws; alt [lit "for"; lit "and"; lit "as"];
                         WordB]]]);
    re_i (seq [lit "interest"; plus ws; lit "in"; plus ws;
               opt (seq [lit "working"; plus ws; alt [lit "at"; lit "with"];
                         plus ws]);
               company_group;
               alt [punct_end;
                    seq [plus ws; alt [lit "and"; lit "we"]; WordB]]]);
    re_i (seq [lit "on"; plus ws; lit "behalf"; plus ws; lit "of"; plus ws;
               company_group; punct_end]);
    re_i (seq [alt [lit "position"; lit "role"; lit "opportunity"]; plus ws;
               alt [lit "at"; lit "with"]; plus ws; company_group;
               alt [punct_end;
                    seq [plus ws;
                         alt [lit "and"; lit "has"; lit "is"; lit "we"];
                         WordB]]]);
    re_im (seq [Bol; company_group; plus ws;
                alt [seq [lit "has"; plus ws; lit "received"];
                     lit "received"; lit "confirms"; lit "would like"]]);
    re_i (seq [lit "team"; plus ws; lit "at"; plus ws; company_group;
               punct_end]) ].

Definition extractCompanyFromBody (body : str) : option str :=
  first_company body_company_patterns body.

(** The display name of a sender header: an optional double quote at
    the start, a run of code units other than the double quote and [<]
    (captured), an optional double quote, white space, [<]. *)
Definition SENDER_NAME : RegExp :=
  re_plain (seq [Bol; opt (Chr dquote);
                 Group 1 (plus (Cls true [CChr dquote; CChr 60]));
                 opt (Chr dquote); star ws; chr "<"]).

Definition extractCompanyFromSender (from : str) : option str :=
  match exec SENDER_NAME from with
  | None => None
  | Some nameMatch =>
      match group 1 nameMatch with
      | None => None
      | Some g =>
          let name := trim g in
          if test GENERIC_SENDER_NAMES name then None
          else
            let cleaned := cleanCompanyName name in
            if valid_company cleaned then cleaned else None
      end
  end.

Definition subject_end : regex :=
  alt [seq [star ws; Cls false (chars "-" ++ [CChr endash] ++ chars "|!")];
       seq [star ws; Eol]].

Definition subject_company_patterns : list RegExp :=
  [ re_plain (seq [WordB; lit "at"; plus ws; company_group; subject_end]);
    re_plain (seq [WordB; lit "from"; plus ws; company_group; subject_end]);
    re_plain (seq [WordB; lit "with"; plus ws; company_group; subject_end]);
    re_plain (seq [Bol; company_group; star ws;
                   Cls false (chars "-" ++ [CChr endash] ++ chars "|:");
                   ws]) ].

Definition extractCompanyFromSubject (subject : str) : option str :=
  first_company subject_company_patterns subject.

(** The object literal [knownSplits] of [titleCase]. *)
Definition knownSplits : list (str * str) :=
  [ (js "randstadservices", js "Randstad");
    (js "smartrecruiters", js "SmartRecruiters");
    (js "bamboohr", js "BambooHR") ].

(** The property keys of [Object.prototype], which every object literal
    inherits; each of them holds a function or an object. *)
Definition Object_prototype_keys : list str :=
  [ js "constructor"; js "__defineGetter__"; js "__defineSetter__";
    js "hasOwnProperty"; js "__lookupGetter__"; js "__lookupSetter__";
    js "isPrototypeOf"; js "propertyIsEnumerable"; js "toString";
    js "valueOf"; js "__proto__"; js "toLocaleString" ].

Fixpoint own_property (o : list (str * str)) (key : str) : option str :=
  match o with
  | [] => None
  | (k, v) :: rest => if str_eqb k key then Some v else own_property rest key
  end.

(** [o[key]] on an object literal: an own property, else an inherited
    one, else [undefined]. *)
Definition get_property (o : list (str * str)) (key : str) : option jsval :=
  match own_property o key with
  | Some v => Some (JString v)
  | None =>
      if arr_includes key Object_prototype_keys then Some (JInherited key)
      else None
  end.

Definition titleCase (domain : str) : jsval :=
  match get_property knownSplits domain with
  | Some v =>
      if val_truthy (Some v) then v
      else JString (toUpperCase (charAt0 domain) ++ sliceFrom 1 domain)
  | None => JString (toUpperCase (charAt0 domain) ++ sliceFrom 1 domain)
  end.

(** /@([^.>]+)\./ *)
Definition DOMAIN : RegExp :=
  re_plain (seq [chr "@"; Group 1 (plus (Cls true (chars ".>"))); chr "."]).

Definition skip_domains : list str :=
  [ js "gmail"; js "yahoo"; js "hotmail"; js "outlook"; js "mail";
    js "proton"; js "icloud" ]
  ++ List.map (fun d => first_piece (splitChar 46 d)) ATS_DOMAINS.

Definition extractCompanyFromDomain (from : str) : option jsval :=
  match exec DOMAIN from with
  | None => None
  | Some domainMatch =>
      match group 1 domainMatch with
      | None => None
      | Some g =>
          let domain := toLowerCase g in
          if arr_includes domain skip_domains then None
          else Some (titleCase domain)
      end
  end.

Definition isAts (from : str) : bool :=
  existsb (fun d => includes d (toLowerCase from)) ATS_DOMAINS.

Definition unknown_company : jsval := JString (js "Unknown Company").

Definition extractCompany (email : ParsedEmail) (body : str) : jsval :=
  let bodyCompany := string_val (extractCompanyFromBody body) in
  let fromCompany := string_val (extractCompanyFromSender (from email)) in
  let subjectCompany := string_val (extractCompanyFromSubject (subject email)) in
  let domainCompany := extractCompanyFromDomain (from email) in
  if isAts (from email) then
    or_default
      (or_js (or_js (or_js bodyCompany subjectCompany) fromCompany)
             domainCompany)
      unknown_company
  else
    or_default
      (or_js (or_js (or_js fromCompany bodyCompany) subjectCompany)
             domainCompany)
      unknown_company.

(** *** Position *)

Definition JOB_TITLE_KEYWORDS : RegExp :=
  re_i (seq [WordB; Group 1 (alt
    [ lit "developer"; lit "engineer"; lit "designer"; lit "analyst";
      lit "manager"; lit "director"; lit "coordinator"; lit "specialist";
      lit "consultant"; lit "administrator"; lit "architect"; lit "lead";
      lit "senior"; lit "junior"; lit "intern"; lit "associate";
      lit "assistant";
      seq [lit "full"; opt (Cls false (chars "- ")); lit "stack"];
      seq [lit "front"; opt (Cls false (chars "- ")); lit "end"];
      seq [lit "back"; opt (Cls false (chars "- ")); lit "end"];
      lit "devops"; lit "qa"; lit "sre"; lit "data"; lit "software";
      lit "web"; lit "mobile"; lit "cloud"; lit "product"; lit "project";
      lit "program"; lit "marketing"; lit "sales"; lit "support";
      lit "operations"; seq [lit "it"; WordB]; lit "ux"; lit "ui" ]);
    WordB]).

Definition NOT_A_POSITION : RegExp :=
  re_i (seq [Bol; Group 1 (alt
    [ lit "thank you"; lit "thanks"; lit "application"; lit "confirmation";
      lit "update"; lit "status"; lit "their interest"; lit "your interest";
      lit "our team"; lit "the team"; lit "dear"; lit "hi"; lit "hello";
      lit "regarding"; lit "re"; lit "fwd"; lit "fw" ])]).

Definition isValidPosition (text : str) : bool :=
  if negb (truthy text) || (List.length text <? 3)%nat
     || (100 <? List.length text)%nat then false
  else if test NOT_A_POSITION text then false
  else if test JOB_TITLE_KEYWORDS text then true
  else if (2 <=? List.length (split_re (re_plain (plus ws)) text))%nat then true
  else false.

(** The loop shared by the body and subject strategies. *)
Fixpoint first_position (ps : list RegExp) (text : str) : option str :=
  match ps with
  | [] => None
  | p :: rest =>
      match exec p text with
      | Some m =>
          match group 1 m with
          | Some g =>
              let position := trim g in
              if isValidPosition position then Some position
              else first_position rest text
          | None => first_position rest text
          end
      | None => first_position rest text
      end
  end.

(** [A-Za-z0-9\s/,.-] *)
Definition title_class : regex :=
  Cls false ([range "A" "Z"; range "a" "z"; range "0" "9"; CSpace]
             ++ chars "/,.-").

Definition title_group : regex := Group 1 (plus_lazy title_class).

Definition the_opt : regex := opt (seq [lit "the"; plus ws]).
Definition position_of_opt : regex :=
  opt (seq [lit "position"; plus ws; lit "of"; plus ws]).

Definition body_position_patterns : list RegExp :=
  [ re_i (seq [lit "for"; plus ws; lit "the"; plus ws; title_group; plus ws;
               alt [lit "position"; lit "role"; lit "opening";
                    lit "opportunity"]]);
    re_i (seq [alt [lit "position"; lit "role";
                    seq [lit "job"; star ws; lit "title"]];
               star ws; Cls false [CChr 58; CChr endash; CChr 45]; star ws;
               title_group;
               alt [seq [star ws;
                         Cls false [CChr 46; CChr newline; CChr 44; CChr 59]];
                    seq [plus ws;
                         alt [lit "at"; lit "with"; lit "in"; lit "is"];
                         WordB]]]);
    re_i (seq [alt [lit "applied"; lit "applying"]; plus ws;
               alt [lit "for"; lit "to"]; plus ws; the_opt; position_of_opt;
               title_group;
               alt [seq [plus ws;
                         alt [lit "position"; lit "role"; lit "at";
                              lit "with"];
                         WordB];
                    seq [star ws; Cls false (chars ".,;")]]]);
    re_i (seq [lit "application"; plus ws; lit "for"; plus ws; the_opt;
               position_of_opt; title_group;
               alt [seq [plus ws;
                         alt [lit "position"; lit "role"; lit "at";
                              lit "with"; lit "has"];
                         WordB];
                    seq [star ws; Cls false (chars ".,;")]]]);
    re_i (seq [lit "the"; plus ws; title_group; plus ws;
               alt [lit "role"; lit "position"; lit "opening"]; plus ws;
               alt [lit "at"; lit "with"]; WordB]);
    re_i (seq [lit "interested"; plus ws; lit "in"; plus ws; the_opt;
               position_of_opt; title_group;
               alt [seq [plus ws;
                         alt [lit "position"; lit "role"; lit "at";
                              lit "with"];
                         WordB];
                    seq [star ws; Cls false (chars ".,;")]]]) ].

Definition extractPositionFromBody (body : str) : option str :=
  first_position body_position_patterns body.

Definition dash_colon : regex := Cls false [CChr 45; CChr endash; CChr 58].

Definition subject_position_patterns : list RegExp :=
  [ re_i (seq [lit "application"; star ws; dash_colon; star ws; title_group;
               alt [seq [plus ws; alt [lit "at"; lit "with"; lit "-"];
                         WordB];
                    seq [star ws; Eol]]]);
    re_i (seq [Bol; opt (seq [lit "re:"; star ws]); title_group; plus ws;
               alt [lit "at"; lit "@"]; plus ws]);
    re_i (seq [lit "application"; plus ws; lit "for"; plus ws; the_opt;
               title_group;
               alt [seq [plus ws; alt [lit "at"; lit "with"]; WordB];
                    seq [star ws; Eol]]]);
    re_i (seq [alt [lit "role"; lit "position"; lit "job"]; star ws;
               dash_colon; star ws; Group 1 (plus title_class)]) ].

Definition extractPositionFromSubject (subject : str) : option str :=
  first_position subject_position_patterns subject.

Definition REPLY_PREFIX : RegExp :=
  re_gi (seq [Bol;
              Group 1 (alt [lit "re:"; seq [lit "fw"; opt (chr "d"); lit ":"];
                            lit "fw:"]);
              star ws]).

Definition BOILERPLATE_PREFIX : RegExp :=
  re_gi (seq [Bol;
              Group 1 (alt [lit "application"; lit "confirmation";
                            lit "thank you"; lit "update"; lit "your"]);
              star ws;
              Cls false [CChr 45; CChr endash; CChr 58; CChr 124];
              star ws]).

Definition TRAILING_PART : RegExp :=
  re_plain (seq [star ws; Cls false [CChr 45; CChr endash; CChr 124];
                 star ws; plus Dot; Eol]).

Definition unknown_position : str := js "Unknown Position".

Definition extractPosition (email : ParsedEmail) (body : str) : str :=
  let bodyPosition := extractPositionFromBody body in
  if opt_truthy bodyPosition then
    match bodyPosition with Some p => p | None => unknown_position end
  else
  let subjectPosition := extractPositionFromSubject (subject email) in
  if opt_truthy subjectPosition then
    match subjectPosition with Some p => p | None => unknown_position end
  else
  let cleanSubject :=
    trim (replace TRAILING_PART []
           (replace BOILERPLATE_PREFIX []
             (replace REPLY_PREFIX [] (subject email)))) in
  if truthy cleanSubject
     && test JOB_TITLE_KEYWORDS cleanSubject
     && negb (test NOT_A_POSITION cleanSubject)
  then cleanSubject
  else unknown_position.

(** *** Salary, location, job link *)

(** The first pattern of the list that matches. *)
Fixpoint first_match (ps : list RegExp) (text : str) : option Match :=
  match ps with
  | [] => None
  | p :: rest =>
      match exec p text with
      | Some m => Some m
      | None => first_match rest text
      end
  end.

Definition amount : regex :=
  seq [chr "$"; plus (Cls false [CDigit; CChr 44])].

Definition range_sep : regex :=
  plus (Cls false [CChr 45; CChr endash; CChr 116; CChr 111]).

Definition k_opt : regex := opt (alt [chr "k"; chr "K"]).

Definition salary_patterns : list RegExp :=
  [ re_i (seq [amount; star ws; range_sep; star ws; amount; star ws;
               opt (seq [lit "per"; plus ws;
                         alt [lit "year"; lit "annum"; lit "hr";
                              lit "hour"]])]);
    re_i (seq [amount; star ws; k_opt; star ws; range_sep; star ws; amount;
               star ws; k_opt]);
    re_i (seq [lit "salary"; star ws; opt (lit "range"); opt (chr ":");
               star ws; amount]);
    re_i (seq [lit "compensation"; opt (chr ":"); star ws; amount]) ].

Definition extractSalary (text : str) : option str :=
  option_map (fun m => trim (m0 m)) (first_match salary_patterns text).

Definition location_patterns : list RegExp :=
  [ re_i (seq [alt [lit "location"; lit "based in"; lit "located in";
                    lit "office in"];
               opt (chr ":"); star ws;
               Group 1 (seq
                 [plus (Cls false [range "A" "Z"; range "a" "z"; CSpace;
                                   CChr 44]);
                  opt (seq [chr ","; star ws;
                            times 2 (Cls false [range "A" "Z"])])]);
               alt [chr "."; chr ","; Chr newline]]);
    re_i (alt [lit "remote"; lit "hybrid";
               seq [lit "on"; opt (chr "-"); lit "site"]]) ].

Definition extractLocation (text : str) : option str :=
  option_map
    (fun m => trim (if opt_truthy (group 1 m)
                    then match group 1 m with Some g => g | None => m0 m end
                    else m0 m))
    (first_match location_patterns text).

Definition host_label : regex := plus (Cls false [CWord; CChr 45]).
Definition url_tail : regex := star (Cls false (CWord :: chars "-./?%&=#")).

Definition urlPattern : RegExp :=
  re_gi (seq [lit "http"; opt (chr "s"); lit "://";
              plus (seq [host_label; chr "."]); host_label;
              opt (seq [chr "/"; url_tail]);
              alt [lit "job"; lit "career"; lit "position"; lit "apply";
                   lit "opening"];
              opt (seq [chr "/"; url_tail])]).

Definition atsPattern : RegExp :=
  re_gi (seq [lit "http"; opt (chr "s"); lit "://";
              opt (seq [host_label; chr "."]);
              alt [lit "greenhouse"; lit "lever"; lit "workday"; lit "icims";
                   lit "smartrecruiters"; lit "ashbyhq"; lit "jobvite";
                   lit "bamboohr"];
              url_tail]).

Definition extractJobLink (text : str) : option str :=
  match match_global urlPattern text with
  | Some m => Some (first_piece m)
  | None =>
      match match_global atsPattern text with
      | Some atsMatch => Some (first_piece atsMatch)
      | None => None
      end
  end.

(** *** Follow-up date and the record *)

Section Host.

(** The time zone of the host that runs the service. *)
Variable LocalTZA : Z -> bool -> Z.

Definition generateFollowUpDate (fromDate : str) (daysFromNow : Z)
  : result str :=
  let date := Date_parse fromDate in
  let date :=
    setDate LocalTZA date
      (option_map (fun d => (d + daysFromNow)%Z) (getDate LocalTZA date)) in
  let* iso := toISOString date in
  Ok (first_piece (splitChar 84 iso)).

Definition parseJobApplication (email : ParsedEmail)
           (category : EmailCategory) : result JobApplication :=
  let body := slice0 3000 (body email) in
  let company := extractCompany email body in
  let position := extractPosition email body in
  let salaryRange := extractSalary body in
  let location := extractLocation body in
  let jobLink :=
    extractJobLink (if opt_truthy (htmlBody email)
                    then match htmlBody email with
                         | Some h => h
                         | None => body
                         end
                    else body) in
  let* followUpDate :=
    match category with
    | application_confirmation =>
        let* d := generateFollowUpDate (date email) 7 in Ok (Some d)
    | interview_invitation =>
        let* d := generateFollowUpDate (date email) 1 in Ok (Some d)
    | _ => Ok None
    end in
  let* iso := toISOString (Date_parse (date email)) in
  Ok {| company := company;
        position := position;
        dateApplied := first_piece (splitChar 84 iso);
        status := STATUS_MAP category;
        salaryRange := or_undefined salaryRange;
        location := or_undefined location;
        jobLink := or_undefined jobLink;
        emailThreadLink :=
          Some (js "https://mail.google.com/mail/u/0/#inbox/"
                ++ threadId email);
        followUpDate := followUpDate;
        notes :=
          Some (js "Auto-tracked from email: "
                ++ replace (re_g (chr "_")) (js " ")
                     (category_name category));
        sourceEmail := subject email |}.

End Host.

End Parser.

(* ================================================================= *)
(** ** The older version of the service (second copy in the file)

    The file carries a second, older copy of the service.  Its
    classifier, with its own pattern table, is embedded here; its
    extractors differ from the ones above and are not used by what
    follows. *)

Module ParserOld.
Import Regex RegexApi.

Record PatternGroup : Type := mkGroup {
  category : EmailCategory;
  patterns : list RegExp
}.

Definition CATEGORY_PATTERNS : list PatternGroup :=
  [ mkGroup offer
      [ re_i (lit "offer letter");
        re_i (lit "job offer");
        re_i (lit "we are pleased to offer");
        re_i (lit "extend an offer");
        re_i (lit "offer of employment");
        re_i (seq [lit "congratulations"; star Dot; lit "offer"]) ];
    mkGroup interview_invitation
      [ re_i (seq [lit "schedule"; star Dot; lit "interview"]);
        re_i (seq [lit "interview"; star Dot; lit "schedule"]);
        re_i (lit "phone screen");
        re_i (lit "invite you to interview");
        re_i (lit "like to schedule");
        re_i (seq [lit "next steps"; star Dot; lit "interview"]);
        re_i (lit "technical assessment");
        re_i (lit "coding challenge");
        re_i (lit "take-home");
        re_i (lit "onsite interview");
        re_i (lit "virtual interview");
        re_i (lit "meet the team") ];
    mkGroup rejection
      [ re_i (lit "unfortunately");
        re_i (lit "not moving forward");
        re_i (lit "other candidates");
        re_i (lit "position has been filled");
        re_i (lit "decided not to proceed");
        re_i (lit "will not be moving");
        re_i (lit "not be able to offer");
        re_i (lit "pursue other candidates");
        re_i (lit "after careful consideration");
        re_i (lit "regret to inform");
        re_i (lit "won't be moving forward") ];
    mkGroup application_confirmation
      [ re_i (seq [lit "application"; star Dot; lit "received"]);
        re_i (lit "thank you for applying");
        re_i (seq [lit "application"; star Dot; lit "submitted"]);
        re_i (lit "we received your application");
        re_i (lit "application confirmation");
        re_i (lit "successfully applied");
        re_i (seq [lit "application"; star Dot; lit "review"]) ];
    mkGroup follow_up
      [ re_i (lit "following up");
        re_i (lit "checking in");
        re_i (lit "update on your application");
        re_i (seq [lit "status"; star Dot; lit "application"]);
        re_i (lit "wanted to reach out") ] ].

Fixpoint classify_loop (gs : list PatternGroup) (text : str)
  : EmailCategory :=
  match gs with
  | [] => unknown
  | g :: rest =>
      if existsb (fun p => test p text) (patterns g) then category g
      else classify_loop rest text
  end.

Definition classifyEmail (email : ParsedEmail) : EmailCategory :=
  classify_loop CATEGORY_PATTERNS (subject email ++ js " " ++ body email).

End ParserOld.

(* ================================================================= *)
(** ** Vocabulary of the properties *)

Module Props.
Import Regex RegexApi JsDate Parser.

(** The first candidate of a list that is not [null]. *)
Fixpoint first_some {A : Type} (l : list (option A)) : option A :=
  match l with
  | [] => None
  | Some a :: _ => Some a
  | None :: rest => first_some rest
  end.

(** The four company candidates of an email, in the order in which
    company resolution prefers them. *)
Definition company_candidates (email : ParsedEmail) (body : str)
  : list (option jsval) :=
  let bodyCompany := string_val (extractCompanyFromBody body) in
  let fromCompany := string_val (extractCompanyFromSender (from email)) in
  let subjectCompany := string_val (extractCompanyFromSubject (subject email)) in
  let domainCompany := extractCompanyFromDomain (from email) in
  if isAts (from email)
  then [bodyCompany; subjectCompany; fromCompany; domainCompany]
  else [fromCompany; bodyCompany; subjectCompany; domainCompany].

Definition resolve (cands : list (option jsval)) : jsval :=
  match first_some cands with
  | Some v => v
  | None => unknown_company
  end.

(** A string value that is not empty. *)
Definition nonempty_string (v : jsval) : Prop :=
  exists s, v = JString s /\ s <> [].

Definition absent_or_nonempty (o : option str) : Prop :=
  match o with
  | None => True
  | Some s => s <> []
  end.

Definition all_categories : list EmailCategory :=
  [ application_confirmation; rejection; interview_invitation; offer;
    follow_up; unknown ].

(** The host's offset from UTC is the same [n] days after [t] as at [t]
    (no daylight-saving change in between). *)
Definition offset_unchanged (tz : Z -> bool -> Z) (t n : Z) : Prop :=
  tz (LocalTime tz t + n * msPerDay)%Z false = tz t true.

(** The follow-up date of the category, if it has one, is a time value
    that a [Date] can hold. *)
Definition follow_up_in_range (tz : Z -> bool -> Z) (t : Z)
           (c : EmailCategory) : Prop :=
  match c with
  | application_confirmation =>
      (Z.abs (UTC tz (LocalTime tz t + 7 * msPerDay)) <= maxTime)%Z
  | interview_invitation =>
      (Z.abs (UTC tz (LocalTime tz t + 1 * msPerDay)) <= maxTime)%Z
  | _ => True
  end.

(** The follow-up date of a category, as [parseJobApplication]
    computes it. *)
Definition follow_up_of (tz : Z -> bool -> Z) (email : ParsedEmail)
           (c : EmailCategory) : result (option str) :=
  match c with
  | application_confirmation =>
      bind (generateFollowUpDate tz (date email) 7) (fun d => Ok (Some d))
  | interview_invitation =>
      bind (generateFollowUpDate tz (date email) 1) (fun d => Ok (Some d))
  | _ => Ok None
  end.

(** States of the matcher related by consuming one code unit. *)
Definition one_step (x y : MState) : Prop :=
  exists c tl, ahead x = c :: tl /\ y = mkState (c :: before x) tl (caps x).

(** [sat ic ml r P]: every way in which [r] succeeds from a state [x]
    hands its continuation a state [y] with [P x y]. *)
Definition sat (ic ml : bool) (r : regex) (P : MState -> MState -> Prop)
  : Prop :=
  forall x k z, run ic ml r x k = Some z -> exists y, P x y /\ k y = Some z.

(** At least [min] iterations of [P]. *)
Inductive reps (P : MState -> MState -> Prop)
  : nat -> MState -> MState -> Prop :=
| reps_nil : forall x, reps P 0 x x
| reps_cons : forall min x y z,
    P x y -> reps P (Nat.pred min) y z -> reps P min x z.

(** The state [y] is [x] or further along the input. *)
Definition shorter (x y : MState) : Prop :=
  (List.length (ahead y) <= List.length (ahead x))%nat.

(** The continuations [k] and [k'] agree from [x] on. *)
Definition agree_from (x : MState) (k k' : MState -> option MState) : Prop :=
  forall y, shorter x y -> k y = k' y.

(** The captures of [y] extend the captures of [x]. *)
Definition caps_grow (x y : MState) : Prop :=
  exists l, caps y = l ++ caps x.

Definition has_cap (n : nat) (x : MState) : Prop :=
  get_cap n (caps x) <> None.

(** Every way through the pattern passes through capture group [n]. *)
Fixpoint sets_group (n : nat) (r : regex) : bool :=
  match r with
  | Group k r1 => Nat.eqb k n || sets_group n r1
  | Seq a b => sets_group n a || sets_group n b
  | Alt a b => sets_group n a && sets_group n b
  | Rep min max _ r1 =>
      negb (Nat.eqb min 0) && negb (max_is_zero max) && sets_group n r1
  | _ => false
  end.

(** The patterns whose first capture the extractors read without a
    test ([match[1].trim()], [cleanCompanyName(match[1])],
    [domainMatch[1].toLowerCase()]). *)
Definition captured_patterns : list RegExp :=
  body_company_patterns ++ subject_company_patterns
  ++ [SENDER_NAME; DOMAIN]
  ++ body_position_patterns ++ subject_position_patterns.

(** Every pattern of the service. *)
Definition service_patterns : list RegExp :=
  flat_map patterns CATEGORY_PATTERNS ++ captured_patterns
  ++ salary_patterns ++ location_patterns
  ++ [ GENERIC_SENDER_NAMES; SENDER_SUFFIXES; LEGAL_SUFFIXES;
       JOB_TITLE_KEYWORDS; NOT_A_POSITION; REPLY_PREFIX; BOILERPLATE_PREFIX;
       TRAILING_PART; urlPattern; atsPattern ].

Fixpoint group_free (r : regex) : bool :=
  match r with
  | Group _ _ => false
  | Seq a b | Alt a b => group_free a && group_free b
  | Rep _ _ _ r1 => group_free r1
  | _ => true
  end.

(** No capture group under a quantifier. *)
Fixpoint no_group_in_rep (r : regex) : bool :=
  match r with
  | Rep _ _ _ r1 => group_free r1
  | Seq a b | Alt a b => no_group_in_rep a && no_group_in_rep b
  | Group _ r1 => no_group_in_rep r1
  | _ => true
  end.

(** A host on US Eastern time around the daylight-saving change of
    2024-03-10 (02:00 local, 07:00 UTC): five hours behind UTC before
    it, four hours behind after it. *)
Definition easternHost : Z -> bool -> Z :=
  fun t isUTC =>
    if isUTC
    then (if (t <? 1710054000000)%Z then -18000000 else -14400000)%Z
    else (if (t <? 1710039600000)%Z then -18000000 else -14400000)%Z.

(** A pattern without [^] and [$]: it may match anywhere in the text. *)
Fixpoint anchor_free (r : regex) : bool :=
  match r with
  | Bol | Eol => false
  | Seq a b | Alt a b => anchor_free a && anchor_free b
  | Rep _ _ _ r1 | Group _ r1 => anchor_free r1
  | _ => true
  end.

(** Case-insensitive, unanchored and without the [g] flag. *)
Definition plain_search (p : RegExp) : bool :=
  ignoreCase p && negb (global p) && anchor_free (source p).

(** *** Sample emails *)

Definition quoted (s : str) : str := [dquote] ++ s ++ [dquote].

(** An application confirmation sent by the company itself. *)
Definition acme_confirmation : ParsedEmail :=
  mkEmail (js "m1") (js "t1") (js "Acme Careers <jobs@acme.com>")
    (js "Thank you for applying to Acme Corp")
    (js "2024-01-01T00:00:00Z")
    (js "We received your application for the Senior Backend Engineer position at Acme Corp.")
    None.

(** A rejection sent through an applicant tracking system. *)
Definition greenhouse_rejection : ParsedEmail :=
  mkEmail (js "m2") (js "t2")
    (quoted (js "Greenhouse Recruiting") ++ js " <no-reply@greenhouse.io>")
    (js "Update on your application - Acme Corp")
    (js "2024-01-01T00:00:00Z")
    (js "Unfortunately, we have decided to move forward with other candidates for the Data Analyst role at Acme Corp.")
    None.

(** Text that matches an offer pattern and a rejection pattern. *)
Definition offer_and_rejection : ParsedEmail :=
  mkEmail (js "m3") (js "t3") (js "Acme <hr@acme.com>")
    (js "Your job offer")
    (js "2024-01-01T00:00:00Z")
    (js "Unfortunately we had to revise the terms.")
    None.

(** No date at all. *)
Definition undated : ParsedEmail :=
  mkEmail (js "m4") (js "t4") (js "Acme <hr@acme.com>")
    (js "Thank you for applying") [] (js "We received your application.")
    None.

(** A bare address whose domain label is one letter. *)
Definition one_letter_domain : ParsedEmail :=
  mkEmail (js "m5") (js "t5") (js "a@x.com") [] (js "2024-01-01T00:00:00Z")
    [] None.

(** A sender with a generic display name whose domain label is a
    property key of [Object.prototype]. *)
Definition constructor_domain : ParsedEmail :=
  mkEmail (js "m6") (js "t6") (js "Careers <careers@constructor.com>")
    (js "Thank you for applying") (js "2024-01-01T00:00:00Z")
    (js "We received your application.") None.

(** An interview invitation stamped half an hour after midnight UTC on
    the day of the daylight-saving change. *)
Definition spring_forward_invitation : ParsedEmail :=
  mkEmail (js "m11") (js "t11") (js "Acme <hr@acme.com>")
    (js "Phone screen") (js "2024-03-10T00:30:00.000Z")
    (js "We would like to schedule a phone screen.") None.

(** The name of an applicant tracking system inside the local part of
    an address at another domain. *)
Definition ats_in_local_part : ParsedEmail :=
  mkEmail (js "m7") (js "t7") (js "Initech <Lever.Co@initech.com>")
    (js "Your application") (js "2024-01-01T00:00:00Z")
    (js "This message is sent on behalf of Globex Corp.") None.

(** Nothing that names a company. *)
Definition no_signal : ParsedEmail :=
  mkEmail (js "m10") (js "t10") (js "someone@gmail.com") (js "Hello")
    (js "2024-01-01T00:00:00Z") (js "Following up on my message.") None.

(** Two emails that differ in identifier and in the body past its
    first 3000 code units. *)
Definition long_body (tail : str) : str := repeat 120%N 3000 ++ tail.

Definition long_email_1 : ParsedEmail :=
  mkEmail (js "m8") (js "t8") (js "Acme <hr@acme.com>") (js "Hello")
    (js "2024-01-01T00:00:00Z") (long_body (js " job offer")) None.

Definition long_email_2 : ParsedEmail :=
  mkEmail (js "m9") (js "t8") (js "Acme <hr@acme.com>") (js "Hello")
    (js "2024-01-01T00:00:00Z")
    (long_body (js " salary: $1 https://acme.com/jobs")) None.

End Props.

(* ================================================================= *)
(** ** What a pattern can match

    The words of a pattern, read off its syntax: [lang ic r w] when [w]
    is a way of spelling [r] under the [i] flag [ic].  The assertions
    ([^], [$], [\b]) spell the empty word, so [lang] is what the pattern
    can match at best; the matcher never matches anything else
    ([run_lang] below). *)

Module RegexLang.
Import Regex RegexApi.

Inductive lang (ic : bool) : regex -> str -> Prop :=
| L_Empty : lang ic Empty []
| L_Chr : forall c ch, canon ic ch = canon ic c -> lang ic (Chr c) [ch]
| L_Dot : forall ch, isLineTerminator ch = false -> lang ic Dot [ch]
| L_Cls : forall neg items ch,
    class_matches ic neg items ch = true -> lang ic (Cls neg items) [ch]
| L_Bol : lang ic Bol []
| L_Eol : lang ic Eol []
| L_WordB : lang ic WordB []
| L_Seq : forall a b w1 w2,
    lang ic a w1 -> lang ic b w2 -> lang ic (Seq a b) (w1 ++ w2)
| L_AltL : forall a b w, lang ic a w -> lang ic (Alt a b) w
| L_AltR : forall a b w, lang ic b w -> lang ic (Alt a b) w
| L_RepNil : forall min max greedy r,
    min = 0 \/ max_is_zero max = true -> lang ic (Rep min max greedy r) []
| L_RepCons : forall min max greedy r w1 w2,
    max_is_zero max = false ->
    lang ic r w1 ->
    lang ic (Rep (Nat.pred min) (dec_max max) greedy r) w2 ->
    lang ic (Rep min max greedy r) (w1 ++ w2)
| L_Group : forall n r w, lang ic r w -> lang ic (Group n r) w.

(** The sub-patterns inside capture group [n]. *)
Fixpoint group_bodies (n : nat) (r : regex) : list regex :=
  match r with
  | Group k r1 =>
      (if Nat.eqb k n then [r1] else []) ++ group_bodies n r1
  | Seq a b | Alt a b => group_bodies n a ++ group_bodies n b
  | Rep _ _ _ r1 => group_bodies n r1
  | _ => []
  end.

(** The run from [x] to [y] passed over the word [w]. *)
Definition passed (x y : MState) (w : str) : Prop :=
  ahead x = w ++ ahead y /\ before y = rev w ++ before x.

(** [s] holds [sub] at some position. *)
Definition substring (sub s : str) : Prop :=
  exists pre post, s = pre ++ sub ++ post.

(** Every capture of [y] is one of [x], or a piece of the word [w] and a
    word of a group of [r]. *)
Definition caps_from (ic : bool) (r : regex) (x y : MState) (w : str)
  : Prop :=
  forall n g,
    get_cap n (caps y) = Some g ->
    get_cap n (caps x) = Some g
    \/ (substring g w
        /\ exists r1, In r1 (group_bodies n r) /\ lang ic r1 g).

(** What a match of [r] from [x] to [y] is. *)
Definition matched (ic : bool) (r : regex) (x y : MState) : Prop :=
  exists w, passed x y w /\ lang ic r w /\ caps_from ic r x y w.

Definition citem_eq_dec (a b : citem) : {a = b} + {a <> b}.
Proof. decide equality; apply N.eq_dec. Defined.

Definition regex_eq_dec (a b : regex) : {a = b} + {a <> b}.
Proof.
  decide equality;
    try apply N.eq_dec; try apply Nat.eq_dec; try apply bool_dec;
    try (apply list_eq_dec; apply citem_eq_dec).
  decide equality. apply Nat.eq_dec.
Defined.

(** Every way through [r] goes through the sub-pattern [t]. *)
Fixpoint passes_through (t r : regex) : bool :=
  if regex_eq_dec t r then true else
  match r with
  | Seq a b => passes_through t a || passes_through t b
  | Alt a b => passes_through t a && passes_through t b
  | Rep min max _ r1 =>
      negb (Nat.eqb min 0) && negb (max_is_zero max) && passes_through t r1
  | Group _ r1 => passes_through t r1
  | _ => false
  end.

(** [w] holds the word [v] as a piece. *)
Definition has_piece (P : str -> Prop) (w : str) : Prop :=
  exists a v b, w = a ++ v ++ b /\ P v.

End RegexLang.

(* ================================================================= *)
(** ** Vocabulary for the shape of extracted fields *)

Module Shapes.
Import Regex RegexApi RegexLang Parser.

(** No white space at either end. *)
Definition trimmed (s : str) : Prop := trim s = s.

(** Every white-space code unit is a space that no white space
    follows. *)
Fixpoint single_spaced (s : str) : bool :=
  match s with
  | [] => true
  | c :: tl =>
      (if isWhiteSpace c
       then (c =? 32)%N
            && match tl with d :: _ => negb (isWhiteSpace d) | [] => true end
       else true)
      && single_spaced tl
  end.

(** What [s.replace(/\s+/g, " ")] comes to: every run of white space
    becomes one space.  [in_run] tells that the code unit before was
    white space. *)
Fixpoint collapse_ws (in_run : bool) (s : str) : str :=
  match s with
  | [] => []
  | c :: tl =>
      if isWhiteSpace c
      then (if in_run then collapse_ws true tl else 32%N :: collapse_ws true tl)
      else c :: collapse_ws false tl
  end.

(** The code units of the class [A-Za-z0-9\s/,.-]. *)
Definition title_char (c : N) : bool :=
  isUpperAscii c || isLowerAscii c || isDigit c || isWhiteSpace c
  || (c =? 47)%N || (c =? 44)%N || (c =? 46)%N || (c =? 45)%N.

(** Equal up to the case of the ASCII letters. *)
Definition same_letters (s t : str) : Prop := toUpperCase s = toUpperCase t.

(** A dollar sign with a digit or a comma right after it. *)
Definition has_dollar_amount (s : str) : Prop :=
  exists a d b, s = a ++ 36%N :: d :: b /\ (isDigit d = true \/ d = 44%N).

(** A pattern that cannot spell white space. *)
Definition item_no_space (it : citem) : bool :=
  match it with
  | CChr c => negb (isWhiteSpace c)
  | CDigit | CWord => true
  | CRange _ _ | CSpace => false
  end.

Fixpoint no_space (r : regex) : bool :=
  match r with
  | Chr c => negb (isWhiteSpace c)
  | Cls false items => forallb item_no_space items
  | Seq a b | Alt a b => no_space a && no_space b
  | Rep _ _ _ r1 | Group _ r1 => no_space r1
  | Empty | Bol | Eol | WordB => true
  | Dot | Cls true _ => false
  end.

End Shapes.

Module Samples.
Import Parser.

Definition senior_developer_body : str :=
  js "Thank you for applying for the Senior Developer position at Acme.".

Definition analyst_subject : ParsedEmail :=
  mkEmail (js "m2") (js "t2") (js "Jobs <jobs@initech.com>")
          (js "Application: Data Analyst") (js "2024-03-01T10:00:00.000Z")
          (js "We will be in touch.") None.

End Samples.

Module Samples2.
Import Parser.

Definition salary_body : str :=
  js "The salary range: $90,000 - $110,000 per year, based in Austin, TX.".

Definition link_body : str :=
  js "Track it at HTTPS://boards.greenhouse.io/acme/jobs/4411 any time.".

Definition priced_offer : ParsedEmail :=
  mkEmail (js "m7") (js "t7") (js "Acme <hr@acme.com>")
          (js "Your offer") (js "2024-05-02T08:30:00.000Z")
          salary_body (Some link_body).

End Samples2.

Module Fields.
Import Parser.

(** The text [parseJobApplication] hands to [extractJobLink]:
    [email.htmlBody || body]. *)
Definition link_text (email : ParsedEmail) : str :=
  let body := slice0 3000 (body email) in
  if opt_truthy (htmlBody email)
  then match htmlBody email with Some h => h | None => body end
  else body.

End Fields.

Module Links.
Import Parser.

(** The words one of which a job posting URL must hold. *)
Definition link_keywords : list str :=
  [js "job"; js "career"; js "position"; js "apply"; js "opening"].

(** A link that ends with one of the words, or goes on after it with a
    slash. *)
Definition ends_at_keyword (u : str) : Prop :=
  exists a kw b,
    u = a ++ kw ++ b
    /\ Exists (fun k => toUpperCase kw = toUpperCase k) link_keywords
    /\ (b = [] \/ exists b', b = 47%N :: b').

End Links.

Module Samples3.
Import Parser.

Definition spaced_sender : str :=
  js "Initech   Global  Hiring <talent@initech.example>".

End Samples3.

Module CaseBlind.
Import Regex Parser.

(** Two states of the matcher that differ in the case of ASCII letters
    only. *)
Definition same_case_state (x y : MState) : Prop :=
  toUpperCase (ahead x) = toUpperCase (ahead y)
  /\ toUpperCase (before x) = toUpperCase (before y).

Definition same_outcome (a b : option MState) : Prop :=
  match a, b with
  | Some x, Some y => same_case_state x y
  | None, None => True
  | _, _ => False
  end.

Definition shouting_offer : ParsedEmail :=
  mkEmail (js "m8") (js "t8") (js "Acme <hr@acme.com>")
          (js "CONGRATULATIONS FROM ACME") (js "2024-05-02T08:30:00.000Z")
          (js "We Are Pleased To OFFER you the role.") None.

Definition quiet_offer : ParsedEmail :=
  mkEmail (js "m9") (js "t9") (js "Acme <hr@acme.com>")
          (js "congratulations from acme") (js "2024-05-02T08:30:00.000Z")
          (js "we are pleased to offer you the role.") None.

End CaseBlind.

Module Phrases.
Import Regex RegexApi Parser.

(** The pattern of a phrase, as the table writes it: the phrase itself
    under the i flag. *)
Definition phrase (w : str) : RegExp :=
  re_i (fold_right (fun c r => Seq (Chr c) r) Empty w).

Definition shouted_rejection : ParsedEmail :=
  mkEmail (js "m10") (js "t10") (js "Acme <hr@acme.com>")
          (js "Hello") (js "2024-05-02T08:30:00.000Z")
          (js "UNFORTUNATELY we have nothing for you.") None.

(** A sender header with no angle bracket and no at sign. *)
Definition bare_sender : ParsedEmail :=
  mkEmail (js "m11") (js "t11") (js "greenhouse.io")
          (js "Interview with Globex - next steps")
          (js "2024-05-02T08:30:00.000Z")
          (js "Thank you for applying to Initech. We will call.") None.

End Phrases.



(* ================================================================= *)
(** ** The mail collaborator (gmail.service.ts)

    What the service does with the answers of the Gmail API.  The
    answers themselves (a message, the list of labels, the identifier of
    a created label) are inputs; the requests the service sends are
    outputs.  Base64 decoding, the HTML parser and the date parser of
    the host are parameters. *)

Module Gmail.
Import Regex RegexApi JsDate.

(** A header of a message; the API types both fields as optional. *)
Record Header : Type := mkHeader {
  h_name : option str;
  h_value : option str
}.

(** gmail_v1.Schema$MessagePart as the service reads it: [headers],
    [mimeType], [body?.data] and [parts].  A missing [parts] and an
    empty one are the same to the code. *)
#[warnings="-register-all"] Inductive MessagePart : Type :=
| Part (headers : option (list Header)) (mimeType : option str)
       (data : option str) (parts : list MessagePart).

Record Message : Type := mkMessage {
  m_threadId : option str;
  m_payload : option MessagePart
}.

Definition part_headers (p : MessagePart) : option (list Header) :=
  match p with Part hs _ _ _ => hs end.

(** [payload.mimeType === m && payload.body?.data]. *)
Definition has_data (m : str) (mimeType data : option str) : bool :=
  match mimeType with
  | Some t => str_eqb t m
  | None => false
  end && opt_truthy data.

Definition or_empty (o : option str) : str :=
  match o with Some s => s | None => [] end.

Section Parts.

(** [Buffer.from(data, "base64url").toString("utf-8")]. *)
Variable decodeBase64 : str -> str.

(** What a part itself holds: its text, or its HTML, or neither. *)
Definition own_body (mimeType data : option str) : str * str :=
  if has_data (js "text/plain") mimeType data
  then (decodeBase64 (or_empty data), [])
  else if has_data (js "text/html") mimeType data
  then ([], decodeBase64 (or_empty data))
  else ([], []).

(** One turn of the loop over [payload.parts]. *)
Definition take_part (acc result : str * str) : str * str :=
  (if truthy (fst result) then fst result else fst acc,
   if truthy (snd result) then snd result else snd acc).

Fixpoint extractBody (payload : MessagePart) : str * str :=
  match payload with
  | Part _ mimeType data parts =>
      fold_left (fun acc part => take_part acc (extractBody part))
                parts (own_body mimeType data)
  end.

(** [extractBody(message.payload)] on a payload that may be missing. *)
Definition extractBody_opt (payload : option MessagePart) : str * str :=
  match payload with
  | None => ([], [])
  | Some p => extractBody p
  end.

(** The text of the [body] element once the [style] and [script]
    elements are removed (cheerio). *)
Variable body_text : str -> str.

Definition stripHtml (html : str) : str :=
  trim (replace (re_g (plus ws)) (js " ") (body_text html)).

(** [headers.find(h => h.name?.toLowerCase() === name.toLowerCase())
    ?.value || ""]. *)
Definition getHeader (headers : list Header) (name : str) : str :=
  match find (fun h =>
                match h_name h with
                | Some n => str_eqb (toLowerCase n) (toLowerCase name)
                | None => false
                end) headers with
  | Some h => if opt_truthy (h_value h) then or_empty (h_value h) else []
  | None => []
  end.

(** [Date.parse] of the host, which reads the Date header (the formats
    it accepts beyond the ISO form are its own). *)
Variable host_parse : str -> option Z.

(** [new Date(s)]: the parsed time value, clipped. *)
Definition new_Date (s : str) : option Z := obind (host_parse s) TimeClip.

(** [parseMessage]: [response] is the answer of [messages.get], [None]
    when the request fails.  Every exception ends in the [catch], which
    returns [null]. *)
Definition parseMessage (messageId : str) (response : option Message)
  : option ParsedEmail :=
  match response with
  | None => None
  | Some message =>
      let headers :=
        match m_payload message with
        | Some p => match part_headers p with Some hs => hs | None => [] end
        | None => []
        end in
      let subject := getHeader headers (js "Subject") in
      let from := getHeader headers (js "From") in
      let date := getHeader headers (js "Date") in
      let '(text, html) := extractBody_opt (m_payload message) in
      match toISOString (new_Date date) with
      | Throw _ => None
      | Ok iso =>
          Some (mkEmail messageId
                        (if opt_truthy (m_threadId message)
                         then or_empty (m_threadId message) else messageId)
                        from subject iso
                        (if truthy html then stripHtml html else text)
                        (if truthy html then Some html else None))
      end
  end.

End Parts.

(** The text and the HTML that the parts of a message hold, in document
    order. *)
Fixpoint bodies (decodeBase64 : str -> str) (payload : MessagePart)
  : list (str * str) :=
  match payload with
  | Part _ mimeType data parts =>
      own_body decodeBase64 mimeType data
      :: flat_map (bodies decodeBase64) parts
  end.

(** The last string of a list that is not empty, [""] when there is
    none. *)
Definition last_truthy (l : list str) : str :=
  fold_left (fun acc s => if truthy s then s else acc) l [].

(** *** Labels *)

Record Label : Type := mkLabel {
  l_id : option str;
  l_name : option str
}.

(** The requests the service sends. *)
Inductive Request : Type :=
| LabelsList
| LabelsCreate (name : str)
| BatchModify (ids : list str) (addLabelIds : list str).

Definition batch_size : nat := 1000.

(** The loop [for (let i = 0; i < messageIds.length; i += 1000)] with
    its [messageIds.slice(i, i + 1000)].  Every turn takes at least one
    identifier, so [fuel] turns are enough for a list of [fuel]. *)
Fixpoint batches_from (fuel i : nat) (messageIds : list str)
  : list (list str) :=
  match fuel with
  | O => []
  | S f =>
      if (i <? List.length messageIds)%nat
      then firstn batch_size (skipn i messageIds)
           :: batches_from f (i + batch_size) messageIds
      else []
  end.

(** [getOrCreateLabel]: the label identifier, the new value of
    [cachedLabelId] and the requests sent.  [listed] is the answer of
    [labels.list] and [created] the identifier in the answer of
    [labels.create]. *)
Definition getOrCreateLabel (cachedLabelId : option str) (labelName : str)
           (listed : list Label) (created : str)
  : str * option str * list Request :=
  if opt_truthy cachedLabelId
  then (or_empty cachedLabelId, cachedLabelId, [])
  else
    match find (fun l => match l_name l with
                         | Some n => str_eqb n labelName
                         | None => false
                         end) listed with
    | Some existing =>
        if opt_truthy (l_id existing)
        then (or_empty (l_id existing), l_id existing, [LabelsList])
        else (created, Some created, [LabelsList; LabelsCreate labelName])
    | None => (created, Some created, [LabelsList; LabelsCreate labelName])
    end.

(** [labelAsProcessed] when every request succeeds: the new value of
    [cachedLabelId] and the requests sent, in order. *)
Definition labelAsProcessed (cachedLabelId : option str)
           (listed : list Label) (created : str) (messageIds : list str)
  : option str * list Request :=
  if Nat.eqb (List.length messageIds) 0 then (cachedLabelId, [])
  else
    let '(labelId, cache, sent) :=
      getOrCreateLabel cachedLabelId (js "JobTracker/Processed")
                       listed created in
    (cache,
     sent ++ List.map (fun batch => BatchModify batch [labelId])
                      (batches_from (List.length messageIds) 0 messageIds)).

(** The identifiers of the [batchModify] requests among [sent]. *)
Fixpoint modified (sent : list Request) : list (list str) :=
  match sent with
  | [] => []
  | BatchModify ids _ :: rest => ids :: modified rest
  | _ :: rest => modified rest
  end.

(** *** Sample answers of the API *)

Definition plain_message : Message :=
  mkMessage (Some (js "thread-1"))
    (Some (Part (Some [mkHeader (Some (js "subject"))
                                (Some (js "Application received"));
                       mkHeader (Some (js "FROM"))
                                (Some (js "Acme <jobs@acme.com>"));
                       mkHeader (Some (js "Date"))
                                (Some (js "2024-03-01T10:00:00Z"))])
                (Some (js "multipart/alternative")) None
                [Part None (Some (js "text/plain"))
                      (Some (js "We received your application.")) [];
                 Part None (Some (js "text/html"))
                      (Some (js "We  received" ++ [newline]
                             ++ js " your application at acme.com/jobs"))
                      []])).

End Gmail.

(* ================================================================= *)
(** ** The tracker database (notion.service.ts)

    What the service sends to the Notion API and what it does with the
    answers.  The answers (the result of a query, the properties of the
    database) are inputs; the request is the output. *)

Module Notion.
Import Parser.

(** The values the service writes into the properties of a page. *)
Inductive PropertyValue : Type :=
| Title (content : jsval)       (* title: [{ text: { content } }] *)
| RichText (content : str)      (* rich_text: [{ text: { content } }] *)
| DateStart (start : str)       (* date: { start } *)
| Select (name : JobStatus)     (* select: { name } *)
| Url (url : str).              (* url *)

(** An object with string keys, in the order of insertion. *)
Definition Properties : Type := list (str * PropertyValue).

Fixpoint get (props : Properties) (key : str) : option PropertyValue :=
  match props with
  | [] => None
  | (k, v) :: rest => if str_eqb k key then Some v else get rest key
  end.

Definition keys {A : Type} (o : list (str * A)) : list str := List.map fst o.

(** [if (field) properties[key] = make(field)] on an optional string. *)
Definition when_set (field : option str) (key : str)
           (make : str -> PropertyValue) : Properties :=
  match field with
  | Some s => if truthy s then [(key, make s)] else []
  | None => []
  end.

Definition buildProperties (app : JobApplication) : Properties :=
  [ (js "Company", Title (company app));
    (js "Position", RichText (position app));
    (js "Date Applied", DateStart (dateApplied app));
    (js "Status", Select (status app));
    (js "Source Email", RichText (slice0 2000 (sourceEmail app))) ]
  ++ when_set (salaryRange app) (js "Salary Range") RichText
  ++ when_set (location app) (js "Location") RichText
  ++ when_set (jobLink app) (js "Job Link") Url
  ++ when_set (emailThreadLink app) (js "Email Thread") Url
  ++ when_set (followUpDate app) (js "Follow-up Date") DateStart
  ++ when_set (notes app) (js "Notes") RichText.

(** [...(field ? { [key]: properties[key] } : {})]. *)
Definition spread_when (field : option str) (key : str)
           (properties : Properties) : list (str * option PropertyValue) :=
  if opt_truthy field then [(key, get properties key)] else [].

(** The [properties] of the [pages.update] request: a property that
    [buildProperties] did not set is sent as [undefined]. *)
Definition update_properties (app : JobApplication)
  : list (str * option PropertyValue) :=
  let properties := buildProperties app in
  [ (js "Status", get properties (js "Status"));
    (js "Notes", get properties (js "Notes")) ]
  ++ spread_when (followUpDate app) (js "Follow-up Date") properties
  ++ spread_when (salaryRange app) (js "Salary Range") properties
  ++ spread_when (location app) (js "Location") properties.

(** The requests that change the database. *)
Inductive Request : Type :=
| PagesCreate (properties : Properties)
| PagesUpdate (page_id : str)
              (properties : list (str * option PropertyValue)).

(** The filter of the query of [findExisting]: the title equals the
    company and the position text equals the position. *)
Definition query_filter (app : JobApplication) : jsval * str :=
  (company app, position app).

(** [findExisting]: [response] holds the identifiers of the pages the
    query found, [None] when the query fails (the [catch] then answers
    [null]). *)
Definition findExisting (response : option (list str)) : option str :=
  match response with
  | Some (page :: _) => Some page
  | Some [] => None
  | None => None
  end.

(** [createOrUpdateApplication]: the request it sends. *)
Definition createOrUpdateApplication (response : option (list str))
           (app : JobApplication) : Request :=
  match findExisting response with
  | Some page => PagesUpdate page (update_properties app)
  | None => PagesCreate (buildProperties app)
  end.

Definition required : list str :=
  [ js "Company"; js "Position"; js "Date Applied"; js "Status";
    js "Source Email" ].

(** [verifyDatabase]: [db] holds the names of the properties of the
    database, [None] when it cannot be retrieved. *)
Definition verifyDatabase (db : option (list str)) : bool :=
  match db with
  | None => false
  | Some properties =>
      let missing :=
        filter (fun r => negb (arr_includes r properties)) required in
      if (0 <? List.length missing)%nat then false else true
  end.

End Notion.

(* ================================================================= *)
(** ** The run over the new emails (scheduler.ts)

    [processNewEmails] with its collaborators as inputs: the state that
    [loadState] reads, the answer of [fetchJobEmails] and, for every
    record, whether [createOrUpdateApplication] ends well or raises. *)

Module Scheduler.
Import Parser.

(** [a < b] on strings: the order of the code units, a proper prefix
    coming first. *)
Fixpoint str_ltb (a b : str) : bool :=
  match a, b with
  | _, [] => false
  | [], _ :: _ => true
  | x :: a', y :: b' => (x <? y)%N || ((x =? y)%N && str_ltb a' b')
  end.

(** [a > b]. *)
Definition str_gtb (a b : str) : bool := str_ltb b a.

(** The variables of the loop. *)
Record Progress (Store : Type) : Type := mkProgress {
  store : Store;
  processedIds : list str;
  latestTimestamp : str;
  successCount : nat;
  skipCount : nat
}.
Arguments mkProgress {Store}.
Arguments store {Store}.
Arguments processedIds {Store}.
Arguments latestTimestamp {Store}.
Arguments successCount {Store}.
Arguments skipCount {Store}.

(** How a run ends. *)
Inductive Outcome : Type :=
| FetchFailed                      (* nothing labelled, nothing saved *)
| NoNewEmails                      (* nothing labelled, nothing saved *)
| Completed (labelled : list str)  (* the argument of labelAsProcessed *)
            (saved : str)          (* the timestamp handed to saveState *)
            (processed skipped errors : nat).

Section Run.

(** The time zone of the host. *)
Variable LocalTZA : Z -> bool -> Z.

(** The tracker database and one call of [createOrUpdateApplication]
    on it: the database after the call, and whether the call ended well
    ([false]: it raised). *)
Variable Store : Type.
Variable createOrUpdateApplication :
  Store -> JobApplication -> Store * bool.

(** The body of [for (const email of emails)].  A raise of
    [parseJobApplication] is outside the [try] and ends the run. *)
Definition step (st : Progress Store) (email : ParsedEmail)
  : result (Progress Store) :=
  if negb (shouldProcess email)
  then Ok (mkProgress (store st) (processedIds st) (latestTimestamp st)
                      (successCount st) (S (skipCount st)))
  else
    let category := classifyEmail email in
    let* application := parseJobApplication LocalTZA email category in
    let '(store', ok) := createOrUpdateApplication (store st) application in
    if ok
    then Ok (mkProgress store'
                        (processedIds st ++ [id email])
                        (if str_gtb (date email) (latestTimestamp st)
                         then date email else latestTimestamp st)
                        (S (successCount st)) (skipCount st))
    else Ok (mkProgress store' (processedIds st) (latestTimestamp st)
                        (successCount st) (skipCount st)).

Fixpoint loop (emails : list ParsedEmail) (st : Progress Store)
  : result (Progress Store) :=
  match emails with
  | [] => Ok st
  | email :: rest => let* st' := step st email in loop rest st'
  end.

(** [processNewEmails]: [lastProcessedTimestamp] is the state that
    [loadState] returns and [fetched] the answer of [fetchJobEmails],
    [None] when it raises. *)
Definition processNewEmails (db : Store) (lastProcessedTimestamp : str)
           (fetched : option (list ParsedEmail)) : result Outcome :=
  match fetched with
  | None => Ok FetchFailed
  | Some emails =>
      if Nat.eqb (List.length emails) 0 then Ok NoNewEmails
      else
        let* st := loop emails (mkProgress db [] lastProcessedTimestamp 0 0) in
        Ok (Completed (processedIds st) (latestTimestamp st)
                      (successCount st) (skipCount st)
                      (List.length emails - successCount st - skipCount st))
  end.

End Run.

(** *** Sample runs *)

(** A database that refuses the records of one company. *)
Definition picky (refused : str) (db : nat) (a : JobApplication)
  : nat * bool :=
  match company a with
  | JString n => if str_eqb n refused then (db, false) else (S db, true)
  | JInherited _ => (db, false)
  end.

Definition first_mail : ParsedEmail :=
  mkEmail (js "a1") (js "t1") (js "Initech <jobs@initech.com>")
          (js "Application received") (js "2024-03-01T10:00:00.000Z")
          (js "Thank you for applying.") None.

Definition second_mail : ParsedEmail :=
  mkEmail (js "a2") (js "t2") (js "Acme <jobs@acme.com>")
          (js "Application received") (js "2024-03-02T09:00:00.000Z")
          (js "Thank you for applying.") None.

Definition newsletter : ParsedEmail :=
  mkEmail (js "a3") (js "t3") (js "News <news@example.com>")
          (js "Weekly digest") (js "2024-03-03T09:00:00.000Z")
          (js "Ten tips for your garden.") None.

Definition sample_batch : list ParsedEmail :=
  [first_mail; second_mail; newsletter].

End Scheduler.

(* ================================================================= *)
(** ** The older copy of the service: field extraction

    The second half of parser.service.ts holds an older version of the
    service.  Its classifier is [ParserOld.classifyEmail]; this is the
    rest of it.  Where it reads a first capture without a test, the
    branch for an undefined capture falls through as in [Parser]; the
    branch is never taken ([old_patterns_capture] below). *)

Module ParserOldFields.
Import Regex RegexApi JsDate.
Import Parser(chr, amount, range_sep, k_opt, host_label, url_tail,
              title_class, first_match).

Definition STATUS_MAP (c : EmailCategory) : JobStatus :=
  match c with
  | application_confirmation => Applied
  | rejection => Rejected
  | interview_invitation => Interview
  | offer => Offer
  | follow_up => Applied
  | unknown => Applied
  end.

(** *** Company *)

Definition SENDER_NAME : RegExp :=
  re_plain (seq [Bol; opt (Chr dquote);
                 Group 1 (plus (Cls true [CChr dquote; CChr 60]));
                 opt (Chr dquote); star ws; chr "<"]).

(** /^(no[- ]?reply|recruiting|careers|talent|hr|jobs)/i *)
Definition GENERIC_NAME : RegExp :=
  re_i (seq [Bol; Group 1 (alt
    [ seq [lit "no"; opt (Cls false (chars "- ")); lit "reply"];
      lit "recruiting"; lit "careers"; lit "talent"; lit "hr";
      lit "jobs" ])]).

(** /\s*(recruiting|careers|talent|team|hr|jobs|hiring)$/i *)
Definition NAME_SUFFIX : RegExp :=
  re_i (seq [star ws; Group 1 (alt
    [ lit "recruiting"; lit "careers"; lit "talent"; lit "team"; lit "hr";
      lit "jobs"; lit "hiring" ]);
    Eol]).

Definition DOMAIN : RegExp :=
  re_plain (seq [chr "@"; Group 1 (plus (Cls true (chars ".>"))); chr "."]).

Definition generic_providers : list str :=
  [ js "gmail"; js "yahoo"; js "hotmail"; js "outlook"; js "mail" ].

(** /(?:at|from|with)\s+([A-Z][A-Za-z0-9\s&]+?)(?:\s*[-\u2013|]|\s*$)/ *)
Definition SUBJECT_COMPANY : RegExp :=
  re_plain (seq [alt [lit "at"; lit "from"; lit "with"]; plus ws;
                 Group 1 (seq [Cls false [range "A" "Z"];
                               plus_lazy
                                 (Cls false [range "A" "Z"; range "a" "z";
                                             range "0" "9"; CSpace;
                                             CChr 38])]);
                 alt [seq [star ws;
                           Cls false [CChr 45; CChr endash; CChr 124]];
                      seq [star ws; Eol]]]).

Definition unknown_company : str := js "Unknown Company".

(** The last two strategies of [extractCompany]. *)
Definition company_from_subject (email : ParsedEmail) : str :=
  match exec SUBJECT_COMPANY (subject email) with
  | Some subjectCompany =>
      match group 1 subjectCompany with
      | Some g => trim g
      | None => unknown_company
      end
  | None => unknown_company
  end.

Definition company_from_domain (email : ParsedEmail) : str :=
  match exec DOMAIN (from email) with
  | Some domainMatch =>
      match group 1 domainMatch with
      | Some domain =>
          if negb (arr_includes (toLowerCase domain) generic_providers)
          then toUpperCase (charAt0 domain) ++ sliceFrom 1 domain
          else company_from_subject email
      | None => company_from_subject email
      end
  | None => company_from_subject email
  end.

Definition extractCompany (email : ParsedEmail) : str :=
  match exec SENDER_NAME (from email) with
  | Some fromMatch =>
      match group 1 fromMatch with
      | Some g =>
          let name := trim g in
          if negb (test GENERIC_NAME name)
          then trim (replace NAME_SUFFIX [] name)
          else company_from_domain email
      | None => company_from_domain email
      end
  | None => company_from_domain email
  end.

(** *** Position *)

Definition title_group : regex := Group 1 (plus_lazy title_class).

Definition position_patterns : list RegExp :=
  [ (* /(?:position|role|job)\s*(?:of|:)\s*([A-Za-z0-9\s/,.-]+?)
        (?:\s*(?:at|with|in)\s|[.\n])/i *)
    re_i (seq [alt [lit "position"; lit "role"; lit "job"]; star ws;
               alt [lit "of"; lit ":"]; star ws; title_group;
               alt [seq [star ws; alt [lit "at"; lit "with"; lit "in"]; ws];
                    Cls false [CChr 46; CChr newline]]]);
    (* /applied\s+(?:for|to)\s+(?:the\s+)?([A-Za-z0-9\s/,.-]+?)
        (?:\s+(?:position|role|at|with))/i *)
    re_i (seq [lit "applied"; plus ws; alt [lit "for"; lit "to"]; plus ws;
               opt (seq [lit "the"; plus ws]); title_group;
               seq [plus ws;
                    alt [lit "position"; lit "role"; lit "at"; lit "with"]]]);
    (* /(?:for the\s+)([A-Za-z0-9\s/,.-]+?)\s+(?:position|role|opening)/i *)
    re_i (seq [seq [lit "for the"; plus ws]; title_group; plus ws;
               alt [lit "position"; lit "role"; lit "opening"]]);
    (* /(?:application|applied).*?(?:for|to)\s+([A-Za-z0-9\s/,.-]+?)
        (?:\.|,|\n)/i *)
    re_i (seq [alt [lit "application"; lit "applied"]; star_lazy Dot;
               alt [lit "for"; lit "to"]; plus ws; title_group;
               alt [chr "."; chr ","; Chr newline]]);
    (* an optional [re:] and white space, an optional [your] and white
       space, [application], a dash or a colon, and the title run *)
    re_i (seq [opt (seq [lit "re:"; star ws]);
               opt (seq [lit "your"; plus ws]); lit "application"; star ws;
               Cls false [CChr 45; CChr endash; CChr 58]; star ws;
               Group 1 (plus title_class)]) ].

(** [position.length > 3 && position.length < 100]. *)
Definition position_ok (position : str) : bool :=
  (3 <? List.length position)%nat && (List.length position <? 100)%nat.

(** The loop over the patterns; [None] when it runs to its end. *)
Fixpoint first_position (ps : list RegExp) (text : str) : option str :=
  match ps with
  | [] => None
  | p :: rest =>
      match exec p text with
      | Some m =>
          match group 1 m with
          | Some g =>
              let position := trim g in
              if position_ok position then Some position
              else first_position rest text
          | None => first_position rest text
          end
      | None => first_position rest text
      end
  end.

(** /^(re:|fwd?:|application|confirmation|thank you|update)\s*/gi *)
Definition SUBJECT_PREFIX : RegExp :=
  re_gi (seq [Bol;
              Group 1 (alt [lit "re:"; seq [lit "fw"; opt (chr "d"); lit ":"];
                            lit "application"; lit "confirmation";
                            lit "thank you"; lit "update"]);
              star ws]).

(** /\s*[-\u2013|]\s*.+$/ *)
Definition TRAILING_PART : RegExp :=
  re_plain (seq [star ws; Cls false [CChr 45; CChr endash; CChr 124];
                 star ws; plus Dot; Eol]).

Definition unknown_position : str := js "Unknown Position".

Definition extractPosition (email : ParsedEmail) : str :=
  let text := subject email ++ js " " ++ slice0 1000 (body email) in
  match first_position position_patterns text with
  | Some position => position
  | None =>
      let cleanSubject :=
        trim (replace TRAILING_PART []
               (replace SUBJECT_PREFIX [] (subject email))) in
      if truthy cleanSubject then cleanSubject else unknown_position
  end.

(** *** Salary, location, job link *)

Definition salary_patterns : list RegExp :=
  [ re_i (seq [amount; star ws; range_sep; star ws; amount; star ws;
               opt (seq [lit "per"; plus ws;
                         alt [lit "year"; lit "annum"; lit "hr";
                              lit "hour"]])]);
    re_i (seq [amount; star ws; k_opt; star ws; range_sep; star ws; amount;
               star ws; k_opt]);
    re_i (seq [lit "salary"; star ws; opt (lit "range"); opt (chr ":");
               star ws; amount]);
    re_i (seq [lit "compensation"; opt (chr ":"); star ws; amount]) ].

Definition extractSalary (text : str) : option str :=
  option_map (fun m => trim (m0 m)) (first_match salary_patterns text).

Definition location_patterns : list RegExp :=
  [ re_i (seq [alt [lit "location"; lit "based in"; lit "located in";
                    lit "office in"];
               opt (chr ":"); star ws;
               Group 1 (seq
                 [plus (Cls false [range "A" "Z"; range "a" "z"; CSpace;
                                   CChr 44]);
                  opt (seq [chr ","; star ws;
                            times 2 (Cls false [range "A" "Z"])])]);
               alt [chr "."; chr ","; Chr newline]]);
    re_i (alt [lit "remote"; lit "hybrid";
               seq [lit "on"; opt (chr "-"); lit "site"]]) ].

Definition extractLocation (text : str) : option str :=
  option_map
    (fun m => trim (if opt_truthy (group 1 m)
                    then match group 1 m with Some g => g | None => m0 m end
                    else m0 m))
    (first_match location_patterns text).

Definition urlPattern : RegExp :=
  re_gi (seq [lit "http"; opt (chr "s"); lit "://";
              plus (seq [host_label; chr "."]); host_label;
              opt (seq [chr "/"; url_tail]);
              alt [lit "job"; lit "career"; lit "position"; lit "apply";
                   lit "opening"];
              opt (seq [chr "/"; url_tail])]).

Definition atsPattern : RegExp :=
  re_gi (seq [lit "http"; opt (chr "s"); lit "://";
              opt (seq [host_label; chr "."]);
              alt [lit "greenhouse"; lit "lever"; lit "workday"; lit "icims";
                   lit "smartrecruiters"; lit "ashbyhq"; lit "jobvite";
                   lit "bamboohr"];
              url_tail]).

Definition extractJobLink (text : str) : option str :=
  match match_global urlPattern text with
  | Some m => Some (first_piece m)
  | None =>
      match match_global atsPattern text with
      | Some atsMatch => Some (first_piece atsMatch)
      | None => None
      end
  end.

(** *** Follow-up date and the record *)

Section Host.

Variable LocalTZA : Z -> bool -> Z.

Definition generateFollowUpDate (fromDate : str) (daysFromNow : Z)
  : result str :=
  let date := Date_parse fromDate in
  let date :=
    setDate LocalTZA date
      (option_map (fun d => (d + daysFromNow)%Z) (getDate LocalTZA date)) in
  let* iso := toISOString date in
  Ok (first_piece (splitChar 84 iso)).

Definition parseJobApplication (email : ParsedEmail)
           (category : EmailCategory) : result JobApplication :=
  let company := extractCompany email in
  let position := extractPosition email in
  let salaryRange := extractSalary (body email) in
  let location := extractLocation (body email) in
  let jobLink :=
    extractJobLink (if opt_truthy (htmlBody email)
                    then match htmlBody email with
                         | Some h => h
                         | None => body email
                         end
                    else body email) in
  let* followUpDate :=
    match category with
    | application_confirmation =>
        let* d := generateFollowUpDate (date email) 7 in Ok (Some d)
    | interview_invitation =>
        let* d := generateFollowUpDate (date email) 1 in Ok (Some d)
    | _ => Ok None
    end in
  let* iso := toISOString (Date_parse (date email)) in
  Ok {| company := JString company;
        position := position;
        dateApplied := first_piece (splitChar 84 iso);
        status := STATUS_MAP category;
        salaryRange := or_undefined salaryRange;
        location := or_undefined location;
        jobLink := or_undefined jobLink;
        emailThreadLink :=
          Some (js "https://mail.google.com/mail/u/0/#inbox/"
                ++ threadId email);
        followUpDate := followUpDate;
        notes :=
          Some (js "Auto-tracked from email: "
                ++ replace (re_g (chr "_")) (js " ")
                     (category_name category));
        sourceEmail := subject email |}.

End Host.

(** The patterns of the older copy whose first capture is read without
    a test. *)
Definition captured_patterns : list RegExp :=
  [SENDER_NAME; DOMAIN; SUBJECT_COMPANY] ++ position_patterns.

End ParserOldFields.

(* ================================================================= *)
(** ** The order of printed dates *)

(** The scheduler compares [email.date] with the saved time stamp as
    strings; both are printed by [toISOString].  The definitions below
    name the instants whose year is printed with four digits, and the
    order of calendar dates used to relate the two orders. *)
Module Calendar.
Import JsDate.
Local Open Scope Z_scope.

(** 0000-01-01T00:00:00.000Z and +010000-01-01T00:00:00.000Z. *)
Definition year_0 : Z := -62167219200000.
Definition year_10000 : Z := 253402300800000.

(** Days from 1 March 0000 to 1 March of year [y]. *)
Definition days_before (y : Z) : Z := 365 * y + y / 4 - y / 100 + y / 400.

Definition date_lt (a b : Z * Z * Z) : Prop :=
  let '(y1, m1, d1) := a in
  let '(y2, m2, d2) := b in
  y1 < y2 \/ (y1 = y2 /\ (m1 < m2 \/ (m1 = m2 /\ d1 < d2))).

End Calendar.

(* ================================================================= *)
(** * Properties *)

Import Regex RegexApi JsDate Parser Props.

(** ** Strings *)

Lemma str_eqb_eq a b : str_eqb a b = true <-> a = b.
Proof.
  unfold str_eqb. destruct (list_eq_dec N.eq_dec a b); split;
    intros; congruence.
Qed.

Lemma truthy_nonempty s : truthy s = true <-> s <> [].
Proof.
  destruct s; simpl; split; intros; try congruence; try discriminate.
Qed.

Lemma startsWith_spec p s :
  startsWith p s = true <-> exists post, s = p ++ post.
Proof.
  revert s. induction p as [|a p IH]; intros s; simpl.
  - split; [intros _; now exists s | reflexivity].
  - destruct s as [|b s].
    + split; [discriminate | intros [post H]; discriminate].
    + rewrite andb_true_iff, N.eqb_eq, IH. split.
      * intros [-> [post ->]]. now exists post.
      * intros [post H]. injection H as -> ->. split; [reflexivity|now exists post].
Qed.

(** [includes] is the substring test. *)
Lemma includes_spec d s :
  includes d s = true <-> exists pre post, s = pre ++ d ++ post.
Proof.
  induction s as [|c s IH]; simpl.
  - rewrite orb_false_r, startsWith_spec. split.
    + intros [post H]. now exists [], post.
    + intros [pre [post H]]. destruct pre; simpl in H.
      * now exists post.
      * discriminate.
  - rewrite orb_true_iff, startsWith_spec, IH. split.
    + intros [[post H] | [pre [post H]]].
      * now exists [], post.
      * exists (c :: pre), post. simpl. now f_equal.
    + intros [pre [post H]]. destruct pre as [|c' pre]; simpl in H.
      * left. now exists post.
      * right. injection H as _ H. now exists pre, post.
Qed.

Lemma toLowerCase_app a b :
  toLowerCase (a ++ b) = toLowerCase a ++ toLowerCase b.
Proof. apply map_app. Qed.

(** The piece before the first separator. *)
Lemma splitChar_first sep a b :
  ~ In sep a -> first_piece (splitChar sep (a ++ sep :: b)) = a.
Proof.
  induction a as [|c a IH]; simpl; intros H.
  - now rewrite N.eqb_refl.
  - destruct (N.eqb_spec c sep) as [->|Hne].
    + exfalso. apply H. now left.
    + assert (Ha : ~ In sep a) by (intros Hin; apply H; now right).
      specialize (IH Ha).
      destruct (splitChar sep (a ++ sep :: b)); simpl in *; congruence.
Qed.

(** ** Dates *)

Section DateFacts.
Local Open Scope Z_scope.

Lemma days_from_civil_linear y m d :
  days_from_civil y m d = days_from_civil y m 1 + d - 1.
Proof. unfold days_from_civil. cbv zeta. lia. Qed.

(** The two calendar conversions are inverse on every day number. *)
Lemma civil_roundtrip z :
  let '(y, m, d) := civil_from_days z in days_from_civil y m d = z.
Proof.
  unfold civil_from_days, days_from_civil. cbv zeta.
  remember (z + 719468) as z' eqn:Hz'.
  remember (z' / 146097) as era eqn:Hera.
  remember (z' - era * 146097) as doe eqn:Hdoe'.
  assert (Hdoe : 0 <= doe < 146097)
    by (subst doe era; Z.div_mod_to_equations; lia).
  remember ((doe - doe / 1460 + doe / 36524 - doe / 146096) / 365)
    as yoe eqn:Hyoe'.
  assert (Hyoe : 0 <= yoe < 400)
    by (subst yoe; Z.div_mod_to_equations; lia).
  remember (doe - (365 * yoe + yoe / 4 - yoe / 100)) as doy eqn:Hdoy'.
  assert (Hdoy : 0 <= doy < 366)
    by (subst doy yoe; Z.div_mod_to_equations; lia).
  remember ((5 * doy + 2) / 153) as mp eqn:Hmp'.
  assert (Hmp : 0 <= mp < 12)
    by (subst mp; Z.div_mod_to_equations; lia).
  assert (Hq : (yoe + era * 400) / 400 = era)
    by (clear - Hyoe; Z.div_mod_to_equations; lia).
  destruct (mp <? 10) eqn:E; [apply Z.ltb_lt in E | apply Z.ltb_ge in E].
  - assert (H1 : (mp + 3 <=? 2) = false) by lia.
    assert (H2 : (2 <? mp + 3) = true) by lia.
    rewrite H1, H2.
    replace (mp + 3 - 3) with mp by lia.
    rewrite Hq. replace (yoe + era * 400 - era * 400) with yoe by lia. lia.
  - assert (H1 : (mp - 9 <=? 2) = true) by lia.
    assert (H2 : (2 <? mp - 9) = false) by lia.
    rewrite H1, H2.
    replace (mp - 9 + 9) with mp by lia.
    replace (yoe + era * 400 + 1 - 1) with (yoe + era * 400) by lia.
    rewrite Hq. replace (yoe + era * 400 - era * 400) with yoe by lia. lia.
Qed.

Lemma TimeClip_some t : Z.abs t <= maxTime -> TimeClip t = Some t.
Proof.
  intros Hle. unfold TimeClip.
  destruct (Z.leb_spec (Z.abs t) maxTime); [reflexivity | lia].
Qed.

Lemma TimeClip_inv t u : TimeClip t = Some u -> u = t /\ Z.abs t <= maxTime.
Proof.
  unfold TimeClip. destruct (Z.leb_spec (Z.abs t) maxTime); intros Hc.
  - injection Hc as <-. now split.
  - discriminate.
Qed.

(** [date.setDate(date.getDate() + n)] moves the local time by [n]
    whole days. *)
Lemma setDate_getDate tz t n :
  setDate tz (Some t)
    (option_map (fun d => d + n) (getDate tz (Some t)))
  = TimeClip (UTC tz (LocalTime tz t + n * msPerDay)).
Proof.
  unfold setDate, getDate, option_map.
  pose proof (civil_roundtrip (Day (LocalTime tz t))) as R.
  destruct (civil_from_days (Day (LocalTime tz t))) as [[y m] d].
  cbn [snd]. do 2 f_equal. unfold MakeDate, MakeDay, TimeWithinDay.
  rewrite days_from_civil_linear in R.
  replace (days_from_civil y m 1 + (d + n) - 1)
    with (Day (LocalTime tz t) + n) by lia.
  unfold Day.
  pose proof (Z.div_mod (LocalTime tz t) msPerDay) as DM.
  assert (Hne : msPerDay <> 0) by (unfold msPerDay; lia).
  specialize (DM Hne). lia.
Qed.

Lemma Day_add t n : Day (t + n * msPerDay) = Day t + n.
Proof. unfold Day. apply Z.div_add. unfold msPerDay. lia. Qed.

(** The printed digits are digits. *)
Lemma pad_digits n v c : In c (pad n v) -> (48 <= c <= 57)%N.
Proof.
  revert v. induction n as [|n IH]; simpl; intros v H.
  - contradiction.
  - apply in_app_or in H. destruct H as [H | [<- | []]].
    + eapply IH; eauto.
    + unfold digit_char.
      assert (0 <= v mod 10 < 10) by (apply Z.mod_pos_bound; lia).
      lia.
Qed.

Lemma year_string_no_T y : ~ In 84%N (year_string y).
Proof.
  unfold year_string. intros H.
  destruct ((0 <=? y) && (y <=? 9999)).
  - apply pad_digits in H. lia.
  - destruct H as [H | H].
    + destruct (y <? 0); discriminate.
    + apply pad_digits in H. lia.
Qed.

Lemma date_string_no_T day : ~ In 84%N (date_string day).
Proof.
  unfold date_string. destruct (civil_from_days day) as [[y m] d].
  intros H.
  apply in_app_or in H. destruct H as [H | H].
  { now apply year_string_no_T in H. }
  apply in_app_or in H. destruct H as [[H | []] | H]; [discriminate|].
  apply in_app_or in H. destruct H as [H | H].
  { apply pad_digits in H. lia. }
  apply in_app_or in H. destruct H as [[H | []] | H]; [discriminate|].
  apply pad_digits in H. lia.
Qed.

Lemma date_string_nonempty day : date_string day <> [].
Proof.
  unfold date_string. destruct (civil_from_days day) as [[y m] d].
  intros H. apply app_eq_nil in H. destruct H as [_ H]. discriminate.
Qed.

(** The date part of the ISO form. *)
Lemma iso_date_part t :
  bind (toISOString (Some t)) (fun iso => Ok (first_piece (splitChar 84 iso)))
  = Ok (date_string (Day t)).
Proof.
  simpl. f_equal. apply splitChar_first. apply date_string_no_T.
Qed.

Lemma Date_parse_range s t : Date_parse s = Some t -> Z.abs t <= maxTime.
Proof.
  unfold Date_parse, obind.
  destruct (parse_date s) as [[day rest]|]; [|discriminate].
  destruct rest.
  - intros H. apply TimeClip_inv in H. destruct H as [-> H]. exact H.
  - destruct (parse_time (n :: rest)); [|discriminate].
    intros H. apply TimeClip_inv in H. destruct H as [-> H]. exact H.
Qed.

End DateFacts.

(** ** The matcher *)

Section MatcherFacts.

Variables (ic ml : bool).

Lemma step_if_inv ok x k z :
  step_if ok x k = Some z -> exists y, one_step x y /\ k y = Some z.
Proof.
  unfold step_if, advance, one_step.
  destruct (ahead x) as [|c tl]; [discriminate|].
  destruct (ok c); [|discriminate].
  intros H. eexists. split; [|exact H]. now exists c, tl.
Qed.

Lemma sat_chr c : sat ic ml (Chr c) one_step.
Proof. intros x k z. apply step_if_inv. Qed.

Lemma sat_cls neg items : sat ic ml (Cls neg items) one_step.
Proof. intros x k z. apply step_if_inv. Qed.

Lemma sat_empty : sat ic ml Empty (fun x y => y = x).
Proof. intros x k z H. now exists x. Qed.

Lemma sat_seq a b P Q :
  sat ic ml a P -> sat ic ml b Q ->
  sat ic ml (Seq a b) (fun x z => exists y, P x y /\ Q y z).
Proof.
  intros Ha Hb x k z H. simpl in H.
  apply Ha in H. destruct H as [y [Hp H]].
  apply Hb in H. destruct H as [y' [Hq H]].
  exists y'. split; [now exists y | exact H].
Qed.

Lemma sat_group n r P :
  sat ic ml r P ->
  sat ic ml (Group n r)
      (fun x y' => exists y, P x y /\ y' = set_cap n (between x y) y).
Proof.
  intros Hr x k z H. simpl in H.
  apply Hr in H. destruct H as [y [Hp H]].
  eexists. split; [exists y; split; [exact Hp | reflexivity] | exact H].
Qed.

Lemma rep_loop_inv m1 P k greedy :
  (forall x k' z, m1 x k' = Some z -> exists y, P x y /\ k' y = Some z) ->
  forall fuel min x z,
    rep_loop m1 k greedy fuel min None x = Some z ->
    exists y, reps P min x y /\ k y = Some z.
Proof.
  intros Hm. induction fuel as [|fuel IH]; intros min x z H.
  - discriminate.
  - simpl in H.
    assert (Hd : forall z',
      m1 x (fun y =>
        if Nat.eqb min 0
           && Nat.eqb (List.length (ahead y)) (List.length (ahead x))
        then None
        else rep_loop m1 k greedy fuel (Nat.pred min) None y) = Some z' ->
      exists y, reps P min x y /\ k y = Some z').
    { intros z' H'. apply Hm in H'. destruct H' as [y [Hp H']].
      destruct (Nat.eqb min 0
                && Nat.eqb (List.length (ahead y)) (List.length (ahead x)));
        [discriminate|].
      apply IH in H'. destruct H' as [y' [Hr H']].
      exists y'. split; [|exact H']. eapply reps_cons; eauto. }
    destruct (Nat.eqb_spec min 0) as [->|Hmin]; cbn [negb] in H.
    + destruct greedy; unfold or_else in H.
      * match type of H with
        | match ?e with _ => _ end = _ => destruct e eqn:E
        end.
        -- injection H as ->. now apply Hd.
        -- exists x. split; [constructor | exact H].
      * destruct (k x) eqn:E.
        -- injection H as ->. exists x. split; [constructor | exact E].
        -- now apply Hd.
    + now apply Hd.
Qed.

Lemma sat_rep min greedy r P :
  sat ic ml r P -> sat ic ml (Rep min None greedy r) (reps P min).
Proof.
  intros Hr x k z H. simpl in H. eapply rep_loop_inv; eauto.
Qed.

Lemma sat_weaken r (P Q : MState -> MState -> Prop) :
  sat ic ml r P -> (forall x y, P x y -> Q x y) -> sat ic ml r Q.
Proof.
  intros Hr HPQ x k z H. apply Hr in H. destruct H as [y [Hp H]].
  exists y. split; [now apply HPQ | exact H].
Qed.

Lemma rep_loop_closed m1 (P : MState -> MState -> Prop) k greedy :
  (forall x, P x x) ->
  (forall x y z, P x y -> P y z -> P x z) ->
  (forall x k' z, m1 x k' = Some z -> exists y, P x y /\ k' y = Some z) ->
  forall fuel min max x z,
    rep_loop m1 k greedy fuel min max x = Some z ->
    exists y, P x y /\ k y = Some z.
Proof.
  intros Hrefl Htrans Hm. induction fuel as [|fuel IH]; intros min max x z H.
  - discriminate.
  - simpl in H.
    destruct (max_is_zero max); [exists x; split; [apply Hrefl | exact H]|].
    assert (Hd : forall z',
      m1 x (fun y =>
        if Nat.eqb min 0
           && Nat.eqb (List.length (ahead y)) (List.length (ahead x))
        then None
        else rep_loop m1 k greedy fuel (Nat.pred min) (dec_max max) y)
      = Some z' ->
      exists y, P x y /\ k y = Some z').
    { intros z' H'. apply Hm in H'. destruct H' as [y [Hp H']].
      destruct (Nat.eqb min 0
                && Nat.eqb (List.length (ahead y)) (List.length (ahead x)));
        [discriminate|].
      apply IH in H'. destruct H' as [y' [Hr H']].
      exists y'. split; [eapply Htrans; eauto | exact H']. }
    destruct (Nat.eqb min 0); cbn [negb] in H; [|now apply Hd].
    destruct greedy; unfold or_else in H.
    + match type of H with
      | match ?e with _ => _ end = _ => destruct e eqn:E
      end.
      * injection H as ->. now apply Hd.
      * exists x. split; [apply Hrefl | exact H].
    + destruct (k x) eqn:E.
      * injection H as ->. exists x. split; [apply Hrefl | exact E].
      * now apply Hd.
Qed.

(** *** The fuel of the quantifier is never exhausted *)

Lemma shorter_refl x : shorter x x.
Proof. unfold shorter. lia. Qed.

Lemma shorter_trans x y z : shorter x y -> shorter y z -> shorter x z.
Proof. unfold shorter. lia. Qed.

Lemma one_step_shorter x y :
  one_step x y -> List.length (ahead x) = S (List.length (ahead y)).
Proof. intros [c [tl [Hx ->]]]. now rewrite Hx. Qed.

Lemma step_if_ext ok x k k' :
  agree_from x k k' -> step_if ok x k = step_if ok x k'.
Proof.
  intros Hk. unfold step_if, advance.
  destruct (ahead x) as [|c tl] eqn:E; [reflexivity|].
  destruct (ok c); [|reflexivity].
  apply Hk. unfold shorter. rewrite E. simpl. lia.
Qed.

Lemma rep_loop_ext m1 greedy :
  (forall x k k', agree_from x k k' -> m1 x k = m1 x k') ->
  forall fuel min max x k k',
    agree_from x k k' ->
    rep_loop m1 k greedy fuel min max x
    = rep_loop m1 k' greedy fuel min max x.
Proof.
  intros Hm. induction fuel as [|fuel IH]; intros min max x k k' Hk;
    [reflexivity|].
  simpl. rewrite (Hk x (shorter_refl x)).
  assert (Hd : m1 x (fun y =>
      if Nat.eqb min 0
         && Nat.eqb (List.length (ahead y)) (List.length (ahead x))
      then None
      else rep_loop m1 k greedy fuel (Nat.pred min) (dec_max max) y)
    = m1 x (fun y =>
      if Nat.eqb min 0
         && Nat.eqb (List.length (ahead y)) (List.length (ahead x))
      then None
      else rep_loop m1 k' greedy fuel (Nat.pred min) (dec_max max) y)).
  { apply Hm. intros y Hy.
    destruct (Nat.eqb min 0
              && Nat.eqb (List.length (ahead y)) (List.length (ahead x)));
      [reflexivity|].
    apply IH. intros y' Hy'. apply Hk. eapply shorter_trans; eauto. }
  now rewrite Hd.
Qed.

(** The result of a match depends on the continuation only through the
    states further along the input. *)
Lemma run_ext r : forall x k k',
  agree_from x k k' -> run ic ml r x k = run ic ml r x k'.
Proof.
  induction r as [| c | | neg items | | | | a IHa b IHb | a IHa b IHb
                 | min max greedy r IH | n r IH]; intros x k k' Hk; simpl;
    try (apply step_if_ext; assumption);
    try (rewrite (Hk x (shorter_refl x)); reflexivity).
  - apply IHa. intros y Hy. apply IHb.
    intros y' Hy'. apply Hk. eapply shorter_trans; eauto.
  - now rewrite (IHa x k k' Hk), (IHb x k k' Hk).
  - apply rep_loop_ext; assumption.
  - apply IH. intros y Hy. apply Hk. exact Hy.
Qed.

(** Any fuel from [min + |ahead x| + 1] on gives the same result: the
    matcher never stops for want of fuel. *)
Lemma rep_loop_fuel m1 k greedy :
  (forall x k k', agree_from x k k' -> m1 x k = m1 x k') ->
  forall fuel1 fuel2 min max x,
    (min + List.length (ahead x) + 1 <= fuel1)%nat ->
    (min + List.length (ahead x) + 1 <= fuel2)%nat ->
    rep_loop m1 k greedy fuel1 min max x
    = rep_loop m1 k greedy fuel2 min max x.
Proof.
  intros Hm. induction fuel1 as [|fuel1 IH]; intros fuel2 min max x H1 H2;
    [lia|].
  destruct fuel2 as [|fuel2]; [lia|]. simpl.
  assert (Hd : m1 x (fun y =>
      if Nat.eqb min 0
         && Nat.eqb (List.length (ahead y)) (List.length (ahead x))
      then None
      else rep_loop m1 k greedy fuel1 (Nat.pred min) (dec_max max) y)
    = m1 x (fun y =>
      if Nat.eqb min 0
         && Nat.eqb (List.length (ahead y)) (List.length (ahead x))
      then None
      else rep_loop m1 k greedy fuel2 (Nat.pred min) (dec_max max) y)).
  { apply Hm. intros y Hy. unfold shorter in Hy.
    destruct (Nat.eqb_spec min 0) as [->|Hmin]; simpl.
    - destruct (Nat.eqb_spec (List.length (ahead y)) (List.length (ahead x)));
        [reflexivity|].
      apply IH; simpl; lia.
    - apply IH; lia. }
  now rewrite Hd.
Qed.

Lemma run_rep_fuel min max greedy r x k extra :
  run ic ml (Rep min max greedy r) x k
  = rep_loop (run ic ml r) k greedy
             (min + List.length (ahead x) + 1 + extra) min max x.
Proof.
  simpl. apply rep_loop_fuel; [|lia|lia].
  intros x0 k0 k0'. apply run_ext.
Qed.

(** Matching moves along the input, never back. *)
Lemma sat_shorter r : sat ic ml r shorter.
Proof.
  induction r as [| c | | neg items | | | | a IHa b IHb | a IHa b IHb
                 | min max greedy r IH | n r IH]; intros x k z H; simpl in H.
  - exists x. split; [apply shorter_refl | exact H].
  - apply step_if_inv in H. destruct H as [y [Hs H]].
    exists y. split; [|exact H].
    apply one_step_shorter in Hs. unfold shorter. lia.
  - apply step_if_inv in H. destruct H as [y [Hs H]].
    exists y. split; [|exact H].
    apply one_step_shorter in Hs. unfold shorter. lia.
  - apply step_if_inv in H. destruct H as [y [Hs H]].
    exists y. split; [|exact H].
    apply one_step_shorter in Hs. unfold shorter. lia.
  - destruct (at_bol ml x); [|discriminate].
    exists x. split; [apply shorter_refl | exact H].
  - destruct (at_eol ml x); [|discriminate].
    exists x. split; [apply shorter_refl | exact H].
  - destruct (xorb (word_before x) (word_ahead x)); [|discriminate].
    exists x. split; [apply shorter_refl | exact H].
  - apply IHa in H. destruct H as [y [Hy H]].
    apply IHb in H. destruct H as [y' [Hy' H]].
    exists y'. split; [eapply shorter_trans; eauto | exact H].
  - unfold or_else in H. destruct (run ic ml a x k) eqn:E.
    + injection H as ->. now apply IHa.
    + now apply IHb.
  - eapply rep_loop_closed; eauto using shorter_refl, shorter_trans.
  - apply IH in H. destruct H as [y [Hy H]].
    eexists. split; [|exact H]. exact Hy.
Qed.

(** *** Captures *)

Lemma caps_grow_refl x : caps_grow x x.
Proof. now exists []. Qed.

Lemma caps_grow_trans x y z : caps_grow x y -> caps_grow y z -> caps_grow x z.
Proof.
  intros [l1 H1] [l2 H2]. exists (l2 ++ l1). now rewrite H2, H1, app_assoc.
Qed.

Lemma one_step_caps_grow x y : one_step x y -> caps_grow x y.
Proof. intros [c [tl [_ ->]]]. now exists []. Qed.

(** Matching only adds captures. *)
Lemma sat_caps_grow r : sat ic ml r caps_grow.
Proof.
  induction r as [| c | | neg items | | | | a IHa b IHb | a IHa b IHb
                 | min max greedy r IH | n r IH]; intros x k z H; simpl in H.
  - exists x. split; [apply caps_grow_refl | exact H].
  - apply step_if_inv in H. destruct H as [y [Hs H]].
    exists y. split; [now apply one_step_caps_grow | exact H].
  - apply step_if_inv in H. destruct H as [y [Hs H]].
    exists y. split; [now apply one_step_caps_grow | exact H].
  - apply step_if_inv in H. destruct H as [y [Hs H]].
    exists y. split; [now apply one_step_caps_grow | exact H].
  - destruct (at_bol ml x); [|discriminate].
    exists x. split; [apply caps_grow_refl | exact H].
  - destruct (at_eol ml x); [|discriminate].
    exists x. split; [apply caps_grow_refl | exact H].
  - destruct (xorb (word_before x) (word_ahead x)); [|discriminate].
    exists x. split; [apply caps_grow_refl | exact H].
  - apply IHa in H. destruct H as [y [Hy H]].
    apply IHb in H. destruct H as [y' [Hy' H]].
    exists y'. split; [eapply caps_grow_trans; eauto | exact H].
  - unfold or_else in H. destruct (run ic ml a x k) eqn:E.
    + injection H as ->. now apply IHa.
    + now apply IHb.
  - eapply rep_loop_closed; eauto using caps_grow_refl, caps_grow_trans.
  - apply IH in H. destruct H as [y [[l Hl] H]].
    eexists. split; [|exact H].
    exists ((n, between x y) :: l). simpl. now rewrite Hl.
Qed.

Lemma has_cap_grow n x y : caps_grow x y -> has_cap n x -> has_cap n y.
Proof.
  intros [l Hl] Hx. unfold has_cap in *. rewrite Hl. clear Hl.
  induction l as [|[k s] l IH]; simpl; [exact Hx|].
  destruct (Nat.eqb k n); [discriminate | exact IH].
Qed.

(** A pattern that passes through group [n] on every way hands over a
    state in which group [n] is set. *)
Lemma sets_group_sound n r :
  sets_group n r = true -> sat ic ml r (fun _ y => has_cap n y).
Proof.
  induction r as [| c | | neg items | | | | a IHa b IHb | a IHa b IHb
                 | min max greedy r IH | k0 r IH];
    simpl; intros Hs; try discriminate; intros x k z H; simpl in H.
  - apply orb_true_iff in Hs. destruct Hs as [Hs | Hs].
    + apply (IHa Hs) in H. destruct H as [y [Hy H]].
      apply sat_caps_grow in H. destruct H as [y' [Hg H]].
      exists y'. split; [eapply has_cap_grow; eauto | exact H].
    + apply sat_caps_grow in H. destruct H as [y [_ H]].
      exact (IHb Hs y k z H).
  - apply andb_true_iff in Hs. destruct Hs as [Ha Hb].
    unfold or_else in H. destruct (run ic ml a x k) eqn:E.
    + injection H as ->. exact (IHa Ha x k z E).
    + exact (IHb Hb x k z H).
  - apply andb_true_iff in Hs. destruct Hs as [Hs Hr].
    apply andb_true_iff in Hs. destruct Hs as [Hmin Hmax].
    rewrite Nat.add_1_r in H. simpl in H.
    destruct (max_is_zero max); [discriminate Hmax|].
    destruct (Nat.eqb min 0); [discriminate Hmin|]. cbn [negb andb] in H.
    apply (IH Hr) in H. destruct H as [y [Hy H]].
    apply rep_loop_closed with (P := caps_grow) in H;
      [| apply caps_grow_refl | apply caps_grow_trans | apply sat_caps_grow].
    destruct H as [y' [Hg H]].
    exists y'. split; [eapply has_cap_grow; eauto | exact H].
  - destruct (Nat.eqb_spec k0 n) as [->|Hne].
    + apply sat_caps_grow in H. destruct H as [y [_ H]].
      eexists. split; [|exact H].
      unfold has_cap, set_cap. simpl. rewrite Nat.eqb_refl. discriminate.
    + simpl in Hs. apply (IH Hs) in H. destruct H as [y [Hy H]].
      eexists. split; [|exact H].
      unfold has_cap, set_cap in *. simpl.
      destruct (Nat.eqb k0 n); [discriminate | exact Hy].
Qed.

End MatcherFacts.

Lemma reps_one_step min x y :
  reps one_step min x y ->
  caps y = caps x /\ (List.length (ahead y) + min <= List.length (ahead x))%nat.
Proof.
  induction 1 as [x | min x y z Hs Hr [IHc IHl]].
  - split; [reflexivity | lia].
  - destruct Hs as [c [tl [Hx ->]]]. simpl in *.
    rewrite Hx. simpl. split; [exact IHc | lia].
Qed.

Lemma search_sound re ah : forall bef x y,
  search re bef ah = Some (x, y) ->
  caps x = [] /\ run_re re x (fun y => Some y) = Some y.
Proof.
  induction ah as [|c tl IH]; intros bef x y H; simpl in H.
  - destruct (run_re re (mkState bef [] []) (fun y => Some y)) eqn:E;
      [|discriminate].
    injection H as <- <-. now split.
  - destruct (run_re re (mkState bef (c :: tl) []) (fun y => Some y)) eqn:E.
    + injection H as <- <-. now split.
    + eapply IH; eauto.
Qed.

Lemma exec_inv re s m :
  exec re s = Some m ->
  exists x y, caps x = [] /\ run_re re x (fun y => Some y) = Some y
              /\ groups m = caps y.
Proof.
  unfold exec. destruct (search re [] s) as [[x y]|] eqn:E; [|discriminate].
  simpl. intros H. injection H as <-.
  apply search_sound in E. destruct E as [Hc Hr].
  exists x, y. now repeat split.
Qed.

(** The match that [search] finds starts in the text searched and ends
    further along. *)
Lemma search_positions re ah : forall bef x y,
  search re bef ah = Some (x, y) ->
  (List.length (ahead x) <= List.length ah)%nat /\ shorter x y.
Proof.
  assert (Hrun : forall x y,
            run_re re x (fun y => Some y) = Some y -> shorter x y).
  { intros x y H. apply sat_shorter in H.
    destruct H as [y' [Hs Heq]]. now injection Heq as <-. }
  induction ah as [|c tl IH]; intros bef x y H; simpl in H.
  - destruct (run_re re (mkState bef [] []) (fun y => Some y)) eqn:E;
      [|discriminate].
    injection H as <- <-. split; [simpl; lia | now apply Hrun].
  - destruct (run_re re (mkState bef (c :: tl) []) (fun y => Some y)) eqn:E.
    + injection H as <- <-. split; [simpl; lia | now apply Hrun].
    + apply IH in H. destruct H as [Hl Hs]. split; [simpl; lia | exact Hs].
Qed.

Lemma is_empty_match_false x y :
  shorter x y -> is_empty_match x y = false ->
  (List.length (ahead y) < List.length (ahead x))%nat.
Proof.
  unfold shorter, is_empty_match. intros Hs He.
  apply Nat.eqb_neq in He. lia.
Qed.

Lemma is_empty_match_true x y :
  is_empty_match x y = true -> List.length (ahead y) = List.length (ahead x).
Proof. unfold is_empty_match. intros He. apply Nat.eqb_eq in He. lia. Qed.

(** The loops of [replace], [match] and [split] never stop for want of
    fuel either: any fuel above the length of the text gives the same
    result. *)
Lemma replace_all_fuel re repl : forall fuel1 fuel2 bef ah,
  (List.length ah < fuel1)%nat -> (List.length ah < fuel2)%nat ->
  replace_all_from fuel1 re repl bef ah = replace_all_from fuel2 re repl bef ah.
Proof.
  induction fuel1 as [|fuel1 IH]; intros fuel2 bef ah H1 H2; [lia|].
  destruct fuel2 as [|fuel2]; [lia|]. simpl.
  destruct (search re bef ah) as [[x y]|] eqn:E; [|reflexivity].
  apply search_positions in E. destruct E as [Hx Hy].
  do 2 f_equal.
  destruct (is_empty_match x y) eqn:He.
  - apply is_empty_match_true in He.
    destruct (ahead y) as [|c tl] eqn:Ey; [reflexivity|].
    f_equal. simpl in He. apply IH; lia.
  - apply is_empty_match_false in He; [|exact Hy]. apply IH; lia.
Qed.

Lemma match_all_fuel re : forall fuel1 fuel2 bef ah,
  (List.length ah < fuel1)%nat -> (List.length ah < fuel2)%nat ->
  match_all_from fuel1 re bef ah = match_all_from fuel2 re bef ah.
Proof.
  induction fuel1 as [|fuel1 IH]; intros fuel2 bef ah H1 H2; [lia|].
  destruct fuel2 as [|fuel2]; [lia|]. simpl.
  destruct (search re bef ah) as [[x y]|] eqn:E; [|reflexivity].
  apply search_positions in E. destruct E as [Hx Hy].
  f_equal.
  destruct (is_empty_match x y) eqn:He.
  - apply is_empty_match_true in He.
    destruct (ahead y) as [|c tl] eqn:Ey; [reflexivity|].
    simpl in He. apply IH; lia.
  - apply is_empty_match_false in He; [|exact Hy]. apply IH; lia.
Qed.

Lemma split_fuel re : forall fuel1 fuel2 bef ah piece,
  (2 * List.length ah + (if truthy piece then 1 else 0) < fuel1)%nat ->
  (2 * List.length ah + (if truthy piece then 1 else 0) < fuel2)%nat ->
  split_from fuel1 re bef ah piece = split_from fuel2 re bef ah piece.
Proof.
  induction fuel1 as [|fuel1 IH]; intros fuel2 bef ah piece H1 H2; [lia|].
  destruct fuel2 as [|fuel2]; [lia|]. simpl.
  destruct ah as [|c tl]; [reflexivity|]. simpl in H1, H2.
  assert (Hnext : split_from fuel1 re (c :: bef) tl (c :: piece)
                  = split_from fuel2 re (c :: bef) tl (c :: piece)).
  { apply IH; simpl; destruct (truthy piece); lia. }
  destruct (run_re re (mkState bef (c :: tl) []) (fun y => Some y))
    as [y|] eqn:E; [|exact Hnext].
  assert (Hy : shorter (mkState bef (c :: tl) []) y).
  { apply sat_shorter in E. destruct E as [y' [Hs Heq]].
    now injection Heq as <-. }
  destruct (is_empty_match (mkState bef (c :: tl) []) y) eqn:He; simpl.
  - apply is_empty_match_true in He. simpl in He.
    destruct (truthy piece) eqn:T; simpl; [|exact Hnext].
    f_equal. apply IH; simpl; lia.
  - apply is_empty_match_false in He; [|exact Hy]. simpl in He.
    f_equal. apply IH; simpl; destruct (truthy piece); lia.
Qed.

(** A match of a pattern that always passes through group [n] defines
    element [n] of the match array. *)
Lemma exec_defines_group re s m n :
  sets_group n (source re) = true ->
  exec re s = Some m ->
  exists g, group n m = Some g.
Proof.
  intros Hs He. apply exec_inv in He.
  destruct He as [x [y [_ [Hr Hg]]]].
  apply (sets_group_sound _ _ _ _ Hs) in Hr.
  destruct Hr as [y' [Hcap Heq]]. injection Heq as ->.
  unfold group. rewrite Hg. unfold has_cap in Hcap.
  destruct (get_cap n (caps y)) as [g|]; [now exists g | congruence].
Qed.

Lemma captured_patterns_capture p :
  In p captured_patterns -> sets_group 1 (source p) = true.
Proof.
  assert (H : forallb (fun p => sets_group 1 (source p)) captured_patterns
              = true) by reflexivity.
  rewrite forallb_forall in H. apply H.
Qed.

(** The matcher does not reset the captures of a group at each
    iteration of a quantifier around it, as RepeatMatcher does: no
    pattern of the service has a group under a quantifier. *)
Lemma service_patterns_no_group_in_rep :
  forallb (fun p => no_group_in_rep (source p)) service_patterns = true.
Proof. reflexivity. Qed.

(** A match of the domain pattern captures at least one code unit. *)
Lemma domain_capture_nonempty from m g :
  exec DOMAIN from = Some m -> group 1 m = Some g -> g <> [].
Proof.
  intros He Hg. apply exec_inv in He.
  destruct He as [x [y [Hc [Hr Hgr]]]].
  unfold group in Hg. rewrite Hgr in Hg. clear Hgr m.
  assert (Hsat : sat false false (source DOMAIN)
            (fun x y => exists g, g <> [] /\ caps y = (1, g) :: caps x)).
  { unfold DOMAIN, re_plain, source, seq, plus, chr. cbn [fold_right].
    eapply sat_weaken.
    - apply sat_seq; [apply sat_chr|].
      apply sat_seq; [apply sat_group, sat_rep, sat_cls|].
      apply sat_seq; [apply sat_chr | apply sat_empty].
    - intros x0 y0 [y1 [Hs1 [y2' [[y2 [Hreps ->]] [y3 [Hs3 ->]]]]]].
      apply reps_one_step in Hreps. destruct Hreps as [Hcaps Hlen].
      destruct Hs1 as [c1 [tl1 [_ ->]]].
      destruct Hs3 as [c3 [tl3 [_ ->]]]. simpl in *.
      eexists. split; [|rewrite Hcaps; reflexivity].
      unfold between. simpl.
      destruct tl1 as [|a tl1]; simpl in *; [lia|].
      remember (List.length tl1 - List.length (ahead y2))%nat as j eqn:Ej.
      replace (match List.length (ahead y2) with
               | 0 => S (List.length tl1)
               | S l => List.length tl1 - l
               end)%nat with (S j) by (destruct (List.length (ahead y2)); lia).
      simpl. discriminate. }
  apply Hsat in Hr. destruct Hr as [y' [[g' [Hne Hcaps]] Heq]].
  injection Heq as ->. rewrite Hcaps, Hc in Hg. simpl in Hg.
  injection Hg as <-. exact Hne.
Qed.

(** ** Company resolution *)

Lemma valid_company_spec s :
  valid_company (Some s) = true <->
  s <> [] /\ (2 <= List.length s < 80)%nat.
Proof.
  unfold valid_company.
  rewrite !andb_true_iff, truthy_nonempty, Nat.leb_le, Nat.ltb_lt. tauto.
Qed.

(** What the loop over the patterns returns went through
    [cleanCompanyName] and passed the length check. *)
Lemma first_company_valid ps text s :
  first_company ps text = Some s ->
  valid_company (Some s) = true /\ exists raw, cleanCompanyName raw = Some s.
Proof.
  induction ps as [|p ps IH]; simpl; [discriminate|].
  destruct (exec p text) as [m|]; [|exact IH].
  destruct (group 1 m) as [g|].
  - destruct (valid_company (cleanCompanyName g)) eqn:V; [|exact IH].
    intros H. rewrite H in V. split; [exact V | now exists g].
  - simpl. exact IH.
Qed.

Lemma extractCompanyFromSender_valid from s :
  extractCompanyFromSender from = Some s ->
  valid_company (Some s) = true /\ exists raw, cleanCompanyName raw = Some s.
Proof.
  unfold extractCompanyFromSender.
  destruct (exec SENDER_NAME from) as [m|]; [|discriminate].
  destruct (group 1 m) as [g|]; [|discriminate].
  destruct (test GENERIC_SENDER_NAMES (trim g)); [discriminate|].
  destruct (valid_company (cleanCompanyName (trim g))) eqn:V; [|discriminate].
  intros H. rewrite H in V. split; [exact V | now exists (trim g)].
Qed.

Lemma extractCompanyFromDomain_inv from v :
  extractCompanyFromDomain from = Some v ->
  exists label, label <> []
    /\ arr_includes (toLowerCase label) skip_domains = false
    /\ v = titleCase (toLowerCase label).
Proof.
  unfold extractCompanyFromDomain.
  destruct (exec DOMAIN from) as [m|] eqn:E; [|discriminate].
  destruct (group 1 m) as [g|] eqn:G; [|discriminate].
  destruct (arr_includes (toLowerCase g) skip_domains) eqn:S; [discriminate|].
  intros H. injection H as <-.
  exists g. repeat split; auto. eapply domain_capture_nonempty; eauto.
Qed.

Lemma titleCase_truthy d : d <> [] -> val_truthy (Some (titleCase d)) = true.
Proof.
  intros Hd. unfold titleCase.
  assert (Hdefault : val_truthy
            (Some (JString (toUpperCase (charAt0 d) ++ sliceFrom 1 d))) = true).
  { destruct d as [|c tl]; [congruence | reflexivity]. }
  destruct (get_property knownSplits d) as [v|]; [|exact Hdefault].
  destruct (val_truthy (Some v)) eqn:T; [exact T | exact Hdefault].
Qed.

(** No strategy returns the empty string: a candidate is [null] or
    truthy. *)
Lemma body_candidate_truthy body :
  extractCompanyFromBody body = None
  \/ val_truthy (string_val (extractCompanyFromBody body)) = true.
Proof.
  destruct (extractCompanyFromBody body) as [s|] eqn:E; [right | now left].
  apply first_company_valid in E. destruct E as [V _]. simpl.
  apply truthy_nonempty. now apply valid_company_spec in V.
Qed.

Lemma subject_candidate_truthy subject :
  extractCompanyFromSubject subject = None
  \/ val_truthy (string_val (extractCompanyFromSubject subject)) = true.
Proof.
  destruct (extractCompanyFromSubject subject) as [s|] eqn:E;
    [right | now left].
  apply first_company_valid in E. destruct E as [V _]. simpl.
  apply truthy_nonempty. now apply valid_company_spec in V.
Qed.

Lemma sender_candidate_truthy from :
  extractCompanyFromSender from = None
  \/ val_truthy (string_val (extractCompanyFromSender from)) = true.
Proof.
  destruct (extractCompanyFromSender from) as [s|] eqn:E; [right | now left].
  apply extractCompanyFromSender_valid in E. destruct E as [V _]. simpl.
  apply truthy_nonempty. now apply valid_company_spec in V.
Qed.

Lemma domain_candidate_truthy from :
  extractCompanyFromDomain from = None
  \/ val_truthy (extractCompanyFromDomain from) = true.
Proof.
  destruct (extractCompanyFromDomain from) as [v|] eqn:E; [right | now left].
  apply extractCompanyFromDomain_inv in E.
  destruct E as [label [Hne [_ ->]]]. apply titleCase_truthy.
  destruct label; [congruence | discriminate].
Qed.

(** A chain of [||] over candidates that are [null] or truthy picks the
    first one that is not [null]. *)
Lemma or_chain_first_some a b c d :
  (a = None \/ val_truthy a = true) ->
  (b = None \/ val_truthy b = true) ->
  (c = None \/ val_truthy c = true) ->
  (d = None \/ val_truthy d = true) ->
  or_default (or_js (or_js (or_js a b) c) d) unknown_company
  = resolve [a; b; c; d].
Proof.
  intros Ha Hb Hc Hd. unfold resolve, or_js, or_default.
  destruct Ha as [-> | Ha];
    [| destruct a as [[[|? ?]|?]|]; try discriminate Ha; reflexivity].
  destruct Hb as [-> | Hb];
    [| destruct b as [[[|? ?]|?]|]; try discriminate Hb; reflexivity].
  destruct Hc as [-> | Hc];
    [| destruct c as [[[|? ?]|?]|]; try discriminate Hc; reflexivity].
  destruct Hd as [-> | Hd];
    [| destruct d as [[[|? ?]|?]|]; try discriminate Hd; reflexivity].
  reflexivity.
Qed.

Lemma extractCompany_resolve email body :
  extractCompany email body = resolve (company_candidates email body).
Proof.
  unfold extractCompany, company_candidates.
  pose proof (body_candidate_truthy body) as Hb.
  pose proof (subject_candidate_truthy (subject email)) as Hs.
  pose proof (sender_candidate_truthy (from email)) as Hf.
  pose proof (domain_candidate_truthy (from email)) as Hd.
  assert (Hb' : string_val (extractCompanyFromBody body) = None
                \/ val_truthy (string_val (extractCompanyFromBody body)) = true)
    by (destruct Hb as [->|]; auto).
  assert (Hs' : string_val (extractCompanyFromSubject (subject email)) = None
                \/ val_truthy
                     (string_val (extractCompanyFromSubject (subject email)))
                   = true)
    by (destruct Hs as [->|]; auto).
  assert (Hf' : string_val (extractCompanyFromSender (from email)) = None
                \/ val_truthy
                     (string_val (extractCompanyFromSender (from email)))
                   = true)
    by (destruct Hf as [->|]; auto).
  destruct (isAts (from email)); now apply or_chain_first_some.
Qed.

(** ** Classification *)

Lemma some_matches_spec text ps :
  some_matches text ps = true <-> exists p, In p ps /\ test p text = true.
Proof. unfold some_matches. apply existsb_exists. Qed.

(** The loop returns the category of the first group that matches. *)
Lemma classify_loop_first text g post : forall pre,
  (forall g', In g' pre -> some_matches text (patterns g') = false) ->
  some_matches text (patterns g) = true ->
  classify_loop (pre ++ g :: post) text = category g.
Proof.
  induction pre as [|h pre IH]; intros Hpre Hg; simpl.
  - now rewrite Hg.
  - rewrite (Hpre h (or_introl eq_refl)). apply IH; [|exact Hg].
    intros g' Hin. apply Hpre. now right.
Qed.

Lemma classify_loop_none text : forall gs,
  (forall g, In g gs -> some_matches text (patterns g) = false) ->
  classify_loop gs text = unknown.
Proof.
  induction gs as [|h gs IH]; intros Hall; simpl.
  - reflexivity.
  - rewrite (Hall h (or_introl eq_refl)). apply IH.
    intros g Hin. apply Hall. now right.
Qed.

Lemma classify_loop_range text : forall gs,
  classify_loop gs text = unknown
  \/ In (classify_loop gs text) (List.map category gs).
Proof.
  induction gs as [|h gs IH]; simpl.
  - now left.
  - destruct (some_matches text (patterns h)).
    + right. now left.
    + destruct IH as [IH | IH]; [now left | right; now right].
Qed.

(** C2. [classifyEmail] searches the text "subject, a space, body" with
    the pattern groups in the order offer, interview_invitation,
    rejection, application_confirmation, follow_up; it returns the
    category of the first group one of whose patterns matches
    (case-insensitive, unanchored patterns), and unknown when no group
    matches.  In particular a text that matches an offer pattern and a
    rejection pattern is classified as offer. *)
Theorem classifyEmail_first_group_wins (email : ParsedEmail) :
  let text := subject email ++ js " " ++ body email in
  List.map category CATEGORY_PATTERNS
    = [offer; interview_invitation; rejection; application_confirmation;
       follow_up]
  /\ Forall (fun g => forallb plain_search (patterns g) = true)
            CATEGORY_PATTERNS
  /\ (forall pre g post,
        CATEGORY_PATTERNS = pre ++ g :: post ->
        (forall g' p, In g' pre -> In p (patterns g') -> test p text = false) ->
        (exists p, In p (patterns g) /\ test p text = true) ->
        classifyEmail email = category g)
  /\ ((forall g p, In g CATEGORY_PATTERNS -> In p (patterns g) ->
                   test p text = false) ->
      classifyEmail email = unknown)
  /\ (forall g_offer g_rej p_offer p_rej,
        In g_offer CATEGORY_PATTERNS -> category g_offer = offer ->
        In g_rej CATEGORY_PATTERNS -> category g_rej = rejection ->
        In p_offer (patterns g_offer) -> test p_offer text = true ->
        In p_rej (patterns g_rej) -> test p_rej text = true ->
        classifyEmail email = offer).
Proof.
  intros text.
  assert (Hfalse : forall ps,
            (forall p, In p ps -> test p text = false) ->
            some_matches text ps = false).
  { intros ps H. destruct (some_matches text ps) eqn:E; [|reflexivity].
    apply some_matches_spec in E. destruct E as [p [Hin Ht]].
    rewrite (H p Hin) in Ht. discriminate. }
  split; [reflexivity|].
  split; [repeat constructor|].
  split; [|split].
  - intros pre g post Heq Hpre Hg.
    unfold classifyEmail, email_text. fold text. rewrite Heq.
    apply classify_loop_first.
    + intros g' Hin. apply Hfalse. intros p Hp. now apply (Hpre g').
    + now apply some_matches_spec.
  - intros Hall. unfold classifyEmail, email_text. fold text.
    apply classify_loop_none. intros g Hin. apply Hfalse.
    intros p Hp. now apply (Hall g).
  - intros g_offer g_rej p_offer p_rej Hin Hcat _ _ Hp Ht _ _.
    unfold classifyEmail, email_text. fold text.
    assert (Hm : some_matches text (patterns g_offer) = true)
      by (apply some_matches_spec; now exists p_offer).
    unfold CATEGORY_PATTERNS in *.
    destruct Hin as [<- | [<- | [<- | [<- | [<- | []]]]]];
      try discriminate Hcat.
    cbn [classify_loop patterns category] in *. now rewrite Hm.
Qed.

Lemma classifyEmail_first_group_wins_witness :
  test (re_i (lit "job offer")) (email_text offer_and_rejection) = true
  /\ test (re_i (lit "unfortunately")) (email_text offer_and_rejection) = true
  /\ classifyEmail offer_and_rejection = offer.
Proof.
  split; [vm_compute; reflexivity|].
  split; [vm_compute; reflexivity|].
  refine (proj2 (proj2 (proj2 (proj2
            (classifyEmail_first_group_wins offer_and_rejection))))
            (nth 0 CATEGORY_PATTERNS (mkGroup unknown []))
            (nth 2 CATEGORY_PATTERNS (mkGroup unknown []))
            (re_i (lit "job offer")) (re_i (lit "unfortunately"))
            _ _ _ _ _ _ _ _).
  - left; reflexivity.
  - reflexivity.
  - right; right; left; reflexivity.
  - reflexivity.
  - right; left; reflexivity.
  - vm_compute; reflexivity.
  - left; reflexivity.
  - vm_compute; reflexivity.
Defined.

(** C9. The classifier of the older copy of the service returns the
    same category as the classifier of the ATS-aware copy on every
    email: the two pattern tables hold the same groups in the same
    order and the two loops are the same. *)
Theorem classifyEmail_copies_agree (email : ParsedEmail) :
  classifyEmail email = ParserOld.classifyEmail email
  /\ List.map (fun g => (category g, patterns g)) CATEGORY_PATTERNS
     = List.map (fun g => (ParserOld.category g, ParserOld.patterns g))
                ParserOld.CATEGORY_PATTERNS.
Proof.
  split; [|reflexivity].
  unfold classifyEmail, ParserOld.classifyEmail, email_text.
  generalize (subject email ++ js " " ++ body email). intros text.
  unfold CATEGORY_PATTERNS, ParserOld.CATEGORY_PATTERNS.
  cbn [classify_loop ParserOld.classify_loop patterns category
       ParserOld.patterns ParserOld.category].
  unfold some_matches. reflexivity.
Qed.

(** ** The record *)

Lemma parseJobApplication_inv tz email c r :
  parseJobApplication tz email c = Ok r ->
  exists fu iso,
    follow_up_of tz email c = Ok fu
    /\ toISOString (Date_parse (date email)) = Ok iso
    /\ company r = extractCompany email (slice0 3000 (body email))
    /\ position r = extractPosition email (slice0 3000 (body email))
    /\ dateApplied r = first_piece (splitChar 84 iso)
    /\ status r = STATUS_MAP c
    /\ salaryRange r = or_undefined (extractSalary (slice0 3000 (body email)))
    /\ location r = or_undefined (extractLocation (slice0 3000 (body email)))
    /\ (exists text, jobLink r = or_undefined (extractJobLink text))
    /\ followUpDate r = fu.
Proof.
  unfold parseJobApplication.
  change (match c with
          | application_confirmation =>
              bind (generateFollowUpDate tz (date email) 7)
                   (fun d => Ok (Some d))
          | interview_invitation =>
              bind (generateFollowUpDate tz (date email) 1)
                   (fun d => Ok (Some d))
          | _ => Ok None
          end) with (follow_up_of tz email c).
  destruct (follow_up_of tz email c) as [fu|]; [|discriminate].
  cbn [bind].
  destruct (toISOString (Date_parse (date email))) as [iso|]; [|discriminate].
  cbn [bind]. intros H. injection H as <-.
  exists fu, iso. cbn.
  repeat split; try reflexivity. eexists. reflexivity.
Qed.

Lemma generateFollowUpDate_valid tz s t n :
  Date_parse s = Some t ->
  (Z.abs (UTC tz (LocalTime tz t + n * msPerDay)) <= maxTime)%Z ->
  generateFollowUpDate tz s n
  = Ok (date_string (Day (UTC tz (LocalTime tz t + n * msPerDay)))).
Proof.
  intros Hp Hr. unfold generateFollowUpDate. rewrite Hp.
  rewrite setDate_getDate, TimeClip_some by exact Hr. apply iso_date_part.
Qed.

Lemma generateFollowUpDate_invalid tz s n :
  Date_parse s = None -> generateFollowUpDate tz s n = Throw RangeError.
Proof. intros Hp. unfold generateFollowUpDate. now rewrite Hp. Qed.

(** C6. The status of the record is the image of the category under
    the mapping application_confirmation to Applied, rejection to
    Rejected, interview_invitation to Interview, offer to Offer,
    follow_up to Applied, unknown to Applied, for every email and every
    category. *)
Theorem status_from_category tz (email : ParsedEmail) (c : EmailCategory)
        (r : JobApplication) :
  parseJobApplication tz email c = Ok r ->
  status r = match c with
             | application_confirmation => Applied
             | rejection => Rejected
             | interview_invitation => Interview
             | offer => Offer
             | follow_up => Applied
             | unknown => Applied
             end.
Proof.
  intros H. apply parseJobApplication_inv in H.
  destruct H as [fu [iso [_ [_ [_ [_ [_ [Hs _]]]]]]]].
  rewrite Hs. destruct c; reflexivity.
Qed.

Lemma status_from_category_witness :
  exists r,
    parseJobApplication utcHost greenhouse_rejection rejection = Ok r
    /\ status r = Rejected.
Proof.
  destruct (parseJobApplication utcHost greenhouse_rejection rejection)
    as [r|e] eqn:E.
  - exists r. split; [reflexivity|].
    exact (status_from_category utcHost greenhouse_rejection rejection E).
  - vm_compute in E. discriminate E.
Defined.

(** C8. [parseJobApplication] reads the body through its first 3000
    code units only: two emails with the same subject, sender header,
    date, thread identifier and HTML body, whose bodies agree on their
    first 3000 code units, give the same result for every category. *)
Theorem body_read_through_prefix tz (e1 e2 : ParsedEmail)
        (c : EmailCategory) :
  subject e1 = subject e2 ->
  from e1 = from e2 ->
  date e1 = date e2 ->
  threadId e1 = threadId e2 ->
  htmlBody e1 = htmlBody e2 ->
  slice0 3000 (body e1) = slice0 3000 (body e2) ->
  parseJobApplication tz e1 c = parseJobApplication tz e2 c.
Proof.
  intros Hs Hf Hd Ht Hh Hb.
  unfold parseJobApplication, extractCompany, extractPosition.
  rewrite Hs, Hf, Hd, Ht, Hh, Hb. reflexivity.
Qed.

Lemma body_read_through_prefix_witness :
  body long_email_1 <> body long_email_2
  /\ parseJobApplication utcHost long_email_1 offer
     = parseJobApplication utcHost long_email_2 offer.
Proof.
  split.
  - intros H. apply (f_equal (@List.length N)) in H.
    vm_compute in H. discriminate H.
  - apply body_read_through_prefix; vm_compute; reflexivity.
Defined.

Lemma parseJobApplication_ok tz email c t fu :
  Date_parse (date email) = Some t ->
  follow_up_of tz email c = Ok fu ->
  exists r, parseJobApplication tz email c = Ok r
            /\ dateApplied r = date_string (Day t)
            /\ followUpDate r = fu.
Proof.
  intros Hp Hfu. unfold parseJobApplication.
  change (match c with
          | application_confirmation =>
              bind (generateFollowUpDate tz (date email) 7)
                   (fun d => Ok (Some d))
          | interview_invitation =>
              bind (generateFollowUpDate tz (date email) 1)
                   (fun d => Ok (Some d))
          | _ => Ok None
          end) with (follow_up_of tz email c).
  rewrite Hfu, Hp. cbn [bind toISOString].
  eexists. split; [reflexivity|]. cbn [dateApplied followUpDate].
  split; [|reflexivity].
  apply splitChar_first, date_string_no_T.
Qed.

Lemma follow_up_of_valid tz email c t :
  Date_parse (date email) = Some t ->
  follow_up_in_range tz t c ->
  follow_up_of tz email c
  = Ok match c with
       | application_confirmation =>
           Some (date_string (Day (UTC tz (LocalTime tz t + 7 * msPerDay))))
       | interview_invitation =>
           Some (date_string (Day (UTC tz (LocalTime tz t + 1 * msPerDay))))
       | _ => None
       end.
Proof.
  intros Hp Hr. unfold follow_up_of.
  destruct c; try reflexivity; unfold follow_up_in_range in Hr;
    now rewrite (generateFollowUpDate_valid tz _ _ Hp Hr).
Qed.

(** On a date string that [Date_parse] does not recognise. *)
Lemma parseJobApplication_invalid_date tz email c :
  Date_parse (date email) = None ->
  parseJobApplication tz email c = Throw RangeError.
Proof.
  intros Hp. unfold parseJobApplication.
  destruct c; cbn [bind];
    rewrite ?(generateFollowUpDate_invalid tz _ _ Hp), Hp; reflexivity.
Qed.







(** ** Fields of the record *)

Lemma or_undefined_nonempty o : absent_or_nonempty (or_undefined o).
Proof.
  unfold or_undefined, opt_truthy.
  destruct o as [s|]; simpl; auto.
  destruct (truthy s) eqn:T; simpl; auto. now apply truthy_nonempty.
Qed.

Lemma extractPosition_nonempty email body :
  extractPosition email body <> [].
Proof.
  unfold extractPosition.
  destruct (extractPositionFromBody body) as [p|]; simpl.
  - destruct (truthy p) eqn:T; [now apply truthy_nonempty|].
    destruct (extractPositionFromSubject (subject email)) as [q|]; simpl.
    + destruct (truthy q) eqn:T'; [now apply truthy_nonempty|].
      match goal with
      | |- (if ?b then _ else _) <> _ => destruct b eqn:B
      end; [|discriminate].
      apply andb_true_iff in B. destruct B as [B _].
      apply andb_true_iff in B. destruct B as [B _].
      now apply truthy_nonempty.
    + match goal with
      | |- (if ?b then _ else _) <> _ => destruct b eqn:B
      end; [|discriminate].
      apply andb_true_iff in B. destruct B as [B _].
      apply andb_true_iff in B. destruct B as [B _].
      now apply truthy_nonempty.
  - destruct (extractPositionFromSubject (subject email)) as [q|]; simpl.
    + destruct (truthy q) eqn:T'; [now apply truthy_nonempty|].
      match goal with
      | |- (if ?b then _ else _) <> _ => destruct b eqn:B
      end; [|discriminate].
      apply andb_true_iff in B. destruct B as [B _].
      apply andb_true_iff in B. destruct B as [B _].
      now apply truthy_nonempty.
    + match goal with
      | |- (if ?b then _ else _) <> _ => destruct b eqn:B
      end; [|discriminate].
      apply andb_true_iff in B. destruct B as [B _].
      apply andb_true_iff in B. destruct B as [B _].
      now apply truthy_nonempty.
Qed.

Lemma generateFollowUpDate_nonempty tz s n d :
  generateFollowUpDate tz s n = Ok d -> d <> [].
Proof.
  unfold generateFollowUpDate.
  destruct (setDate tz (Date_parse s)
              (option_map (fun d0 => (d0 + n)%Z) (getDate tz (Date_parse s))))
    as [u|]; [|discriminate].
  rewrite iso_date_part. intros H. injection H as <-.
  apply date_string_nonempty.
Qed.

Lemma follow_up_of_nonempty tz email c fu :
  follow_up_of tz email c = Ok fu -> absent_or_nonempty fu.
Proof.
  unfold follow_up_of.
  destruct c; try (intros H; injection H as <-; exact I).
  - destruct (generateFollowUpDate tz (date email) 7) as [d|] eqn:E;
      [|discriminate].
    intros H. injection H as <-. simpl.
    eapply generateFollowUpDate_nonempty; eauto.
  - destruct (generateFollowUpDate tz (date email) 1) as [d|] eqn:E;
      [|discriminate].
    intros H. injection H as <-. simpl.
    eapply generateFollowUpDate_nonempty; eauto.
Qed.

(** The company is the sentinel, a non-empty string, or a member of
    [Object.prototype]. *)
Lemma extractCompany_value email body :
  nonempty_string (extractCompany email body)
  \/ exists key, extractCompany email body = JInherited key.
Proof.
  rewrite extractCompany_resolve. unfold resolve.
  destruct (first_some (company_candidates email body)) as [v|] eqn:E.
  - assert (Hin : In (Some v) (company_candidates email body)).
    { revert E. generalize (company_candidates email body).
      induction l as [|[a|] l IH]; simpl; intros H.
      - discriminate.
      - injection H as ->. now left.
      - right. now apply IH. }
    assert (Ht : val_truthy (Some v) = true).
    { unfold company_candidates in Hin.
      pose proof (body_candidate_truthy body) as Hb.
      pose proof (subject_candidate_truthy (subject email)) as Hs.
      pose proof (sender_candidate_truthy (from email)) as Hf.
      pose proof (domain_candidate_truthy (from email)) as Hd.
      destruct (isAts (from email)); simpl in Hin;
        repeat match goal with
               | H : _ \/ _ |- _ => destruct H as [H | H]
               | H : False |- _ => contradiction
               end;
        try (rewrite <- Hin; assumption);
        try (rewrite Hb in Hin; discriminate Hin);
        try (rewrite Hs in Hin; discriminate Hin);
        try (rewrite Hf in Hin; discriminate Hin);
        try (rewrite Hd in Hin; discriminate Hin). }
    destruct v as [s | key].
    + left. exists s. split; [reflexivity|]. now apply truthy_nonempty.
    + right. now exists key.
  - left. eexists. split; [reflexivity|]. discriminate.
Qed.

(** The part of C7 that holds on every record: the position is a
    non-empty string, each optional field is absent or a non-empty
    string, and the company is a non-empty string unless it is a member
    of [Object.prototype]. *)
Lemma record_fields tz email c r :
  parseJobApplication tz email c = Ok r ->
  position r <> []
  /\ absent_or_nonempty (salaryRange r)
  /\ absent_or_nonempty (location r)
  /\ absent_or_nonempty (jobLink r)
  /\ absent_or_nonempty (followUpDate r)
  /\ (nonempty_string (company r) \/ exists key, company r = JInherited key).
Proof.
  intros H. apply parseJobApplication_inv in H.
  destruct H as [fu [iso [Hfu [_ [Hc [Hp [_ [_ [Hs [Hl [[text Hj] Hf]]]]]]]]]]].
  rewrite Hp, Hs, Hl, Hj, Hf, Hc.
  repeat split; try apply or_undefined_nonempty.
  - apply extractPosition_nonempty.
  - eapply follow_up_of_nonempty; eauto.
  - apply extractCompany_value.
Qed.

(** C7 fails on the code.  For a sender whose domain label is a property
    key of [Object.prototype] (here the bare address
    jobs@constructor.com, in an email that names no company elsewhere),
    the lookup [knownSplits[domain]] of [titleCase] finds the inherited
    member, which is truthy, and [titleCase] returns it: the company of
    the record is a function and not a string. *)
Theorem company_inherited_from_prototype :
  extractCompanyFromDomain (from constructor_domain)
  = Some (JInherited (js "constructor"))
  /\ exists r,
       parseJobApplication utcHost constructor_domain
                           application_confirmation = Ok r
       /\ company r = JInherited (js "constructor")
       /\ ~ nonempty_string (company r).
Proof.
  split; [vm_compute; reflexivity|].
  eexists. split; [vm_compute; reflexivity|].
  split; [reflexivity|].
  intros [s [H _]]. discriminate H.
Qed.

(** ** Company candidates *)




(** C4. Company resolution returns the first candidate that is not
    null, in the order body, subject, sender display name, sender domain
    when the sender is detected as an applicant tracking system, and in
    the order sender display name, body, subject, sender domain
    otherwise; when the four strategies return null it returns the
    sentinel Unknown Company. *)
Theorem company_strategy_order (email : ParsedEmail) (body : str) :
  let bodyCompany := string_val (extractCompanyFromBody body) in
  let fromCompany := string_val (extractCompanyFromSender (from email)) in
  let subjectCompany := string_val (extractCompanyFromSubject (subject email)) in
  let domainCompany := extractCompanyFromDomain (from email) in
  extractCompany email body
  = resolve (if isAts (from email)
             then [bodyCompany; subjectCompany; fromCompany; domainCompany]
             else [fromCompany; bodyCompany; subjectCompany; domainCompany])
  /\ (bodyCompany = None -> subjectCompany = None -> fromCompany = None ->
      domainCompany = None ->
      extractCompany email body = JString (js "Unknown Company")).
Proof.
  intros bodyCompany fromCompany subjectCompany domainCompany.
  assert (H : extractCompany email body
              = resolve (if isAts (from email)
                         then [bodyCompany; subjectCompany; fromCompany;
                               domainCompany]
                         else [fromCompany; bodyCompany; subjectCompany;
                               domainCompany])).
  { rewrite extractCompany_resolve. unfold company_candidates.
    reflexivity. }
  split; [exact H|].
  intros Hb Hs Hf Hd. rewrite H, Hb, Hs, Hf, Hd.
  destruct (isAts (from email)); reflexivity.
Qed.

Lemma company_strategy_order_witness :
  extractCompany no_signal (slice0 3000 (body no_signal))
  = JString (js "Unknown Company").
Proof.
  apply (proj2 (company_strategy_order no_signal
                  (slice0 3000 (body no_signal))));
    vm_compute; reflexivity.
Defined.



(* ================================================================= *)
(** * Further properties *)

Import RegexLang.

(** ** The matcher matches words of the pattern *)

Lemma passed_refl x : passed x x [].
Proof. now split. Qed.

Lemma passed_trans x y z w1 w2 :
  passed x y w1 -> passed y z w2 -> passed x z (w1 ++ w2).
Proof.
  intros [Ha Hb] [Ha' Hb']. split.
  - now rewrite Ha, Ha', app_assoc.
  - now rewrite Hb', Hb, rev_app_distr, app_assoc.
Qed.

Lemma between_passed x y w : passed x y w -> between x y = w.
Proof.
  intros [Ha _]. unfold between. rewrite Ha, length_app.
  replace (List.length w + List.length (ahead y) - List.length (ahead y))%nat
    with (List.length w + 0)%nat by lia.
  rewrite firstn_app_2. simpl. apply app_nil_r.
Qed.

Lemma substring_refl (w : str) : substring w w.
Proof. exists [], []. now rewrite app_nil_r. Qed.

Lemma substring_app_l (g w1 w2 : str) : substring g w1 -> substring g (w1 ++ w2).
Proof.
  intros [a [b ->]]. exists a, (b ++ w2). now rewrite <- !app_assoc.
Qed.

Lemma substring_app_r (g w1 w2 : str) : substring g w2 -> substring g (w1 ++ w2).
Proof.
  intros [a [b ->]]. exists (w1 ++ a), b. now rewrite <- !app_assoc.
Qed.

Lemma substring_trans (a b c : str) :
  substring a b -> substring b c -> substring a c.
Proof.
  intros [p [q ->]] [p' [q' ->]]. exists (p' ++ p), (q ++ q').
  now rewrite <- !app_assoc.
Qed.

Lemma substring_In (a b : str) c : substring a b -> In c a -> In c b.
Proof.
  intros [p [q ->]] H. apply in_or_app. right. apply in_or_app. now left.
Qed.

Lemma caps_from_refl ic r x w : caps_from ic r x x w.
Proof. intros n g H. now left. Qed.

Lemma caps_from_same ic r x y w : caps y = caps x -> caps_from ic r x y w.
Proof. intros E n g H. left. now rewrite <- E. Qed.

Lemma caps_from_trans ic r ra rb x y z w1 w2 :
  (forall n, incl (group_bodies n ra) (group_bodies n r)) ->
  (forall n, incl (group_bodies n rb) (group_bodies n r)) ->
  caps_from ic ra x y w1 -> caps_from ic rb y z w2 ->
  caps_from ic r x z (w1 ++ w2).
Proof.
  intros Ia Ib Hxy Hyz n g H.
  destruct (Hyz n g H) as [H' | [Hs [r1 [Hin Hl]]]].
  - destruct (Hxy n g H') as [H'' | [Hs [r1 [Hin Hl]]]]; [now left|].
    right. split; [now apply substring_app_l|].
    exists r1. split; [now apply Ia | exact Hl].
  - right. split; [now apply substring_app_r|].
    exists r1. split; [now apply Ib | exact Hl].
Qed.

Lemma caps_from_incl ic r ra x y w :
  (forall n, incl (group_bodies n ra) (group_bodies n r)) ->
  caps_from ic ra x y w -> caps_from ic r x y w.
Proof.
  intros Ia Hxy n g H.
  destruct (Hxy n g H) as [H' | [Hs [r1 [Hin Hl]]]]; [now left|].
  right. split; [exact Hs|]. exists r1. split; [now apply Ia | exact Hl].
Qed.

Lemma step_if_matched ic ok r x k z :
  (forall ch, ok ch = true -> lang ic r [ch]) ->
  step_if ok x k = Some z ->
  exists y, matched ic r x y /\ k y = Some z.
Proof.
  intros Hok H. unfold step_if in H.
  destruct (ahead x) as [|c tl] eqn:E; [discriminate|].
  destruct (ok c) eqn:O; [|discriminate].
  exists (advance x). split; [|exact H].
  exists [c]. unfold advance, passed. rewrite E. simpl.
  repeat split; auto. now apply caps_from_same.
Qed.

Lemma rep_loop_matched ic ml r k greedy :
  sat ic ml r (matched ic r) ->
  forall fuel min max x z,
    rep_loop (run ic ml r) k greedy fuel min max x = Some z ->
    exists y, matched ic (Rep min max greedy r) x y /\ k y = Some z.
Proof.
  intros Hr. induction fuel as [|fuel IH]; intros min max x z H;
    [discriminate|].
  simpl in H.
  assert (Hnil : forall z', (min = 0 \/ max_is_zero max = true) ->
            k x = Some z' ->
            exists y, matched ic (Rep min max greedy r) x y /\ k y = Some z').
  { intros z' Hc Hk. exists x. split; [|exact Hk].
    exists []. split; [apply passed_refl|].
    split; [now constructor | apply caps_from_refl]. }
  destruct (max_is_zero max) eqn:Hmax; [apply Hnil; auto|].
  assert (Hd : forall z',
    run ic ml r x (fun y =>
      if Nat.eqb min 0
         && Nat.eqb (List.length (ahead y)) (List.length (ahead x))
      then None
      else rep_loop (run ic ml r) k greedy fuel (Nat.pred min) (dec_max max) y)
    = Some z' ->
    exists y, matched ic (Rep min max greedy r) x y /\ k y = Some z').
  { intros z' H'. apply Hr in H'. destruct H' as [y1 [[w1 [Hp1 [Hl1 Hc1]]] H']].
    destruct (Nat.eqb min 0
              && Nat.eqb (List.length (ahead y1)) (List.length (ahead x)));
      [discriminate|].
    apply IH in H'. destruct H' as [y [[w2 [Hp2 [Hl2 Hc2]]] H']].
    exists y. split; [|exact H'].
    exists (w1 ++ w2). split; [eapply passed_trans; eauto|].
    split; [now constructor|].
    eapply caps_from_trans; eauto; intros n; simpl; apply incl_refl. }
  destruct (Nat.eqb_spec min 0) as [Hmin|Hmin]; cbn [negb] in H;
    [|now apply Hd].
  destruct greedy; unfold or_else in H.
  - match type of H with
    | match ?e with _ => _ end = _ => destruct e eqn:E
    end.
    + injection H as ->. now apply Hd.
    + apply Hnil; auto.
  - destruct (k x) eqn:E.
    + injection H as ->. apply Hnil; auto.
    + now apply Hd.
Qed.

(** Soundness of the matcher: whatever it matches is a word of the
    pattern, and whatever it captures is a word of the captured group. *)
Lemma run_lang ic ml r : sat ic ml r (matched ic r).
Proof.
  induction r as [| c | | neg items | | | | a IHa b IHb | a IHa b IHb
                 | min max greedy r IH | n r IH]; intros x k z H; simpl in H.
  - exists x. split; [|exact H]. exists []. split; [apply passed_refl|].
    split; [constructor | apply caps_from_refl].
  - eapply step_if_matched; eauto. intros ch Hc.
    constructor. now apply N.eqb_eq.
  - eapply step_if_matched; eauto. intros ch Hc.
    constructor. now apply negb_true_iff.
  - eapply step_if_matched; eauto. intros ch Hc. now constructor.
  - destruct (at_bol ml x); [|discriminate].
    exists x. split; [|exact H]. exists []. split; [apply passed_refl|].
    split; [constructor | apply caps_from_refl].
  - destruct (at_eol ml x); [|discriminate].
    exists x. split; [|exact H]. exists []. split; [apply passed_refl|].
    split; [constructor | apply caps_from_refl].
  - destruct (xorb (word_before x) (word_ahead x)); [|discriminate].
    exists x. split; [|exact H]. exists []. split; [apply passed_refl|].
    split; [constructor | apply caps_from_refl].
  - apply IHa in H. destruct H as [y [[w1 [Hp1 [Hl1 Hc1]]] H]].
    apply IHb in H. destruct H as [y' [[w2 [Hp2 [Hl2 Hc2]]] H]].
    exists y'. split; [|exact H].
    exists (w1 ++ w2). split; [eapply passed_trans; eauto|].
    split; [now constructor|].
    eapply caps_from_trans; eauto; intros n; simpl;
      [apply incl_appl | apply incl_appr]; apply incl_refl.
  - unfold or_else in H. destruct (run ic ml a x k) eqn:E.
    + injection H as ->. apply IHa in E.
      destruct E as [y [[w [Hp [Hl Hc]]] E]].
      exists y. split; [|exact E]. exists w. split; [exact Hp|].
      split; [now apply L_AltL|].
      eapply caps_from_incl; eauto; intros n; simpl;
        apply incl_appl; apply incl_refl.
    + apply IHb in H. destruct H as [y [[w [Hp [Hl Hc]]] H]].
      exists y. split; [|exact H]. exists w. split; [exact Hp|].
      split; [now apply L_AltR|].
      eapply caps_from_incl; eauto; intros n; simpl;
        apply incl_appr; apply incl_refl.
  - eapply rep_loop_matched; eauto.
  - apply IH in H. destruct H as [y [[w [Hp [Hl Hc]]] H]].
    eexists. split; [|exact H].
    exists w. split; [exact Hp|]. split; [now constructor|].
    intros m g Hg. unfold set_cap in Hg. simpl in Hg.
    rewrite (between_passed Hp) in Hg.
    destruct (Nat.eqb n m) eqn:E.
    + injection Hg as <-. right. split; [apply substring_refl|].
      exists r. split; [|exact Hl].
      simpl. rewrite E. now left.
    + destruct (Hc m g Hg) as [Hx | [Hs [r1 [Hin Hl1]]]]; [now left|].
      right. split; [exact Hs|]. exists r1. split; [|exact Hl1].
      simpl. rewrite E. exact Hin.
Qed.

Lemma search_inv re ah : forall bef x y,
  search re bef ah = Some (x, y) ->
  exists skipped,
    ah = skipped ++ ahead x /\ before x = rev skipped ++ bef
    /\ caps x = [] /\ run_re re x (fun y => Some y) = Some y.
Proof.
  induction ah as [|c tl IH]; intros bef x y H; simpl in H.
  - destruct (run_re re (mkState bef [] []) (fun y => Some y)) eqn:E;
      [|discriminate].
    injection H as <- <-. exists []. now repeat split.
  - destruct (run_re re (mkState bef (c :: tl) []) (fun y => Some y)) eqn:E.
    + injection H as <- <-. exists []. now repeat split.
    + apply IH in H. destruct H as [sk [Ha [Hb [Hc Hr]]]].
      exists (c :: sk). repeat split; auto.
      * simpl. now f_equal.
      * rewrite Hb. simpl. now rewrite <- app_assoc.
Qed.

(** What [search] finds from the start of a text: the text is what was
    skipped, the match and the rest; the match is a word of the pattern
    and every capture a word of its group. *)
Lemma search_matched re s x y :
  search re [] s = Some (x, y) ->
  s = rev (before x) ++ between x y ++ ahead y
  /\ lang (ignoreCase re) (source re) (between x y)
  /\ forall n g, get_cap n (caps y) = Some g ->
       substring g (between x y)
       /\ exists r1, In r1 (group_bodies n (source re))
                     /\ lang (ignoreCase re) r1 g.
Proof.
  intros H. apply search_inv in H.
  destruct H as [sk [Ha [Hb [Hc Hr]]]].
  apply run_lang in Hr. destruct Hr as [y' [[w [Hp [Hl Hcf]]] Heq]].
  injection Heq as ->. rewrite (between_passed Hp).
  rewrite app_nil_r in Hb. rewrite Hb, rev_involutive.
  destruct Hp as [Hp _]. rewrite Ha, Hp.
  split; [reflexivity|]. split; [exact Hl|].
  intros n g Hg. destruct (Hcf n g Hg) as [Hx | Hx]; [|exact Hx].
  rewrite Hc in Hx. discriminate.
Qed.

Lemma exec_matched re s m :
  exec re s = Some m ->
  (exists pre post, s = pre ++ m0 m ++ post /\ index m = List.length pre)
  /\ lang (ignoreCase re) (source re) (m0 m)
  /\ forall n g, group n m = Some g ->
       substring g (m0 m)
       /\ exists r1, In r1 (group_bodies n (source re))
                     /\ lang (ignoreCase re) r1 g.
Proof.
  unfold exec. destruct (search re [] s) as [[x y]|] eqn:E; [|discriminate].
  simpl. intros H. injection H as <-. simpl.
  apply search_matched in E. destruct E as [Hs [Hl Hc]].
  split; [|split; [exact Hl | exact Hc]].
  exists (rev (before x)), (ahead y). split; [exact Hs|].
  now rewrite length_rev.
Qed.

(** A word of a pattern holds a word of every sub-pattern that all its
    ways go through. *)
Lemma passes_through_piece ic t r w :
  lang ic r w -> passes_through t r = true -> has_piece (lang ic t) w.
Proof.
  assert (Hself : forall r w, lang ic r w -> t = r -> has_piece (lang ic t) w).
  { intros r0 w0 H ->. exists [], w0, []. now rewrite app_nil_r. }
  assert (Hl : forall w1 w2, has_piece (lang ic t) w1 ->
                             has_piece (lang ic t) (w1 ++ w2)).
  { intros w1 w2 [a [v [b [-> Hv]]]]. exists a, v, (b ++ w2).
    now rewrite <- !app_assoc. }
  assert (Hr : forall w1 w2, has_piece (lang ic t) w2 ->
                             has_piece (lang ic t) (w1 ++ w2)).
  { intros w1 w2 [a [v [b [-> Hv]]]]. exists (w1 ++ a), v, b.
    now rewrite <- !app_assoc. }
  induction 1; intros Hp; simpl in Hp;
    match type of Hp with
    | (if regex_eq_dec t ?r then _ else _) = true =>
        destruct (regex_eq_dec t r) as [E|E];
          [apply (Hself r); [solve [econstructor; eauto] | exact E]|]
    end; try discriminate.
  - apply orb_true_iff in Hp. destruct Hp as [Hp|Hp]; auto.
  - apply andb_true_iff in Hp. destruct Hp as [Hp _]. auto.
  - apply andb_true_iff in Hp. destruct Hp as [_ Hp]. auto.
  - apply andb_true_iff in Hp. destruct Hp as [Hp _].
    apply andb_true_iff in Hp. destruct Hp as [Hmin Hmax].
    destruct H as [-> | Hz]; [discriminate Hmin|].
    rewrite Hz in Hmax. discriminate.
  - apply andb_true_iff in Hp. destruct Hp as [_ Hp]. auto.
  - auto.
Qed.

Import Shapes.

(** ** Trimming *)

Lemma trimStart_split s :
  exists a, s = a ++ trimStart s /\ Forall (fun c => isWhiteSpace c = true) a.
Proof.
  induction s as [|c s [a [Ha Hf]]]; simpl.
  - now exists [].
  - destruct (isWhiteSpace c) eqn:E.
    + exists (c :: a). split; [simpl; now f_equal | now constructor].
    + now exists [].
Qed.

Lemma trimStart_head s c t : trimStart s = c :: t -> isWhiteSpace c = false.
Proof.
  induction s as [|d s IH]; simpl; [discriminate|].
  destruct (isWhiteSpace d) eqn:E; [exact IH|].
  intros H. injection H as <- _. exact E.
Qed.

Lemma trimStart_fixed s :
  match s with c :: _ => isWhiteSpace c = false | [] => True end ->
  trimStart s = s.
Proof. destruct s as [|c s]; simpl; [reflexivity|]. now intros ->. Qed.

Lemma trimStart_idem s : trimStart (trimStart s) = trimStart s.
Proof.
  apply trimStart_fixed. destruct (trimStart s) eqn:E; [exact I|].
  now apply trimStart_head in E.
Qed.

Lemma trimEnd_split s :
  exists b, s = trimEnd s ++ b /\ Forall (fun c => isWhiteSpace c = true) b.
Proof.
  unfold trimEnd. destruct (trimStart_split (rev s)) as [a [Ha Hf]].
  exists (rev a). split.
  - rewrite <- rev_app_distr, <- Ha. symmetry. apply rev_involutive.
  - apply Forall_rev. exact Hf.
Qed.

Lemma trim_substring s : substring (trim s) s.
Proof.
  unfold trim. destruct (trimStart_split s) as [a [Ha _]].
  destruct (trimEnd_split (trimStart s)) as [b [Hb _]].
  exists a, b. now rewrite <- Hb.
Qed.

(** The head of a trimmed end is the head of the string. *)
Lemma trimEnd_head s c t :
  trimEnd s = c :: t -> exists t', s = c :: t'.
Proof.
  intros H. destruct (trimEnd_split s) as [b [Hb _]].
  rewrite H in Hb. now exists (t ++ b).
Qed.

Lemma trim_idem s : trim (trim s) = trim s.
Proof.
  unfold trim at 1.
  assert (H1 : trimStart (trim s) = trim s).
  { apply trimStart_fixed. destruct (trim s) as [|c t] eqn:E; [exact I|].
    unfold trim in E. apply trimEnd_head in E. destruct E as [t' E].
    now apply trimStart_head in E. }
  rewrite H1. unfold trim, trimEnd.
  now rewrite rev_involutive, trimStart_idem.
Qed.

Lemma trim_trimmed s : trimmed (trim s).
Proof. apply trim_idem. Qed.

Lemma Forall_substring (P : N -> Prop) a b :
  substring a b -> Forall P b -> Forall P a.
Proof.
  intros [p [q ->]] H. apply Forall_app in H. destruct H as [_ H].
  apply Forall_app in H. now destruct H.
Qed.

(** Trimming keeps what stands between two code units that are not white
    space. *)
Lemma trimStart_keeps a c r :
  isWhiteSpace c = false -> exists a', trimStart (a ++ c :: r) = a' ++ c :: r.
Proof.
  intros Hc. induction a as [|d a [a' IH]]; simpl.
  - rewrite Hc. now exists [].
  - destruct (isWhiteSpace d).
    + now exists a'.
    + now exists (d :: a).
Qed.

Lemma trim_keeps a c m d b :
  isWhiteSpace c = false -> isWhiteSpace d = false ->
  exists a' b', trim (a ++ c :: m ++ d :: b) = a' ++ c :: m ++ d :: b'.
Proof.
  intros Hc Hd. unfold trim, trimEnd.
  destruct (@trimStart_keeps a c (m ++ d :: b) Hc) as [a' ->].
  assert (E : rev (a' ++ c :: m ++ d :: b)
              = rev b ++ d :: rev (a' ++ c :: m)).
  { change (a' ++ c :: m ++ d :: b) with (a' ++ (c :: m) ++ d :: b).
    rewrite app_assoc, rev_app_distr. cbn [rev].
    rewrite <- app_assoc. reflexivity. }
  rewrite E.
  destruct (@trimStart_keeps (rev b) d (rev (a' ++ c :: m)) Hd) as [b' ->].
  exists a', (rev b').
  change (b' ++ d :: rev (a' ++ c :: m))
    with (b' ++ [d] ++ rev (a' ++ c :: m)).
  rewrite !rev_app_distr, !rev_involutive. cbn [rev app].
  rewrite <- !app_assoc. reflexivity.
Qed.

(** ** Code units *)

Ltac bool_to_prop :=
  repeat match goal with
  | H : _ && _ = true |- _ => apply andb_true_iff in H; destruct H
  | H : _ || _ = false |- _ => apply orb_false_iff in H; destruct H
  | H : negb _ = true |- _ => apply negb_true_iff in H
  | H : negb _ = false |- _ => apply negb_false_iff in H
  | H : (_ <=? _)%N = true |- _ => apply N.leb_le in H
  | H : (_ <=? _)%N = false |- _ => apply N.leb_gt in H
  | H : (_ =? _)%N = true |- _ => apply N.eqb_eq in H
  | H : (_ =? _)%N = false |- _ => apply N.eqb_neq in H
  | H : _ || _ = true |- _ => apply orb_true_iff in H; destruct H
  | H : _ && _ = false |- _ => apply andb_false_iff in H; destruct H
  end.

Lemma lower_bounds a : isLowerAscii a = true <-> (97 <= a <= 122)%N.
Proof.
  unfold isLowerAscii. rewrite andb_true_iff, !N.leb_le. tauto.
Qed.

Lemma upper_bounds a : isUpperAscii a = true <-> (65 <= a <= 90)%N.
Proof.
  unfold isUpperAscii. rewrite andb_true_iff, !N.leb_le. tauto.
Qed.

Lemma not_lower_bounds a : isLowerAscii a = false <-> (a < 97 \/ 122 < a)%N.
Proof.
  unfold isLowerAscii. rewrite andb_false_iff, !N.leb_gt. tauto.
Qed.

Lemma not_upper_bounds a : isUpperAscii a = false <-> (a < 65 \/ 90 < a)%N.
Proof.
  unfold isUpperAscii. rewrite andb_false_iff, !N.leb_gt. tauto.
Qed.

(** Two code units with the same upper case are equal or the two cases
    of one letter. *)
Lemma up_eq_cases a b :
  upperChar a = upperChar b ->
  a = b \/ (isLowerAscii a = true /\ b = (a - 32)%N)
  \/ (isLowerAscii b = true /\ a = (b - 32)%N).
Proof.
  unfold upperChar.
  destruct (isLowerAscii a) eqn:Ea, (isLowerAscii b) eqn:Eb; intros H; auto.
  apply lower_bounds in Ea, Eb. left. lia.
Qed.

(** A property of code units that holds of a letter in one case exactly
    when it holds of it in the other is blind to the case. *)
Lemma up_invariant (p : N -> bool) :
  (forall a, isLowerAscii a = true -> p (a - 32)%N = p a) ->
  forall a b, upperChar a = upperChar b -> p a = p b.
Proof.
  intros Hp a b H. destruct (@up_eq_cases a b H) as [-> | [[Hl ->] | [Hl ->]]].
  - reflexivity.
  - symmetry. now apply Hp.
  - now apply Hp.
Qed.

Lemma isWhiteSpace_letter a :
  (65 <= a <= 122)%N -> isWhiteSpace a = false.
Proof.
  intros H. unfold isWhiteSpace, isLineTerminator.
  repeat match goal with
  | |- context [(?x =? ?y)%N] =>
      let E := fresh in destruct (N.eqb_spec x y) as [E|E]; [lia|]
  | |- context [(?x <=? ?y)%N] =>
      let E := fresh in destruct (N.leb_spec x y) as [E|E]; try lia
  end; reflexivity.
Qed.

Lemma isLineTerminator_letter a :
  (65 <= a <= 122)%N -> isLineTerminator a = false.
Proof.
  intros H. unfold isLineTerminator.
  repeat match goal with
  | |- context [(?x =? ?y)%N] =>
      let E := fresh in destruct (N.eqb_spec x y) as [E|E]; [lia|]
  end; reflexivity.
Qed.

Lemma isWhiteSpace_up a b :
  upperChar a = upperChar b -> isWhiteSpace a = isWhiteSpace b.
Proof.
  apply up_invariant. intros c Hc. apply lower_bounds in Hc.
  rewrite !isWhiteSpace_letter by lia. reflexivity.
Qed.

Lemma isLineTerminator_up a b :
  upperChar a = upperChar b -> isLineTerminator a = isLineTerminator b.
Proof.
  apply up_invariant. intros c Hc. apply lower_bounds in Hc.
  rewrite !isLineTerminator_letter by lia. reflexivity.
Qed.

Lemma isWordChar_up a b :
  upperChar a = upperChar b -> isWordChar a = isWordChar b.
Proof.
  apply up_invariant. intros c Hc. pose proof Hc as Hc'.
  apply lower_bounds in Hc. unfold isWordChar. rewrite Hc'.
  assert (H : isUpperAscii (c - 32) = true) by (apply upper_bounds; lia).
  rewrite H. now rewrite !orb_true_r.
Qed.

Lemma isDigit_up a b : upperChar a = upperChar b -> isDigit a = isDigit b.
Proof.
  apply up_invariant. intros c Hc. apply lower_bounds in Hc.
  unfold isDigit.
  destruct (N.leb_spec 48 (c - 32)), (N.leb_spec (c - 32) 57),
    (N.leb_spec 48 c), (N.leb_spec c 57); simpl; try reflexivity; lia.
Qed.

Lemma isWordChar_no_space c : isWordChar c = true -> isWhiteSpace c = false.
Proof.
  unfold isWordChar, isUpperAscii, isLowerAscii, isDigit. intros H.
  destruct (isWhiteSpace c) eqn:W; [|reflexivity].
  unfold isWhiteSpace, isLineTerminator in W. bool_to_prop; lia.
Qed.

Lemma isDigit_no_space c : isDigit c = true -> isWhiteSpace c = false.
Proof.
  intros H. apply isWordChar_no_space. unfold isWordChar. rewrite H.
  now rewrite !orb_true_r.
Qed.

(** Under the i flag a literal matches its two cases only. *)
Lemma canon_no_space ic c ch :
  isWhiteSpace c = false -> canon ic ch = canon ic c ->
  isWhiteSpace ch = false.
Proof.
  unfold canon. destruct ic; intros Hc H.
  - now rewrite (@isWhiteSpace_up _ _ H).
  - now subst.
Qed.

(** The class of the position patterns, under the i flag. *)
Lemma title_class_char ch :
  lang true title_class [ch] -> title_char ch = true.
Proof.
  intros H.
  change title_class
    with (Cls false [CRange 65 90; CRange 97 122; CRange 48 57; CSpace;
                     CChr 47; CChr 44; CChr 46; CChr 45]) in H.
  inversion H as [| | | neg items ch' Hc | | | | | | | | |]; subst.
  clear H. unfold class_matches in Hc.
  cbn [xorb existsb item_matches canon andb] in Hc.
  change (upperChar 47) with 47%N in Hc.
  change (upperChar 44) with 44%N in Hc.
  change (upperChar 46) with 46%N in Hc.
  change (upperChar 45) with 45%N in Hc.
  destruct (title_char ch) eqn:T; [reflexivity|exfalso].
  unfold title_char in T.
  unfold in_range, upperChar, lowerAscii in Hc.
  destruct (isLowerAscii ch) eqn:L; destruct (isUpperAscii ch) eqn:U;
    cbn [orb] in T; try discriminate T.
  unfold isDigit in T.
  apply not_lower_bounds in L. apply not_upper_bounds in U.
  bool_to_prop; try congruence; try lia.
Qed.

(** ** Positions *)

Lemma lang_rep_Forall ic (P : N -> Prop) r :
  (forall w, lang ic r w -> Forall P w) ->
  forall min max g w, lang ic (Rep min max g r) w -> Forall P w.
Proof.
  intros Hr min max g w H. remember (Rep min max g r) as R eqn:ER.
  revert min max ER.
  induction H; intros mn mx ER; try discriminate ER.
  - constructor.
  - injection ER as -> -> -> ->. apply Forall_app. split.
    + now apply Hr.
    + eapply IHlang2. reflexivity.
Qed.

Lemma title_run_chars g w :
  lang true (Rep 1 None g title_class) w ->
  Forall (fun c => title_char c = true) w.
Proof.
  apply lang_rep_Forall. intros w1 H.
  assert (E : exists ch, w1 = [ch]).
  { change title_class
      with (Cls false [CRange 65 90; CRange 97 122; CRange 48 57; CSpace;
                       CChr 47; CChr 44; CChr 46; CChr 45]) in H.
    inversion H; subst. now eexists. }
  destruct E as [ch ->]. constructor; [|constructor].
  now apply title_class_char.
Qed.

Lemma first_position_inv ps text p :
  first_position ps text = Some p ->
  exists re m g,
    In re ps /\ exec re text = Some m /\ group 1 m = Some g
    /\ p = trim g /\ isValidPosition p = true.
Proof.
  induction ps as [|re ps IH]; simpl; [discriminate|].
  destruct (exec re text) as [m|] eqn:E.
  - destruct (group 1 m) as [g|] eqn:G.
    + destruct (isValidPosition (trim g)) eqn:V.
      * intros H. injection H as <-. exists re, m, g. auto 6.
      * intros H. destruct (IH H) as [re' [m' [g' [Hin Hr]]]].
        exists re', m', g'. split; [now right | exact Hr].
    + intros H. destruct (IH H) as [re' [m' [g' [Hin Hr]]]].
      exists re', m', g'. split; [now right | exact Hr].
  - intros H. destruct (IH H) as [re' [m' [g' [Hin Hr]]]].
    exists re', m', g'. split; [now right | exact Hr].
Qed.

Lemma isValidPosition_inv p :
  isValidPosition p = true ->
  (3 <= List.length p <= 100)%nat /\ test NOT_A_POSITION p = false.
Proof.
  unfold isValidPosition.
  destruct (negb (truthy p) || (List.length p <? 3)%nat
            || (100 <? List.length p)%nat) eqn:E; [discriminate|].
  apply orb_false_iff in E. destruct E as [E E3].
  apply orb_false_iff in E. destruct E as [_ E2].
  apply Nat.ltb_ge in E2, E3.
  destruct (test NOT_A_POSITION p); [discriminate|]. intros _. auto.
Qed.

(** The capture of every position pattern is a run of the title class,
    and every one of them carries the i flag. *)
Lemma position_patterns_capture re :
  In re (body_position_patterns ++ subject_position_patterns) ->
  ignoreCase re = true
  /\ forall b, In b (group_bodies 1 (source re)) ->
       b = plus_lazy title_class \/ b = plus title_class.
Proof.
  intros H.
  assert (C : forallb (fun re =>
              ignoreCase re
              && forallb (fun b =>
                   if regex_eq_dec b (plus_lazy title_class) then true
                   else if regex_eq_dec b (plus title_class) then true
                   else false) (group_bodies 1 (source re)))
            (body_position_patterns ++ subject_position_patterns) = true)
    by (vm_compute; reflexivity).
  rewrite forallb_forall in C. specialize (C re H).
  apply andb_true_iff in C. destruct C as [Ci Cb]. split; [exact Ci|].
  intros b Hb. rewrite forallb_forall in Cb. specialize (Cb b Hb).
  destruct (regex_eq_dec b (plus_lazy title_class)); [now left|].
  destruct (regex_eq_dec b (plus title_class)); [now right|discriminate].
Qed.

Lemma first_position_shape ps text p :
  incl ps (body_position_patterns ++ subject_position_patterns) ->
  first_position ps text = Some p ->
  substring p text /\ trimmed p
  /\ (3 <= List.length p <= 100)%nat
  /\ Forall (fun c => title_char c = true) p
  /\ test NOT_A_POSITION p = false.
Proof.
  intros Hps H. apply first_position_inv in H.
  destruct H as [re [m [g [Hin [He [Hg [-> Hv]]]]]]].
  apply exec_matched in He. destruct He as [[pre [post [Hs _]]] [_ Hc]].
  destruct (Hc 1%nat g Hg) as [Hsub [b [Hb Hl]]].
  destruct (position_patterns_capture (Hps re Hin)) as [Hi Hbs].
  rewrite Hi in Hl.
  assert (Hg_text : substring g text).
  { eapply substring_trans; [exact Hsub|]. now exists pre, post. }
  assert (Hchars : Forall (fun c => title_char c = true) g).
  { destruct (Hbs b Hb) as [-> | ->]; eapply title_run_chars; exact Hl. }
  apply isValidPosition_inv in Hv. destruct Hv as [Hlen Hnot].
  split; [eapply substring_trans; [apply trim_substring | exact Hg_text]|].
  split; [apply trim_trimmed|].
  split; [exact Hlen|].
  split; [|exact Hnot].
  eapply Forall_substring; [apply trim_substring | exact Hchars].
Qed.

(** X1. Whatever [extractPositionFromBody] or
    [extractPositionFromSubject] returns stands in the text it was given,
    has no white space at either end, holds between 3 and 100 code
    units, all of them letters, digits, white space or one of [/,.-], and
    does not begin with one of the words of [NOT_A_POSITION]. *)
Theorem position_candidate_shape (text p : str) :
  extractPositionFromBody text = Some p
  \/ extractPositionFromSubject text = Some p ->
  substring p text /\ trimmed p
  /\ (3 <= List.length p <= 100)%nat
  /\ Forall (fun c => title_char c = true) p
  /\ test NOT_A_POSITION p = false.
Proof.
  intros [H | H]; eapply first_position_shape; try exact H.
  - apply incl_appl, incl_refl.
  - apply incl_appr, incl_refl.
Qed.

Lemma position_candidate_shape_witness :
  extractPositionFromBody Samples.senior_developer_body
    = Some (js "Senior Developer")
  /\ (substring (js "Senior Developer") Samples.senior_developer_body
      /\ trimmed (js "Senior Developer")
      /\ (3 <= List.length (js "Senior Developer") <= 100)%nat
      /\ Forall (fun c => title_char c = true) (js "Senior Developer")
      /\ test NOT_A_POSITION (js "Senior Developer") = false).
Proof.
  split; [vm_compute; reflexivity|].
  apply position_candidate_shape. left. vm_compute. reflexivity.
Defined.

Lemma first_position_truthy ps text p :
  first_position ps text = Some p -> truthy p = true.
Proof.
  intros H. apply first_position_inv in H.
  destruct H as [re [m [g [_ [_ [_ [_ Hv]]]]]]].
  apply isValidPosition_inv in Hv. destruct Hv as [[Hlen _] _].
  destruct p; [simpl in Hlen; lia | reflexivity].
Qed.

(** X2. The position of a record has no white space at either end and
    never begins with one of the words of [NOT_A_POSITION] (a greeting, a
    reply marker, [application], [status] and the like), whichever of
    the three strategies or the default produced it. *)
Theorem extractPosition_clean (email : ParsedEmail) (body : str) :
  trimmed (extractPosition email body)
  /\ test NOT_A_POSITION (extractPosition email body) = false.
Proof.
  unfold extractPosition.
  destruct (extractPositionFromBody body) as [p|] eqn:B.
  - cbn [opt_truthy]. rewrite (first_position_truthy _ _ B).
    destruct (@first_position_shape body_position_patterns body p)
      as [_ [Ht [_ [_ Hn]]]]; auto.
    apply incl_appl, incl_refl.
  - cbn [opt_truthy].
    destruct (extractPositionFromSubject (subject email)) as [p|] eqn:S.
    + cbn [opt_truthy]. rewrite (first_position_truthy _ _ S).
      destruct (@first_position_shape subject_position_patterns
                  (subject email) p) as [_ [Ht [_ [_ Hn]]]]; auto.
      apply incl_appr, incl_refl.
    + cbn [opt_truthy].
      match goal with
      | |- context [if ?c then _ else _] => destruct c eqn:C
      end.
      * apply andb_true_iff in C. destruct C as [_ C].
        apply negb_true_iff in C. split; [apply trim_trimmed | exact C].
      * split; vm_compute; reflexivity.
Qed.

(** X3. [extractPosition] answers with the first candidate there is, the
    one of the body before the one of the subject. *)
Theorem position_strategy_order (email : ParsedEmail) (body p : str) :
  first_some [extractPositionFromBody body;
              extractPositionFromSubject (subject email)] = Some p ->
  extractPosition email body = p.
Proof.
  unfold extractPosition. cbn [first_some].
  destruct (extractPositionFromBody body) as [q|] eqn:B.
  - intros H. injection H as <-. cbn [opt_truthy].
    now rewrite (first_position_truthy _ _ B).
  - cbn [opt_truthy].
    destruct (extractPositionFromSubject (subject email)) as [q|] eqn:S;
      [|discriminate].
    intros H. injection H as <-. cbn [opt_truthy].
    now rewrite (first_position_truthy _ _ S).
Qed.

Lemma position_strategy_order_witness :
  first_some [extractPositionFromBody (body Samples.analyst_subject);
              extractPositionFromSubject (subject Samples.analyst_subject)]
    = Some (js "Data Analyst")
  /\ extractPosition Samples.analyst_subject (body Samples.analyst_subject)
     = js "Data Analyst".
Proof.
  split; [vm_compute; reflexivity|].
  apply position_strategy_order. vm_compute. reflexivity.
Defined.

Import Fields.

(** ** Salary, location, job link *)

Lemma first_match_inv ps text m :
  first_match ps text = Some m ->
  exists re, In re ps /\ exec re text = Some m.
Proof.
  induction ps as [|re ps IH]; simpl; [discriminate|].
  destruct (exec re text) as [m'|] eqn:E.
  - intros H. injection H as <-. exists re. auto.
  - intros H. destruct (IH H) as [re' [Hin He]]. exists re'. auto.
Qed.

Lemma canon_fixed_inv ic c ch :
  isLowerAscii c = false -> isUpperAscii c = false ->
  canon ic ch = canon ic c -> ch = c.
Proof.
  intros L U. unfold canon. destruct ic; [|auto].
  unfold upperChar. rewrite L.
  destruct (isLowerAscii ch) eqn:E; [|auto].
  apply lower_bounds in E. apply not_upper_bounds in U. lia.
Qed.

Lemma lang_amount v :
  lang true amount v ->
  exists d rest, v = 36%N :: d :: rest /\ (isDigit d = true \/ d = 44%N).
Proof.
  change amount
    with (Seq (Chr 36) (Seq (Rep 1 None true (Cls false [CDigit; CChr 44]))
                            Empty)).
  intros H.
  inversion H as [| | | | | | | a b w1 w2 H1 H2 | | | | |]; subst. clear H.
  inversion H1 as [| c ch Hc | | | | | | | | | | |]; subst. clear H1.
  apply canon_fixed_inv in Hc; [|reflexivity|reflexivity]. subst ch.
  inversion H2 as [| | | | | | | a b w3 w4 H3 H4 | | | | |]; subst. clear H2 H4.
  inversion H3 as [| | | | | | | | | | mn mx g r0 Hz
                   | mn mx g r0 w5 w6 Hz H5 H6 |]; subst; clear H3.
  - destruct Hz as [Hz | Hz]; discriminate Hz.
  - inversion H5 as [| | | neg items ch Hc | | | | | | | | |]; subst.
    exists ch. eexists. split; [cbn [app]; reflexivity|].
    unfold class_matches in Hc. cbn [xorb existsb item_matches canon] in Hc.
    apply orb_true_iff in Hc. destruct Hc as [Hc | Hc]; [now left|].
    rewrite orb_false_r in Hc. apply N.eqb_eq in Hc. right.
    symmetry in Hc.
    apply (@canon_fixed_inv true 44 ch) in Hc; [exact Hc | reflexivity..].
Qed.

Lemma salary_patterns_amount re :
  In re salary_patterns ->
  ignoreCase re = true /\ passes_through amount (source re) = true.
Proof.
  intros H.
  assert (C : forallb (fun re => ignoreCase re
                                 && passes_through amount (source re))
                      salary_patterns = true) by (vm_compute; reflexivity).
  rewrite forallb_forall in C. specialize (C re H).
  now apply andb_true_iff in C.
Qed.

Lemma extractSalary_inv text s :
  extractSalary text = Some s ->
  exists re m, In re salary_patterns /\ exec re text = Some m
               /\ s = trim (m0 m).
Proof.
  unfold extractSalary.
  destruct (first_match salary_patterns text) as [m|] eqn:F; [|discriminate].
  cbn [option_map]. intros H. injection H as <-.
  apply first_match_inv in F. destruct F as [re [Hin He]].
  now exists re, m.
Qed.

Lemma exec_substring re text m :
  exec re text = Some m -> substring (m0 m) text.
Proof.
  intros He. apply exec_matched in He.
  destruct He as [[pre [post [Hs _]]] _]. now exists pre, post.
Qed.

Lemma extractSalary_substring text s :
  extractSalary text = Some s -> substring s text.
Proof.
  intros H. apply extractSalary_inv in H. destruct H as [re [m [_ [He ->]]]].
  eapply substring_trans; [apply trim_substring|].
  eapply exec_substring; eauto.
Qed.

(** X4. The salary [extractSalary] returns stands in the text, has no
    white space at either end and holds a dollar sign with a digit or a
    comma right after it. *)
Theorem extractSalary_shape (text s : str) :
  extractSalary text = Some s ->
  substring s text /\ trimmed s /\ has_dollar_amount s.
Proof.
  intros H. split; [now apply extractSalary_substring|].
  apply extractSalary_inv in H. destruct H as [re [m [Hin [He ->]]]].
  split; [apply trim_trimmed|].
  apply exec_matched in He. destruct He as [_ [Hl _]].
  destruct (salary_patterns_amount Hin) as [Hi Hp]. rewrite Hi in Hl.
  destruct (@passes_through_piece _ amount _ _ Hl Hp) as [a [v [b [Hm Hv]]]].
  apply lang_amount in Hv. destruct Hv as [d [rest [-> Hd]]].
  assert (Hws : isWhiteSpace d = false).
  { destruct Hd as [Hd | ->]; [now apply isDigit_no_space | reflexivity]. }
  destruct (@trim_keeps a 36%N [] d (rest ++ b) eq_refl Hws)
    as [a' [b' E]].
  exists a', d, b'. split; [|exact Hd].
  rewrite Hm. cbn [app] in *. exact E.
Qed.

Lemma extractSalary_shape_witness :
  extractSalary Samples2.salary_body = Some (js "$90,000 - $110,000 per year")
  /\ (substring (js "$90,000 - $110,000 per year") Samples2.salary_body
      /\ trimmed (js "$90,000 - $110,000 per year")
      /\ has_dollar_amount (js "$90,000 - $110,000 per year")).
Proof.
  split; [vm_compute; reflexivity|].
  apply extractSalary_shape. vm_compute. reflexivity.
Defined.

(** The first element of a global match is the match of [exec]. *)
Lemma match_global_first re s l :
  match_global re s = Some l ->
  exists m, exec re s = Some m /\ first_piece l = m0 m.
Proof.
  unfold match_global, exec. cbn [match_all_from].
  destruct (search re [] s) as [[x y]|] eqn:E; [|discriminate].
  intros H. injection H as <-. exists (to_match (x, y)). split; reflexivity.
Qed.

Lemma lang_lit ic cs w :
  lang ic (fold_right (fun c r => Seq (Chr c) r) Empty cs) w ->
  List.map (canon ic) w = List.map (canon ic) cs.
Proof.
  revert w. induction cs as [|c cs IH]; intros w H; cbn [fold_right] in H.
  - inversion H. reflexivity.
  - inversion H as [| | | | | | | a b w1 w2 H1 H2 | | | | |]; subst.
    inversion H1 as [| c' ch Hc | | | | | | | | | | |]; subst.
    cbn [app map]. f_equal; [exact Hc | now apply IH].
Qed.

Lemma no_space_sound ic r w :
  lang ic r w -> no_space r = true ->
  Forall (fun c => isWhiteSpace c = false) w.
Proof.
  induction 1; intros Hn; cbn [no_space] in Hn; try discriminate Hn;
    try (constructor; fail).
  - constructor; [|constructor]. apply negb_true_iff in Hn.
    eapply canon_no_space; eauto.
  - destruct neg; [discriminate Hn|]. constructor; [|constructor].
    unfold class_matches in H. cbn [xorb] in H.
    apply existsb_exists in H. destruct H as [it [Hin Hm]].
    rewrite forallb_forall in Hn. specialize (Hn it Hin).
    destruct it as [c | lo hi | | |]; cbn [item_no_space item_matches] in *;
      try discriminate Hn.
    + apply negb_true_iff in Hn. apply N.eqb_eq in Hm.
      symmetry in Hm. eapply canon_no_space; eauto.
    + now apply isDigit_no_space.
    + now apply isWordChar_no_space.
  - apply andb_true_iff in Hn. destruct Hn. apply Forall_app. auto.
  - apply andb_true_iff in Hn. destruct Hn. auto.
  - apply andb_true_iff in Hn. destruct Hn. auto.
  - apply Forall_app. auto.
  - auto.
Qed.

Lemma link_pattern_shape re u :
  In re [urlPattern; atsPattern] ->
  lang (ignoreCase re) (source re) u ->
  same_letters (firstn 4 u) (js "http")
  /\ Forall (fun c => isWhiteSpace c = false) u.
Proof.
  intros Hin Hl. split.
  - assert (E : exists rest, ignoreCase re = true
                  /\ source re = Seq (lit "http") rest).
    { destruct Hin as [<- | [<- | []]]; eexists; split; reflexivity. }
    destruct E as [rest [Ei Es]]. rewrite Ei, Es in Hl.
    inversion Hl as [| | | | | | | a b w1 w2 H1 H2 | | | | |]; subst.
    apply lang_lit in H1. unfold same_letters, toUpperCase.
    assert (Hlen : List.length w1 = 4%nat).
    { apply (f_equal (@List.length N)) in H1. now rewrite !length_map in H1. }
    replace (firstn 4 (w1 ++ w2)) with w1.
    + exact H1.
    + rewrite <- Hlen. rewrite firstn_app, Nat.sub_diag, firstn_all.
      cbn [firstn]. now rewrite app_nil_r.
  - apply (no_space_sound Hl).
    destruct Hin as [<- | [<- | []]]; vm_compute; reflexivity.
Qed.

Lemma extractJobLink_inv text u :
  extractJobLink text = Some u ->
  exists re m, In re [urlPattern; atsPattern] /\ exec re text = Some m
               /\ u = m0 m.
Proof.
  unfold extractJobLink.
  destruct (match_global urlPattern text) as [l|] eqn:E1.
  - intros H. injection H as <-. apply match_global_first in E1.
    destruct E1 as [m [He ->]]. exists urlPattern, m. simpl. auto.
  - destruct (match_global atsPattern text) as [l|] eqn:E2; [|discriminate].
    intros H. injection H as <-. apply match_global_first in E2.
    destruct E2 as [m [He ->]]. exists atsPattern, m. simpl. auto.
Qed.

(** X5. The link [extractJobLink] returns stands in the text, begins
    with [http] in either case and holds no white space. *)
Theorem extractJobLink_shape (text u : str) :
  extractJobLink text = Some u ->
  substring u text
  /\ same_letters (firstn 4 u) (js "http")
  /\ Forall (fun c => isWhiteSpace c = false) u.
Proof.
  intros H. apply extractJobLink_inv in H.
  destruct H as [re [m [Hin [He ->]]]].
  split; [eapply exec_substring; eauto|].
  apply exec_matched in He. destruct He as [_ [Hl _]].
  now apply (@link_pattern_shape re).
Qed.

Lemma extractJobLink_shape_witness :
  extractJobLink Samples2.link_body
    = Some (js "HTTPS://boards.greenhouse.io/acme/job")
  /\ (substring (js "HTTPS://boards.greenhouse.io/acme/job")
                Samples2.link_body
      /\ same_letters
           (firstn 4 (js "HTTPS://boards.greenhouse.io/acme/job"))
           (js "http")
      /\ Forall (fun c => isWhiteSpace c = false)
                (js "HTTPS://boards.greenhouse.io/acme/job")).
Proof.
  split; [vm_compute; reflexivity|].
  apply extractJobLink_shape. vm_compute. reflexivity.
Defined.

Lemma extractLocation_shape text l :
  extractLocation text = Some l -> substring l text /\ trimmed l.
Proof.
  unfold extractLocation.
  destruct (first_match location_patterns text) as [m|] eqn:F;
    [|discriminate].
  cbn [option_map]. intros H. injection H as <-.
  apply first_match_inv in F. destruct F as [re [_ He]].
  apply exec_matched in He. destruct He as [[pre [post [Hs _]]] [_ Hc]].
  assert (Hm : substring (m0 m) text) by now exists pre, post.
  split; [|apply trim_trimmed].
  eapply substring_trans; [apply trim_substring|].
  destruct (group 1 m) as [g|] eqn:G; cbn [opt_truthy].
  - destruct (truthy g); [|exact Hm].
    destruct (Hc 1%nat g G) as [Hg _]. eapply substring_trans; eauto.
  - exact Hm.
Qed.

Lemma or_undefined_some o s : or_undefined o = Some s -> o = Some s.
Proof.
  unfold or_undefined. destruct (opt_truthy o); [auto | discriminate].
Qed.

Lemma parseJobApplication_link tz email c r :
  parseJobApplication tz email c = Ok r ->
  jobLink r = or_undefined (extractJobLink (link_text email)).
Proof.
  unfold parseJobApplication.
  destruct (match c with
            | application_confirmation =>
                bind (generateFollowUpDate tz (date email) 7)
                     (fun d => Ok (Some d))
            | interview_invitation =>
                bind (generateFollowUpDate tz (date email) 1)
                     (fun d => Ok (Some d))
            | _ => Ok None
            end) as [fu|]; [|discriminate].
  cbn [bind].
  destruct (toISOString (Date_parse (date email))) as [iso|]; [|discriminate].
  cbn [bind]. intros H. injection H as <-. reflexivity.
Qed.

(** X6. The record holds no text of its own making in its optional
    fields: a salary range and a location stand in the first 3000 code
    units of the body, a job link in the HTML body when the email has a
    non-empty one and in those 3000 code units otherwise. *)
Theorem optional_fields_from_email tz (email : ParsedEmail)
        (c : EmailCategory) (r : JobApplication) :
  parseJobApplication tz email c = Ok r ->
  (forall s, salaryRange r = Some s ->
             substring s (slice0 3000 (body email)))
  /\ (forall l, location r = Some l ->
                substring l (slice0 3000 (body email)))
  /\ (forall u, jobLink r = Some u -> substring u (link_text email)).
Proof.
  intros H. pose proof (parseJobApplication_link _ _ _ H) as Hj.
  apply parseJobApplication_inv in H.
  destruct H as [fu [iso [_ [_ [_ [_ [_ [_ [Hs [Hl _]]]]]]]]]].
  rewrite Hs, Hl, Hj. repeat split.
  - intros s E. apply or_undefined_some in E.
    now apply extractSalary_substring.
  - intros l E. apply or_undefined_some in E.
    now apply extractLocation_shape in E.
  - intros u E. apply or_undefined_some in E.
    apply extractJobLink_inv in E. destruct E as [re [m [_ [He ->]]]].
    eapply exec_substring; eauto.
Qed.

Lemma optional_fields_from_email_witness :
  exists r,
    parseJobApplication utcHost Samples2.priced_offer offer = Ok r
    /\ ((forall s, salaryRange r = Some s ->
                   substring s (slice0 3000 (body Samples2.priced_offer)))
        /\ (forall l, location r = Some l ->
                      substring l (slice0 3000 (body Samples2.priced_offer)))
        /\ (forall u, jobLink r = Some u ->
                      substring u (link_text Samples2.priced_offer))).
Proof.
  destruct (parseJobApplication utcHost Samples2.priced_offer offer)
    as [r|e] eqn:E.
  - exists r. split; [reflexivity|].
    exact (optional_fields_from_email utcHost Samples2.priced_offer offer E).
  - vm_compute in E. discriminate E.
Defined.

Import Links.

Lemma lang_seq_inv ic a b w :
  lang ic (Seq a b) w ->
  exists w1 w2, w = w1 ++ w2 /\ lang ic a w1 /\ lang ic b w2.
Proof.
  intros H. inversion H as [| | | | | | | a' b' w1 w2 H1 H2 | | | | |]; subst.
  now exists w1, w2.
Qed.

Lemma lang_alt_inv ic a b w :
  lang ic (Alt a b) w -> lang ic a w \/ lang ic b w.
Proof. intros H. inversion H; subst; auto. Qed.

Lemma lang_empty_inv ic w : lang ic Empty w -> w = [].
Proof. intros H. now inversion H. Qed.

Lemma lang_opt_inv ic g r w :
  lang ic (Rep 0 (Some 1) g r) w -> w = [] \/ lang ic r w.
Proof.
  intros H.
  inversion H as [| | | | | | | | | | mn mx g' r0 Hz
                  | mn mx g' r0 w1 w2 Hz H1 H2 |]; subst; [now left|].
  right. cbn [Nat.pred dec_max] in H2.
  inversion H2 as [| | | | | | | | | | mn mx g' r0 Hz'
                   | mn mx g' r0 w3 w4 Hz' H3 H4 |]; subst.
  - now rewrite app_nil_r.
  - discriminate Hz'.
Qed.

Lemma lang_chr_fixed_inv ic c w :
  isLowerAscii c = false -> isUpperAscii c = false ->
  lang ic (Chr c) w -> w = [c].
Proof.
  intros L U H. inversion H as [| c' ch Hc | | | | | | | | | | |]; subst.
  f_equal. eapply canon_fixed_inv; eauto.
Qed.

(** X7. A link found by the job posting pattern ends with one of the
    words job, career, position, apply, opening (in either case), or goes
    on after that word with a slash: a URL in which another code unit
    follows the word, as in [/jobs/4411], is returned cut after the
    word. *)
Theorem job_link_ends_at_keyword (text u : str) :
  exec urlPattern text <> None ->
  extractJobLink text = Some u ->
  ends_at_keyword u.
Proof.
  intros Hex H. unfold extractJobLink in H.
  destruct (match_global urlPattern text) as [l|] eqn:E.
  2:{ exfalso. apply Hex. unfold match_global in E. unfold exec.
      cbn [match_all_from] in E.
      destruct (search urlPattern [] text) as [[x y]|]; [discriminate E|].
      reflexivity. }
  injection H as <-. apply match_global_first in E.
  destruct E as [m [He ->]]. apply exec_matched in He.
  destruct He as [_ [Hl _]].
  change (ignoreCase urlPattern) with true in Hl.
  change (source urlPattern)
    with (Seq (lit "http")
         (Seq (opt (chr "s"))
         (Seq (lit "://")
         (Seq (plus (seq [host_label; chr "."]))
         (Seq host_label
         (Seq (opt (seq [chr "/"; url_tail]))
         (Seq (Alt (lit "job") (Alt (lit "career") (Alt (lit "position")
                (Alt (lit "apply") (lit "opening")))))
         (Seq (opt (Seq (Chr 47) (Seq url_tail Empty))) Empty)))))))) in Hl.
  apply lang_seq_inv in Hl. destruct Hl as [w1 [r1 [-> [_ Hl]]]].
  apply lang_seq_inv in Hl. destruct Hl as [w2 [r2 [-> [_ Hl]]]].
  apply lang_seq_inv in Hl. destruct Hl as [w3 [r3 [-> [_ Hl]]]].
  apply lang_seq_inv in Hl. destruct Hl as [w4 [r4 [-> [_ Hl]]]].
  apply lang_seq_inv in Hl. destruct Hl as [w5 [r5 [-> [_ Hl]]]].
  apply lang_seq_inv in Hl. destruct Hl as [w6 [r6 [-> [_ Hl]]]].
  apply lang_seq_inv in Hl. destruct Hl as [kw [r7 [-> [Hk Hl]]]].
  apply lang_seq_inv in Hl. destruct Hl as [b [r8 [-> [Hb Hl]]]].
  apply lang_empty_inv in Hl. subst r8. rewrite app_nil_r.
  exists (w1 ++ w2 ++ w3 ++ w4 ++ w5 ++ w6), kw, b.
  split; [now rewrite <- !app_assoc|]. split.
  - unfold link_keywords, toUpperCase.
    repeat (apply lang_alt_inv in Hk; destruct Hk as [Hk | Hk]);
      apply lang_lit in Hk; cbn [canon] in Hk.
    + apply Exists_cons_hd. exact Hk.
    + apply Exists_cons_tl, Exists_cons_hd. exact Hk.
    + do 2 apply Exists_cons_tl. apply Exists_cons_hd. exact Hk.
    + do 3 apply Exists_cons_tl. apply Exists_cons_hd. exact Hk.
    + do 4 apply Exists_cons_tl. apply Exists_cons_hd. exact Hk.
  - apply lang_opt_inv in Hb. destruct Hb as [-> | Hb]; [now left|].
    right. apply lang_seq_inv in Hb. destruct Hb as [s1 [s2 [-> [Hs _]]]].
    apply lang_chr_fixed_inv in Hs; [|reflexivity..]. subst s1.
    now exists s2.
Qed.

Lemma job_link_ends_at_keyword_witness :
  (exec urlPattern Samples2.link_body <> None
   /\ extractJobLink Samples2.link_body
      = Some (js "HTTPS://boards.greenhouse.io/acme/job"))
  /\ ends_at_keyword (js "HTTPS://boards.greenhouse.io/acme/job").
Proof.
  split; [split; [vm_compute; discriminate | vm_compute; reflexivity]|].
  apply (@job_link_ends_at_keyword Samples2.link_body);
    [vm_compute; discriminate | vm_compute; reflexivity].
Defined.

(** ** White space in company names *)

Lemma ws_class c : class_matches false false [CSpace] c = isWhiteSpace c.
Proof.
  unfold class_matches. cbn [xorb existsb item_matches].
  apply orb_false_r.
Qed.

Lemma trimStart_length s : (List.length (trimStart s) <= List.length s)%nat.
Proof.
  destruct (trimStart_split s) as [a [Ha _]].
  rewrite Ha at 2. rewrite length_app. lia.
Qed.

Lemma rep_loop_unfold m1 k greedy fuel min max x :
  rep_loop m1 k greedy (S fuel) min max x
  = if max_is_zero max then k x else
    let d := fun y =>
      if Nat.eqb min 0
         && Nat.eqb (List.length (ahead y)) (List.length (ahead x))
      then None
      else rep_loop m1 k greedy fuel (Nat.pred min) (dec_max max) y in
    if negb (Nat.eqb min 0) then m1 x d
    else if greedy then or_else (m1 x d) (fun _ => k x)
    else or_else (k x) (fun _ => m1 x d).
Proof. reflexivity. Qed.

Lemma run_ws_step bef c tl cs k :
  run false false ws (mkState bef (c :: tl) cs) k
  = if isWhiteSpace c then k (mkState (c :: bef) tl cs) else None.
Proof.
  unfold ws. cbn [run]. unfold step_if, advance. cbn [ahead before caps].
  now rewrite ws_class.
Qed.

Lemma run_ws_nil bef cs k : run false false ws (mkState bef [] cs) k = None.
Proof. reflexivity. Qed.

(** The greedy loop of [\s+], past its first iteration: it stops at the
    first code unit that is not white space. *)
Lemma ws_loop fuel : forall bef ah cs,
  (List.length ah < fuel)%nat ->
  exists bef',
    rep_loop (run false false ws) (fun y => Some y) true fuel 0 None
             (mkState bef ah cs)
    = Some (mkState bef' (trimStart ah) cs).
Proof.
  induction fuel as [|fuel IH]; intros bef ah cs Hf; [lia|].
  rewrite rep_loop_unfold. cbn [max_is_zero Nat.eqb negb andb].
  cbv zeta.
  destruct ah as [|c tl].
  - rewrite run_ws_nil. cbn [or_else trimStart]. now exists bef.
  - rewrite run_ws_step. cbn [trimStart].
    destruct (isWhiteSpace c) eqn:W.
    + cbn [ahead List.length].
      replace (Nat.eqb (List.length tl) (S (List.length tl))) with false
        by (symmetry; apply Nat.eqb_neq; lia).
      cbn [Nat.pred dec_max].
      destruct (IH (c :: bef) tl cs) as [bef' E];
        [cbn [List.length] in Hf; lia|].
      rewrite E. cbn [or_else]. now exists bef'.
    + cbn [or_else]. now exists bef.
Qed.

Lemma run_plus_ws bef ah cs :
  match ah with
  | c :: tl =>
      if isWhiteSpace c
      then exists bef',
             run false false (plus ws) (mkState bef ah cs) (fun y => Some y)
             = Some (mkState bef' (trimStart tl) cs)
      else run false false (plus ws) (mkState bef ah cs) (fun y => Some y)
           = None
  | [] => run false false (plus ws) (mkState bef ah cs) (fun y => Some y)
          = None
  end.
Proof.
  unfold plus.
  destruct ah as [|c tl]; [reflexivity|].
  change (run false false (Rep 1 None true ws)
              (mkState bef (c :: tl) cs) (fun y => Some y))
    with (rep_loop (run false false ws) (fun y => Some y) true
                   (S (List.length (c :: tl) + 1)) 1 None
                   (mkState bef (c :: tl) cs)).
  rewrite rep_loop_unfold. cbn [max_is_zero Nat.eqb negb andb]. cbv zeta.
  rewrite run_ws_step. destruct (isWhiteSpace c) eqn:W; [|reflexivity].
  cbn [Nat.pred dec_max]. apply ws_loop. cbn [List.length]. lia.
Qed.

(** A search that fails at the first position goes on from the second. *)
Lemma replace_all_skip re repl f bef c tl :
  run_re re (mkState bef (c :: tl) []) (fun y => Some y) = None ->
  replace_all_from (S f) re repl bef (c :: tl)
  = c :: replace_all_from (S f) re repl (c :: bef) tl.
Proof.
  intros Hr. cbn [replace_all_from search]. rewrite Hr.
  destruct (search re (c :: bef) tl) as [[x y]|] eqn:E; [|reflexivity].
  apply search_inv in E. destruct E as [sk [Ha _]].
  assert (Hlen : (List.length (ahead x) <= List.length tl)%nat).
  { apply (f_equal (@List.length N)) in Ha. rewrite length_app in Ha. lia. }
  cbn [List.length].
  replace (S (List.length tl) - List.length (ahead x))%nat
    with (S (List.length tl - List.length (ahead x))) by lia.
  reflexivity.
Qed.

Lemma collapse_ws_trim s : collapse_ws true s = collapse_ws false (trimStart s).
Proof.
  induction s as [|c s IH]; [reflexivity|].
  cbn [collapse_ws trimStart]. destruct (isWhiteSpace c) eqn:W.
  - exact IH.
  - cbn [collapse_ws]. now rewrite W.
Qed.

(** [s.replace(/\s+/g, " ")] turns every run of white space into one
    space. *)
Lemma replace_ws_collapse n : forall ah,
  (List.length ah <= n)%nat ->
  forall bef fuel,
    (List.length ah < fuel)%nat ->
    replace_all_from fuel (re_g (plus ws)) (js " ") bef ah
    = collapse_ws false ah.
Proof.
  induction n as [|n IH]; intros ah Hn bef fuel Hf.
  - destruct ah; [|simpl in Hn; lia].
    destruct fuel as [|f]; [lia|]. reflexivity.
  - destruct fuel as [|f]; [lia|].
    destruct ah as [|c tl]; [reflexivity|].
    cbn [List.length] in Hn, Hf.
    pose proof (run_plus_ws bef (c :: tl) []) as R. cbn beta iota in R.
    destruct (isWhiteSpace c) eqn:W.
    + destruct R as [bef' R].
      cbn [replace_all_from search]. unfold run_re.
      cbn [ignoreCase multiline source re_g]. rewrite R.
      cbn [ahead before List.length]. rewrite Nat.sub_diag. cbn [firstn app].
      unfold is_empty_match. cbn [ahead List.length].
      pose proof (trimStart_length tl) as Ht.
      replace (Nat.eqb (S (List.length tl)) (List.length (trimStart tl)))
        with false by (symmetry; apply Nat.eqb_neq; lia).
      rewrite IH by lia.
      cbn [collapse_ws]. rewrite W. now rewrite collapse_ws_trim.
    + rewrite replace_all_skip by exact R.
      rewrite IH by lia. cbn [collapse_ws]. now rewrite W.
Qed.

Lemma collapse_ws_head s :
  match collapse_ws true s with
  | d :: _ => isWhiteSpace d = false
  | [] => True
  end.
Proof.
  induction s as [|c s IH]; [exact I|].
  cbn [collapse_ws]. destruct (isWhiteSpace c) eqn:W; [exact IH | exact W].
Qed.

Lemma collapse_ws_single_spaced s b : single_spaced (collapse_ws b s) = true.
Proof.
  revert b. induction s as [|c s IH]; intros b; [reflexivity|].
  cbn [collapse_ws]. destruct (isWhiteSpace c) eqn:W.
  - destruct b; [apply IH|].
    cbn [single_spaced]. rewrite IH, andb_true_r.
    change (isWhiteSpace 32) with true. cbn iota.
    pose proof (collapse_ws_head s) as Hh.
    destruct (collapse_ws true s) as [|d t]; [reflexivity|].
    now rewrite Hh.
  - cbn [single_spaced]. rewrite W. apply IH.
Qed.

Lemma single_spaced_suffix a b :
  single_spaced (a ++ b) = true -> single_spaced b = true.
Proof.
  induction a as [|c a IH]; [auto|].
  cbn [app single_spaced]. intros H. apply andb_true_iff in H. tauto.
Qed.

Lemma single_spaced_prefix a b :
  single_spaced (a ++ b) = true -> single_spaced a = true.
Proof.
  induction a as [|c a IH]; [reflexivity|].
  cbn [app single_spaced]. intros H. apply andb_true_iff in H.
  destruct H as [H1 H2]. rewrite (IH H2), andb_true_r.
  destruct (isWhiteSpace c); [|reflexivity].
  apply andb_true_iff in H1. destruct H1 as [H1 H3]. rewrite H1.
  destruct a; [reflexivity | exact H3].
Qed.

Lemma single_spaced_substring a b :
  substring a b -> single_spaced b = true -> single_spaced a = true.
Proof.
  intros [p [q ->]] H. apply single_spaced_suffix in H.
  now apply single_spaced_prefix in H.
Qed.

Lemma cleanCompanyName_clean name n :
  cleanCompanyName name = Some n ->
  n <> [] /\ trimmed n /\ single_spaced n = true
  /\ arr_includes (toLowerCase n) bad_names = false.
Proof.
  unfold cleanCompanyName.
  set (t := replace LEGAL_SUFFIXES [] (replace SENDER_SUFFIXES [] name)).
  destruct (arr_includes (toLowerCase (trim (replace (re_g (plus ws))
              (js " ") t))) bad_names) eqn:B; [discriminate|].
  unfold or_undefined, opt_truthy.
  destruct (truthy (trim (replace (re_g (plus ws)) (js " ") t))) eqn:T;
    [|discriminate].
  intros H. injection H as <-.
  split; [now apply truthy_nonempty|].
  split; [apply trim_trimmed|]. split; [|exact B].
  eapply single_spaced_substring; [apply trim_substring|].
  unfold replace. cbn [global re_g].
  rewrite replace_ws_collapse with (n := List.length t) by lia.
  apply collapse_ws_single_spaced.
Qed.

Lemma first_company_clean ps text n :
  first_company ps text = Some n ->
  exists g, cleanCompanyName g = Some n.
Proof.
  induction ps as [|re ps IH]; cbn [first_company]; [discriminate|].
  destruct (exec re text) as [m|]; [|exact IH].
  destruct (group 1 m) as [g|].
  - destruct (valid_company (cleanCompanyName g)) eqn:V; [|exact IH].
    intros H. now exists g.
  - cbn [valid_company]. exact IH.
Qed.

Lemma extractCompanyFromSender_clean from n :
  extractCompanyFromSender from = Some n ->
  exists g, cleanCompanyName g = Some n.
Proof.
  unfold extractCompanyFromSender.
  destruct (exec SENDER_NAME from) as [m|]; [|discriminate].
  destruct (group 1 m) as [g|]; [|discriminate].
  destruct (test GENERIC_SENDER_NAMES (trim g)); [discriminate|].
  destruct (valid_company (cleanCompanyName (trim g))); [|discriminate].
  intros H. now exists (trim g).
Qed.

(** X8. A company name found in the body, in the subject or in the
    display name of the sender is not empty, has no white space at
    either end, holds no white space other than single spaces between
    its words (no tab, no line break, no run of spaces), and is not one
    of the stop words of [cleanCompanyName] in any case. *)
Theorem company_candidate_clean (body subject from n : str) :
  extractCompanyFromBody body = Some n
  \/ extractCompanyFromSubject subject = Some n
  \/ extractCompanyFromSender from = Some n ->
  n <> [] /\ trimmed n /\ single_spaced n = true
  /\ arr_includes (toLowerCase n) bad_names = false.
Proof.
  intros H.
  assert (E : exists g, cleanCompanyName g = Some n).
  { destruct H as [H | [H | H]].
    - now apply first_company_clean in H.
    - now apply first_company_clean in H.
    - now apply extractCompanyFromSender_clean in H. }
  destruct E as [g E]. now apply cleanCompanyName_clean in E.
Qed.

Lemma company_candidate_clean_witness :
  extractCompanyFromSender Samples3.spaced_sender
    = Some (js "Initech Global")
  /\ (js "Initech Global" <> []
      /\ trimmed (js "Initech Global")
      /\ single_spaced (js "Initech Global") = true
      /\ arr_includes (toLowerCase (js "Initech Global")) bad_names = false).
Proof.
  split; [vm_compute; reflexivity|].
  apply (@company_candidate_clean [] [] Samples3.spaced_sender).
  right. right. vm_compute. reflexivity.
Defined.

Import CaseBlind.

(** ** The i flag *)

Lemma item_matches_up a b it :
  upperChar a = upperChar b ->
  item_matches true a it = item_matches true b it.
Proof.
  intros H. destruct it as [c | lo hi | | |]; cbn [item_matches canon andb].
  - now rewrite H.
  - destruct (@up_eq_cases a b H) as [-> | [[Hl ->] | [Hl ->]]];
      [reflexivity | |];
      pose proof Hl as Hb; apply lower_bounds in Hb.
    + assert (U : isUpperAscii (a - 32) = true) by (apply upper_bounds; lia).
      assert (L' : isLowerAscii (a - 32) = false)
        by (apply not_lower_bounds; lia).
      assert (U' : isUpperAscii a = false) by (apply not_upper_bounds; lia).
      unfold upperChar, lowerAscii. rewrite Hl, U, L', U'.
      replace (a - 32 + 32)%N with a by lia.
      destruct (in_range lo hi a), (in_range lo hi (a - 32)); reflexivity.
    + assert (U : isUpperAscii (b - 32) = true) by (apply upper_bounds; lia).
      assert (L' : isLowerAscii (b - 32) = false)
        by (apply not_lower_bounds; lia).
      assert (U' : isUpperAscii b = false) by (apply not_upper_bounds; lia).
      unfold upperChar, lowerAscii. rewrite Hl, U, L', U'.
      replace (b - 32 + 32)%N with b by lia.
      destruct (in_range lo hi b), (in_range lo hi (b - 32)); reflexivity.
  - now apply isWhiteSpace_up.
  - now apply isDigit_up.
  - now apply isWordChar_up.
Qed.

Lemma class_matches_up neg items a b :
  upperChar a = upperChar b ->
  class_matches true neg items a = class_matches true neg items b.
Proof.
  intros H. unfold class_matches. f_equal.
  induction items as [|it items IH]; [reflexivity|].
  cbn [existsb]. now rewrite IH, (@item_matches_up a b it H).
Qed.

Lemma same_case_length x y :
  same_case_state x y -> List.length (ahead x) = List.length (ahead y).
Proof.
  intros [H _]. apply (f_equal (@List.length N)) in H.
  unfold toUpperCase in H. now rewrite !length_map in H.
Qed.

Lemma same_case_set_cap n s t x y :
  same_case_state x y -> same_case_state (set_cap n s x) (set_cap n t y).
Proof. intros H. exact H. Qed.

(** A test on the next code unit that is blind to the case goes the
    same way from two states that differ in case only. *)
Lemma step_if_sim ok x y k k' :
  (forall a b, upperChar a = upperChar b -> ok a = ok b) ->
  same_case_state x y ->
  (forall u v, same_case_state u v -> same_outcome (k u) (k' v)) ->
  same_outcome (step_if ok x k) (step_if ok y k').
Proof.
  intros Hok [Ha Hb] Hk. unfold step_if, advance.
  destruct (ahead x) as [|a ta] eqn:Ex, (ahead y) as [|b tb] eqn:Ey;
    try discriminate Ha; [exact I|].
  cbn [toUpperCase map] in Ha. injection Ha as Hab Ht.
  rewrite (Hok a b Hab). destruct (ok b); [|exact I].
  apply Hk. split; cbn [ahead before]; [exact Ht|].
  cbn [toUpperCase map]. unfold toUpperCase in Hb. now rewrite Hab, Hb.
Qed.

Lemma head_sim (p : N -> bool) (s t : str) :
  (forall a b, upperChar a = upperChar b -> p a = p b) ->
  toUpperCase s = toUpperCase t ->
  match s with c :: _ => p c | [] => false end
  = match t with c :: _ => p c | [] => false end.
Proof.
  intros Hp H. destruct s as [|a s], t as [|b t]; try discriminate H;
    [reflexivity|].
  injection H as Hab _. now apply Hp.
Qed.

Lemma rep_loop_sim (m1 m1' : MState -> (MState -> option MState)
                                 -> option MState) k k' greedy :
  (forall x y c c',
     same_case_state x y ->
     (forall u v, same_case_state u v -> same_outcome (c u) (c' v)) ->
     same_outcome (m1 x c) (m1' y c')) ->
  (forall u v, same_case_state u v -> same_outcome (k u) (k' v)) ->
  forall fuel min max x y,
    same_case_state x y ->
    same_outcome (rep_loop m1 k greedy fuel min max x)
                 (rep_loop m1' k' greedy fuel min max y).
Proof.
  intros Hm Hk. induction fuel as [|fuel IH]; intros min max x y Hxy;
    [exact I|].
  rewrite !rep_loop_unfold. cbv zeta.
  destruct (max_is_zero max); [now apply Hk|].
  assert (Hd : forall u v, same_case_state u v ->
    same_outcome
      (if Nat.eqb min 0
          && Nat.eqb (List.length (ahead u)) (List.length (ahead x))
       then None
       else rep_loop m1 k greedy fuel (Nat.pred min) (dec_max max) u)
      (if Nat.eqb min 0
          && Nat.eqb (List.length (ahead v)) (List.length (ahead y))
       then None
       else rep_loop m1' k' greedy fuel (Nat.pred min) (dec_max max) v)).
  { intros u v Huv.
    rewrite (@same_case_length u v Huv), (@same_case_length x y Hxy).
    destruct (Nat.eqb min 0
              && Nat.eqb (List.length (ahead v)) (List.length (ahead y)));
      [exact I | now apply IH]. }
  pose proof (Hm x y _ _ Hxy Hd) as H1.
  pose proof (Hk x y Hxy) as H2.
  destruct (negb (Nat.eqb min 0)); [exact H1|].
  unfold or_else. destruct greedy.
  - destruct (m1 x _), (m1' y _); try contradiction; [exact H1 | exact H2].
  - destruct (k x), (k' y); try contradiction; [exact H2 | exact H1].
Qed.

(** Under the i flag the matcher goes the same way on two inputs that
    differ in the case of ASCII letters only. *)
Lemma run_sim ml r : forall x y k k',
  same_case_state x y ->
  (forall u v, same_case_state u v -> same_outcome (k u) (k' v)) ->
  same_outcome (run true ml r x k) (run true ml r y k').
Proof.
  induction r as [| c | | neg items | | | | a IHa b IHb | a IHa b IHb
                 | min max greedy r IH | n r IH]; intros x y k k' Hxy Hk;
    cbn [run].
  - now apply Hk.
  - apply step_if_sim; auto. intros a b H. cbn [canon]. now rewrite H.
  - apply step_if_sim; auto. intros a b H.
    now rewrite (@isLineTerminator_up a b H).
  - apply step_if_sim; auto. intros a b H. now apply class_matches_up.
  - assert (E : at_bol ml x = at_bol ml y).
    { unfold at_bol. destruct Hxy as [_ Hb].
      destruct (before x) as [|a s], (before y) as [|b t];
        try discriminate Hb; [reflexivity|].
      injection Hb as Hab _. now rewrite (@isLineTerminator_up a b Hab). }
    rewrite E. destruct (at_bol ml y); [now apply Hk | exact I].
  - assert (E : at_eol ml x = at_eol ml y).
    { unfold at_eol. destruct Hxy as [Ha _].
      destruct (ahead x) as [|a s], (ahead y) as [|b t];
        try discriminate Ha; [reflexivity|].
      injection Ha as Hab _. now rewrite (@isLineTerminator_up a b Hab). }
    rewrite E. destruct (at_eol ml y); [now apply Hk | exact I].
  - assert (E1 : word_before x = word_before y).
    { unfold word_before. destruct Hxy as [_ Hb].
      apply head_sim; [apply isWordChar_up | exact Hb]. }
    assert (E2 : word_ahead x = word_ahead y).
    { unfold word_ahead. destruct Hxy as [Ha _].
      apply head_sim; [apply isWordChar_up | exact Ha]. }
    rewrite E1, E2.
    destruct (xorb (word_before y) (word_ahead y)); [now apply Hk | exact I].
  - apply IHa; auto.
  - unfold or_else.
    pose proof (IHa x y k k' Hxy Hk) as H1.
    pose proof (IHb x y k k' Hxy Hk) as H2.
    destruct (run true ml a x k), (run true ml a y k');
      try contradiction; [exact H1 | exact H2].
  - rewrite (@same_case_length x y Hxy). apply rep_loop_sim; auto.
  - apply IH; [exact Hxy|]. intros u v Huv. apply Hk.
    now apply same_case_set_cap.
Qed.

Lemma search_sim re :
  ignoreCase re = true ->
  forall ah ah' bef bef',
    toUpperCase ah = toUpperCase ah' ->
    toUpperCase bef = toUpperCase bef' ->
    (search re bef ah = None <-> search re bef' ah' = None).
Proof.
  intros Hi. induction ah as [|c tl IH]; intros ah' bef bef' Ha Hb.
  - destruct ah' as [|c' tl']; [|discriminate Ha].
    cbn [search]. unfold run_re. rewrite Hi.
    pose proof (@run_sim (multiline re) (source re)
                  (mkState bef [] []) (mkState bef' [] [])
                  (fun y => Some y) (fun y => Some y)) as S.
    destruct (run true (multiline re) (source re) (mkState bef [] []) _),
             (run true (multiline re) (source re) (mkState bef' [] []) _);
      try (split; intros; discriminate); try tauto;
      exfalso; apply S; try (split; assumption); intros u v Huv; exact Huv.
  - destruct ah' as [|c' tl']; [discriminate Ha|].
    cbn [search]. unfold run_re. rewrite Hi.
    pose proof (@run_sim (multiline re) (source re)
                  (mkState bef (c :: tl) []) (mkState bef' (c' :: tl') [])
                  (fun y => Some y) (fun y => Some y)) as S.
    cbn [toUpperCase map] in Ha. injection Ha as Hc Ht.
    assert (Hrec : search re (c :: bef) tl = None
                   <-> search re (c' :: bef') tl' = None).
    { apply IH; [exact Ht|]. cbn [toUpperCase map].
      unfold toUpperCase in Hb. now rewrite Hc, Hb. }
    destruct (run true (multiline re) (source re)
                  (mkState bef (c :: tl) []) _),
             (run true (multiline re) (source re)
                  (mkState bef' (c' :: tl') []) _);
      try (split; intros; discriminate); try exact Hrec;
      exfalso; apply S;
      try (split; cbn [ahead before toUpperCase map];
           [unfold toUpperCase in Ht; now rewrite Hc, Ht | assumption]);
      intros u v Huv; exact Huv.
Qed.

Lemma test_sim re s t :
  ignoreCase re = true -> same_letters s t -> test re s = test re t.
Proof.
  intros Hi H. unfold test.
  pose proof (@search_sim re Hi s t [] [] H eq_refl) as S.
  destruct (search re [] s), (search re [] t); try reflexivity.
  - destruct S as [_ S]. discriminate (S eq_refl).
  - destruct S as [S _]. discriminate (S eq_refl).
Qed.

Lemma category_patterns_ignore_case g p :
  In g CATEGORY_PATTERNS -> In p (patterns g) -> ignoreCase p = true.
Proof.
  intros Hg Hp.
  assert (C : forallb (fun g => forallb ignoreCase (patterns g))
                      CATEGORY_PATTERNS = true) by (vm_compute; reflexivity).
  rewrite forallb_forall in C. specialize (C g Hg).
  rewrite forallb_forall in C. exact (C p Hp).
Qed.

Lemma classify_loop_sim gs s t :
  incl gs CATEGORY_PATTERNS -> same_letters s t ->
  classify_loop gs s = classify_loop gs t.
Proof.
  intros Hin H. induction gs as [|g gs IH]; [reflexivity|].
  cbn [classify_loop].
  assert (E : some_matches s (patterns g) = some_matches t (patterns g)).
  { unfold some_matches.
    assert (Hp : forall p, In p (patterns g) -> ignoreCase p = true).
    { intros p Hp. eapply category_patterns_ignore_case; eauto.
      apply Hin. now left. }
    induction (patterns g) as [|p ps IHp]; [reflexivity|].
    cbn [existsb]. rewrite IHp by (intros q Hq; apply Hp; now right).
    rewrite (@test_sim p s t); [reflexivity | apply Hp; now left | exact H]. }
  rewrite E. rewrite IH; [reflexivity|].
  intros q Hq. apply Hin. now right.
Qed.

(** X9. Classification is blind to the case of ASCII letters: two
    emails whose subjects and bodies differ in that case only get the
    same category, and [shouldProcess] gives the same answer for
    both. *)
Theorem classification_ignores_case (e1 e2 : ParsedEmail) :
  same_letters (subject e1) (subject e2) ->
  same_letters (body e1) (body e2) ->
  classifyEmail e1 = classifyEmail e2
  /\ shouldProcess e1 = shouldProcess e2.
Proof.
  intros Hs Hb.
  assert (E : classifyEmail e1 = classifyEmail e2).
  { unfold classifyEmail. apply classify_loop_sim; [apply incl_refl|].
    unfold same_letters, email_text, toUpperCase in *.
    now rewrite !map_app, Hs, Hb. }
  split; [exact E|]. unfold shouldProcess. now rewrite E.
Qed.

Lemma classification_ignores_case_witness :
  (same_letters (subject shouting_offer) (subject quiet_offer)
   /\ same_letters (body shouting_offer) (body quiet_offer))
  /\ (classifyEmail shouting_offer = classifyEmail quiet_offer
      /\ shouldProcess shouting_offer = shouldProcess quiet_offer).
Proof.
  split; [split; vm_compute; reflexivity|].
  apply classification_ignores_case; vm_compute; reflexivity.
Defined.

Import Phrases.

(** ** What is processed *)

Lemma category_patterns_known g :
  In g CATEGORY_PATTERNS -> category g <> unknown.
Proof.
  intros H. cbn [CATEGORY_PATTERNS In] in H.
  repeat (destruct H as [<- | H]; [discriminate|]). destruct H.
Qed.

Lemma classify_loop_unknown text : forall gs,
  (forall g, In g gs -> category g <> unknown) ->
  classify_loop gs text = unknown ->
  forall g, In g gs -> some_matches text (patterns g) = false.
Proof.
  induction gs as [|h gs IH]; intros Hk H g Hin; [destruct Hin|].
  cbn [classify_loop] in H.
  destruct (some_matches text (patterns h)) eqn:E.
  - exfalso. apply (Hk h); [now left | exact H].
  - destruct Hin as [<- | Hin]; [exact E|].
    apply IH; auto. intros g' Hg'. apply Hk. now right.
Qed.

Lemma classify_loop_some text : forall gs,
  classify_loop gs text <> unknown ->
  exists g, In g gs /\ some_matches text (patterns g) = true.
Proof.
  induction gs as [|h gs IH]; cbn [classify_loop]; intros H.
  - now elim H.
  - destruct (some_matches text (patterns h)) eqn:M.
    + exists h. split; [now left | exact M].
    + destruct (IH H) as [g [Hg Hm]]. exists g. split; [now right | exact Hm].
Qed.

(** X10. [shouldProcess] skips an email exactly when no pattern of the
    table matches its subject and body: it answers true when, and only
    when, some pattern of some group matches. *)
Theorem shouldProcess_iff_some_pattern (email : ParsedEmail) :
  shouldProcess email = true
  <-> exists g p, In g CATEGORY_PATTERNS /\ In p (patterns g)
                  /\ test p (email_text email) = true.
Proof.
  unfold shouldProcess, classifyEmail. split.
  - intros H.
    destruct (@classify_loop_some (email_text email) CATEGORY_PATTERNS)
      as [g [Hg Hm]].
    + intros E. rewrite E in H. discriminate H.
    + apply some_matches_spec in Hm. destruct Hm as [p [Hp Ht]].
      now exists g, p.
  - intros [g [p [Hg [Hp Ht]]]].
    destruct (classify_loop CATEGORY_PATTERNS (email_text email)) eqn:E;
      try reflexivity.
    assert (Hm : some_matches (email_text email) (patterns g) = true)
      by (apply some_matches_spec; now exists p).
    rewrite (@classify_loop_unknown (email_text email) CATEGORY_PATTERNS
               category_patterns_known E g Hg) in Hm.
    discriminate Hm.
Qed.

(** A literal pattern matches wherever the text spells it. *)
Lemma run_lit_complete ic ml w : forall v post bef cs k,
  List.map (canon ic) v = List.map (canon ic) w ->
  run ic ml (fold_right (fun c r => Seq (Chr c) r) Empty w)
      (mkState bef (v ++ post) cs) k
  = k (mkState (rev v ++ bef) post cs).
Proof.
  induction w as [|c w IH]; intros v post bef cs k H.
  - destruct v; [reflexivity | discriminate H].
  - destruct v as [|a v]; [discriminate H|].
    cbn [map] in H. injection H as Ha Hv.
    cbn [fold_right run app]. unfold step_if, advance. cbn [ahead before caps].
    rewrite Ha, N.eqb_refl. rewrite IH by exact Hv.
    cbn [rev]. now rewrite <- app_assoc.
Qed.

(** A pattern that matches somewhere is found by the search. *)
Lemma search_complete re : forall pre bef rest,
  run_re re (mkState (rev pre ++ bef) rest []) (fun y => Some y) <> None ->
  search re bef (pre ++ rest) <> None.
Proof.
  induction pre as [|c pre IH]; intros bef rest H.
  - cbn [rev app] in *.
    destruct rest as [|d rest]; cbn [search];
      destruct (run_re re _ _); try discriminate; now elim H.
  - cbn [app search].
    destruct (run_re re (mkState bef (c :: pre ++ rest) []) _);
      [discriminate|].
    apply IH. cbn [rev] in H. now rewrite <- app_assoc in H.
Qed.

Lemma test_phrase w v s :
  substring v s -> same_letters v w -> test (phrase w) s = true.
Proof.
  intros [pre [post ->]] H. unfold test.
  destruct (search (phrase w) [] (pre ++ v ++ post)) eqn:E; [reflexivity|].
  exfalso. revert E. apply search_complete.
  unfold run_re, phrase. cbn [ignoreCase multiline source re_i].
  rewrite run_lit_complete by exact H. discriminate.
Qed.

(** X11. An email whose subject and body spell, in upper or lower
    case, one of the phrases that the table lists as they are (such as
    [unfortunately] or [phone screen]) is never skipped. *)
Theorem phrase_is_processed (email : ParsedEmail) (g : PatternGroup)
        (w v : str) :
  In g CATEGORY_PATTERNS ->
  In (phrase w) (patterns g) ->
  substring v (email_text email) ->
  same_letters v w ->
  shouldProcess email = true /\ classifyEmail email <> unknown.
Proof.
  intros Hg Hp Hv Hw.
  assert (Ht : test (phrase w) (email_text email) = true)
    by (eapply test_phrase; eauto).
  assert (Hm : some_matches (email_text email) (patterns g) = true)
    by (apply some_matches_spec; now exists (phrase w)).
  assert (Hc : classifyEmail email <> unknown).
  { unfold classifyEmail. intros E.
    rewrite (@classify_loop_unknown (email_text email) CATEGORY_PATTERNS
               category_patterns_known E g Hg) in Hm.
    discriminate Hm. }
  split; [|exact Hc]. unfold shouldProcess.
  destruct (classifyEmail email); try reflexivity. now elim Hc.
Qed.

Lemma phrase_is_processed_witness :
  shouldProcess shouted_rejection = true
  /\ classifyEmail shouted_rejection <> unknown.
Proof.
  apply (@phrase_is_processed shouted_rejection
           (mkGroup rejection
              [ re_i (lit "unfortunately");
                re_i (lit "not moving forward");
                re_i (lit "other candidates");
                re_i (lit "position has been filled");
                re_i (lit "decided not to proceed");
                re_i (lit "will not be moving");
                re_i (lit "not be able to offer");
                re_i (lit "pursue other candidates");
                re_i (lit "after careful consideration");
                re_i (lit "regret to inform");
                re_i (lit "won't be moving forward") ])
           (js "unfortunately") (js "UNFORTUNATELY")).
  - cbn [CATEGORY_PATTERNS In]. auto.
  - cbn [patterns In]. left. reflexivity.
  - exists (js "Hello "), (js " we have nothing for you."). reflexivity.
  - reflexivity.
Defined.

(** ** Sender headers *)

Lemma lang_In_chr ic r w c :
  isLowerAscii c = false -> isUpperAscii c = false ->
  passes_through (Chr c) r = true -> lang ic r w -> In c w.
Proof.
  intros L U Hp Hl.
  destruct (@passes_through_piece ic (Chr c) r w Hl Hp) as [a [v [b [-> Hv]]]].
  apply lang_chr_fixed_inv in Hv; auto. subst v.
  apply in_or_app. right. now left.
Qed.

Lemma exec_needs_chr re s m c :
  isLowerAscii c = false -> isUpperAscii c = false ->
  passes_through (Chr c) (source re) = true ->
  exec re s = Some m -> In c s.
Proof.
  intros L U Hp He. pose proof (exec_substring _ _ He) as Hs.
  apply exec_matched in He. destruct He as [_ [Hl _]].
  eapply substring_In; [exact Hs|].
  eapply lang_In_chr; eauto.
Qed.

Lemma sender_needs_bracket from :
  ~ In 60%N from -> extractCompanyFromSender from = None.
Proof.
  intros H. unfold extractCompanyFromSender.
  destruct (exec SENDER_NAME from) as [m|] eqn:E; [|reflexivity].
  exfalso. apply H.
  apply (@exec_needs_chr SENDER_NAME from m 60%N); auto.
Qed.

Lemma domain_needs_at from :
  ~ In 64%N from -> extractCompanyFromDomain from = None.
Proof.
  intros H. unfold extractCompanyFromDomain.
  destruct (exec DOMAIN from) as [m|] eqn:E; [|reflexivity].
  exfalso. apply H.
  apply (@exec_needs_chr DOMAIN from m 64%N); auto.
Qed.



(** ** Names made from the domain *)

Lemma lowerChar_not_upper x : isUpperAscii (lowerChar x) = false.
Proof.
  unfold lowerChar, lowerAscii.
  destruct (N.eqb_spec x 8490) as [->|Hx]; [reflexivity|].
  destruct (isUpperAscii x) eqn:U.
  - apply upper_bounds in U. apply not_upper_bounds. lia.
  - exact U.
Qed.

Lemma toLowerCase_not_upper s :
  Forall (fun c => isUpperAscii c = false) (toLowerCase s).
Proof.
  induction s as [|c s IH]; cbn [toLowerCase map]; constructor;
    [apply lowerChar_not_upper | exact IH].
Qed.

Lemma upperChar_not_lower x : isLowerAscii (upperChar x) = false.
Proof.
  unfold upperChar. destruct (isLowerAscii x) eqn:L; [|exact L].
  apply lower_bounds in L. apply not_lower_bounds. lia.
Qed.



(** ** The ISO form of a date read back *)

Section IsoFacts.
Local Open Scope Z_scope.

Lemma isLeapYear_period y k : isLeapYear (y + k * 400) = isLeapYear y.
Proof.
  unfold isLeapYear.
  replace ((y + k * 400) mod 4) with (y mod 4)
    by (Z.div_mod_to_equations; lia).
  replace ((y + k * 400) mod 100) with (y mod 100)
    by (Z.div_mod_to_equations; lia).
  replace ((y + k * 400) mod 400) with (y mod 400)
    by (Z.div_mod_to_equations; lia).
  reflexivity.
Qed.

(** The calendar date of a day number is a date of the calendar. *)
Lemma civil_valid z :
  let '(y, m, d) := civil_from_days z in
  1 <= m <= 12 /\ 1 <= d <= DaysInMonth y m.
Proof.
  unfold civil_from_days. cbv zeta.
  remember (z + 719468) as z' eqn:Hz'.
  remember (z' / 146097) as era eqn:Hera.
  remember (z' - era * 146097) as doe eqn:Hdoe'.
  assert (Hdoe : 0 <= doe < 146097)
    by (subst doe era; Z.div_mod_to_equations; lia).
  remember ((doe - doe / 1460 + doe / 36524 - doe / 146096) / 365)
    as yoe eqn:Hyoe'.
  assert (Hyoe : 0 <= yoe < 400)
    by (subst yoe; Z.div_mod_to_equations; lia).
  remember (doe - (365 * yoe + yoe / 4 - yoe / 100)) as doy eqn:Hdoy'.
  assert (Hdoy : 0 <= doy < 366)
    by (subst doy yoe; Z.div_mod_to_equations; lia).
  assert (Hleap : doy = 365 -> isLeapYear (yoe + 1) = true).
  { intros E. unfold isLeapYear.
    assert (H4 : (yoe + 1) mod 4 = 0)
      by (subst doy yoe; Z.div_mod_to_equations; lia).
    assert (H100 : (yoe + 1) mod 100 = 0 -> (yoe + 1) mod 400 = 0)
      by (subst doy yoe; Z.div_mod_to_equations; lia).
    rewrite H4. cbn [Z.eqb andb].
    destruct (Z.eqb_spec ((yoe + 1) mod 100) 0) as [E1|E1].
    - rewrite (H100 E1). reflexivity.
    - reflexivity. }
  remember ((5 * doy + 2) / 153) as mp eqn:Hmp'.
  assert (Hmp : 0 <= mp < 12)
    by (subst mp; Z.div_mod_to_equations; lia).
  replace (yoe + era * 400 + 1) with (yoe + 1 + era * 400) by lia.
  assert (Hd31 : 1 <= doy - (153 * mp + 2) / 5 + 1 <= 31)
    by (clear Hleap; subst mp; Z.div_mod_to_equations; lia).
  assert (Hd30 : mp = 1 \/ mp = 3 \/ mp = 6 \/ mp = 8 ->
                 doy - (153 * mp + 2) / 5 + 1 <= 30)
    by (clear Hleap; subst mp; Z.div_mod_to_equations; lia).
  assert (Hd29 : mp = 11 -> doy - (153 * mp + 2) / 5 + 1 <= 29
                            /\ (doy <> 365 ->
                                doy - (153 * mp + 2) / 5 + 1 <= 28))
    by (clear Hleap; subst mp; Z.div_mod_to_equations; lia).
  clear Hmp' Hdoy' Hyoe' Hdoe' Hera Hz'.
  set (d := doy - (153 * mp + 2) / 5 + 1) in *.
  destruct (Z.ltb_spec mp 10) as [L|L].
  - split; [lia|]. split; [lia|].
    destruct (Z.leb_spec (mp + 3) 2) as [L2|L2]; [lia|].
    unfold DaysInMonth.
    destruct (Z.eqb_spec (mp + 3) 2) as [E2|E2]; [lia|].
    destruct (Z.eqb_spec (mp + 3) 4), (Z.eqb_spec (mp + 3) 6),
      (Z.eqb_spec (mp + 3) 9), (Z.eqb_spec (mp + 3) 11); cbn [orb];
      try lia; apply Hd30; lia.
  - split; [lia|]. split; [lia|].
    destruct (Z.leb_spec (mp - 9) 2) as [L2|L2]; [|lia].
    unfold DaysInMonth.
    destruct (Z.eqb_spec (mp - 9) 2) as [E2|E2].
    + rewrite isLeapYear_period.
      assert (E11 : mp = 11) by lia. destruct (Hd29 E11) as [H29 H28].
      destruct (Z.eq_dec doy 365) as [E5|E5].
      * now rewrite (Hleap E5).
      * specialize (H28 E5). destruct (isLeapYear (yoe + 1)); lia.
    + destruct (Z.eqb_spec (mp - 9) 4), (Z.eqb_spec (mp - 9) 6),
        (Z.eqb_spec (mp - 9) 9), (Z.eqb_spec (mp - 9) 11); cbn [orb];
        try lia.
Qed.


Lemma digit_val_char v :
  0 <= v < 10 -> digit_val (digit_char v) = Some v.
Proof.
  intros H. unfold digit_val, digit_char, isDigit.
  assert (E : Z.of_N (Z.to_N (48 + v)) = 48 + v) by (apply Z2N.id; lia).
  destruct (N.leb_spec 48 (Z.to_N (48 + v))) as [L1|L1]; [|lia].
  destruct (N.leb_spec (Z.to_N (48 + v)) 57) as [L2|L2]; [|lia].
  cbn [andb]. f_equal. lia.
Qed.

Lemma take_digits_add a : forall b acc s,
  take_digits (a + b) acc s
  = obind (take_digits a acc s) (fun '(v, r) => take_digits b v r).
Proof.
  induction a as [|a IH]; intros b acc s; [reflexivity|].
  cbn [Nat.add take_digits]. destruct s as [|c tl]; [reflexivity|].
  destruct (digit_val c); [apply IH | reflexivity].
Qed.

(** Reading back the digits that [pad] prints. *)
Lemma take_digits_pad n : forall v acc rest,
  0 <= v < 10 ^ Z.of_nat n ->
  take_digits n acc (pad n v ++ rest)
  = Some (acc * 10 ^ Z.of_nat n + v, rest).
Proof.
  induction n as [|n IH]; intros v acc rest Hv.
  - cbn [take_digits pad app]. f_equal. f_equal.
    change (10 ^ Z.of_nat 0) with 1 in *. lia.
  - replace (S n) with (n + 1)%nat at 1 by lia.
    rewrite take_digits_add. cbn [pad]. rewrite <- app_assoc.
    assert (Hp : 10 ^ Z.of_nat (S n) = 10 * 10 ^ Z.of_nat n).
    { rewrite Nat2Z.inj_succ. apply Z.pow_succ_r. lia. }
    assert (Hpos : 0 < 10 ^ Z.of_nat n) by (apply Z.pow_pos_nonneg; lia).
    rewrite IH by (Z.div_mod_to_equations; nia).
    cbn [obind app take_digits].
    rewrite digit_val_char by (apply Z.mod_pos_bound; lia).
    f_equal. f_equal. rewrite Hp.
    pose proof (Z.div_mod v 10 ltac:(lia)) as DM. nia.
Qed.

Lemma parse_year_digit c tl :
  (48 <= c <= 57)%N -> parse_year (c :: tl) = take_digits 4 0 (c :: tl).
Proof.
  intros H. unfold parse_year.
  destruct c as [|p]; [reflexivity|].
  do 6 (try (destruct p as [p|p|]; try reflexivity; try lia)).
Qed.

Lemma pad_head n v :
  exists c tl, pad (S n) v = c :: tl /\ (48 <= c <= 57)%N.
Proof.
  destruct (pad (S n) v) as [|c tl] eqn:E.
  - cbn [pad] in E. apply app_eq_nil in E. destruct E as [_ E]. discriminate.
  - exists c, tl. split; [reflexivity|].
    apply (@pad_digits (S n) v c). rewrite E. now left.
Qed.

Lemma parse_year_string y rest :
  -999999 <= y <= 999999 ->
  parse_year (year_string y ++ rest) = Some (y, rest).
Proof.
  intros Hy. unfold year_string.
  destruct (Z.leb_spec 0 y) as [H0|H0]; cbn [andb].
  - destruct (Z.leb_spec y 9999) as [H1|H1].
    + destruct (pad_head 3 y) as [c [tl [E Hc]]].
      rewrite E. cbn [app]. rewrite parse_year_digit by exact Hc.
      change (c :: tl ++ rest) with ((c :: tl) ++ rest). rewrite <- E.
      rewrite take_digits_pad by (change (10 ^ Z.of_nat 4) with 10000; lia).
      f_equal.
    + destruct (Z.ltb_spec y 0) as [H2|H2]; [lia|].
      cbn [app parse_year].
      rewrite take_digits_pad
        by (change (10 ^ Z.of_nat 6) with 1000000; lia).
      f_equal. f_equal. lia.
  - destruct (Z.ltb_spec y 0) as [H2|H2]; [|lia].
    cbn [app parse_year].
    rewrite take_digits_pad
      by (change (10 ^ Z.of_nat 6) with 1000000; lia).
    cbn [obind]. destruct (Z.eqb_spec (0 * 10 ^ Z.of_nat 6 + Z.abs y) 0);
      [lia|].
    f_equal. f_equal. lia.
Qed.

Lemma civil_year_range z :
  Z.abs z <= 100000000 ->
  -999999 <= fst (fst (civil_from_days z)) <= 999999.
Proof.
  intros Hz. unfold civil_from_days. cbv zeta. cbn [fst].
  remember (z + 719468) as z' eqn:Hz'.
  remember (z' / 146097) as era eqn:Hera.
  remember (z' - era * 146097) as doe eqn:Hdoe'.
  assert (Hdoe : 0 <= doe < 146097)
    by (subst doe era; Z.div_mod_to_equations; lia).
  remember ((doe - doe / 1460 + doe / 36524 - doe / 146096) / 365)
    as yoe eqn:Hyoe'.
  assert (Hyoe : 0 <= yoe < 400)
    by (subst yoe; Z.div_mod_to_equations; lia).
  assert (Hera' : -1000 <= era <= 1000)
    by (subst era z'; Z.div_mod_to_equations; lia).
  destruct (_ <=? 2); lia.
Qed.

(** Parsing the date part that [toISOString] prints. *)
Lemma parse_date_string day rest :
  Z.abs day <= 100000000 ->
  parse_date (date_string day ++ rest) = Some (day, rest).
Proof.
  intros Hd. unfold date_string, parse_date.
  pose proof (civil_valid day) as V.
  pose proof (civil_roundtrip day) as R.
  pose proof (@civil_year_range day Hd) as Y.
  destruct (civil_from_days day) as [[y m] d]. cbn [fst] in Y.
  destruct V as [[Hm1 Hm2] [Hd1 Hd2]].
  rewrite <- !app_assoc. rewrite parse_year_string by exact Y.
  cbn [obind app expect N.eqb Pos.eqb].
  rewrite take_digits_pad by (change (10 ^ Z.of_nat 2) with 100; lia).
  cbn [obind app expect N.eqb Pos.eqb].
  assert (Hd3 : d <= 31).
  { unfold DaysInMonth in Hd2.
    destruct (m =? 2); [destruct (isLeapYear y); lia|].
    destruct ((m =? 4) || (m =? 6) || (m =? 9) || (m =? 11)); lia. }
  rewrite take_digits_pad by (change (10 ^ Z.of_nat 2) with 100; lia).
  cbn [obind]. replace (0 * 10 ^ Z.of_nat 2 + m) with m by lia.
  replace (0 * 10 ^ Z.of_nat 2 + d) with d by lia.
  destruct (Z.leb_spec 1 m); [|lia]. destruct (Z.leb_spec m 12); [|lia].
  destruct (Z.leb_spec 1 d); [|lia].
  destruct (Z.leb_spec d (DaysInMonth y m)); [|lia].
  cbn [andb]. now rewrite R.
Qed.

Lemma parse_time_string tod :
  0 <= tod < msPerDay ->
  parse_time ([84%N] ++ time_string tod ++ [90%N]) = Some tod.
Proof.
  intros Ht. unfold msPerDay in Ht. unfold parse_time, time_string.
  cbn [app expect N.eqb Pos.eqb obind].
  repeat (rewrite <- app_assoc; cbn [app]).
  rewrite take_digits_pad
    by (change (10 ^ Z.of_nat 2) with 100; Z.div_mod_to_equations; lia).
  cbn [obind app expect N.eqb Pos.eqb].
  rewrite take_digits_pad
    by (change (10 ^ Z.of_nat 2) with 100; Z.div_mod_to_equations; lia).
  cbn [obind app expect N.eqb Pos.eqb].
  rewrite take_digits_pad
    by (change (10 ^ Z.of_nat 2) with 100; Z.div_mod_to_equations; lia).
  cbn [obind app parse_millis].
  rewrite take_digits_pad
    by (change (10 ^ Z.of_nat 3) with 1000; Z.div_mod_to_equations; lia).
  cbn [obind].
  change (10 ^ Z.of_nat 2) with 100. change (10 ^ Z.of_nat 3) with 1000.
  destruct (Z.leb_spec (0 * 100 + tod / 3600000) 23);
    [|Z.div_mod_to_equations; lia].
  destruct (Z.leb_spec (0 * 100 + (tod / 60000) mod 60) 59);
    [|Z.div_mod_to_equations; lia].
  destruct (Z.leb_spec (0 * 100 + (tod / 1000) mod 60) 59);
    [|Z.div_mod_to_equations; lia].
  cbn [andb]. f_equal. unfold MakeTime. Z.div_mod_to_equations. lia.
Qed.

Lemma toISOString_parse t :
  Z.abs t <= maxTime ->
  exists iso, toISOString (Some t) = Ok iso /\ Date_parse iso = Some t.
Proof.
  intros Ht. eexists. split; [reflexivity|].
  unfold Date_parse.
  assert (Hday : Z.abs (Day t) <= 100000000).
  { unfold Day, msPerDay. unfold maxTime in Ht.
    Z.div_mod_to_equations. lia. }
  rewrite parse_date_string by exact Hday. cbn [obind app].
  change (84%N :: time_string (TimeWithinDay t) ++ [90%N])
    with ([84%N] ++ time_string (TimeWithinDay t) ++ [90%N]).
  assert (Htod : 0 <= TimeWithinDay t < msPerDay).
  { unfold TimeWithinDay. apply Z.mod_pos_bound. unfold msPerDay. lia. }
  rewrite parse_time_string by exact Htod. cbn [obind].
  unfold MakeDate, Day, TimeWithinDay.
  replace (t / msPerDay * msPerDay + t mod msPerDay) with t.
  - now apply TimeClip_some.
  - pose proof (Z.div_mod t msPerDay) as DM.
    assert (Hne : msPerDay <> 0) by (unfold msPerDay; lia).
    specialize (DM Hne). lia.
Qed.

End IsoFacts.

Section DateFields.
Local Open Scope Z_scope.

Lemma Day_range t : Z.abs t <= maxTime -> Z.abs (Day t * msPerDay) <= maxTime.
Proof.
  unfold Day, maxTime, msPerDay. intros H. Z.div_mod_to_equations. lia.
Qed.

(** The date-only form reads back as midnight UTC of its day. *)
Lemma Date_parse_date_string day :
  Z.abs (day * msPerDay) <= maxTime ->
  Date_parse (date_string day) = Some (day * msPerDay).
Proof.
  intros H. unfold Date_parse.
  rewrite <- (app_nil_r (date_string day)).
  rewrite parse_date_string by (unfold maxTime, msPerDay in H; lia).
  cbn [obind]. unfold MakeDate. rewrite Z.add_0_r. now apply TimeClip_some.
Qed.

Lemma generateFollowUpDate_inv tz s n d :
  generateFollowUpDate tz s n = Ok d ->
  exists u, Z.abs u <= maxTime /\ d = date_string (Day u).
Proof.
  unfold generateFollowUpDate.
  destruct (Date_parse s) as [t|]; [|discriminate].
  rewrite setDate_getDate.
  destruct (TimeClip (UTC tz (LocalTime tz t + n * msPerDay))) as [u|] eqn:E;
    [|discriminate].
  apply TimeClip_inv in E. destruct E as [-> E].
  rewrite iso_date_part. intros H. injection H as <-. eauto.
Qed.



End DateFields.

Import Gmail.

(** ** The mail collaborator *)

Lemma MessagePart_nested_ind (P : MessagePart -> Prop) :
  (forall hs m d ps, Forall P ps -> P (Part hs m d ps)) ->
  forall p, P p.
Proof.
  intros H. fix IH 1. intros [hs m d ps]. apply H.
  induction ps as [|q ps IHps]; constructor; [apply IH | exact IHps].
Qed.

Lemma last_truthy_keeps l : forall acc,
  truthy acc = true ->
  truthy (fold_left (fun a s => if truthy s then s else a) l acc) = true.
Proof.
  induction l as [|s l IH]; intros acc H; [exact H|].
  cbn [fold_left]. apply IH. destruct (truthy s) eqn:T; [exact T | exact H].
Qed.

Lemma last_truthy_from l : forall acc,
  fold_left (fun a s => if truthy s then s else a) l acc
  = if truthy (last_truthy l) then last_truthy l else acc.
Proof.
  unfold last_truthy. induction l as [|s l IH]; intros acc; [reflexivity|].
  cbn [fold_left]. destruct (truthy s) eqn:T.
  - rewrite (last_truthy_keeps l s T). reflexivity.
  - change (if false then s else acc) with acc.
    destruct s; [|discriminate T]. apply IH.
Qed.

Lemma last_truthy_cons s l :
  last_truthy (s :: l)
  = fold_left (fun a s => if truthy s then s else a) l s.
Proof.
  unfold last_truthy. cbn [fold_left]. destruct s; reflexivity.
Qed.

Lemma fold_parts dec ps : forall acc,
  Forall (fun p => extractBody dec p
                   = (last_truthy (List.map fst (bodies dec p)),
                      last_truthy (List.map snd (bodies dec p)))) ps ->
  fold_left (fun a part => take_part a (extractBody dec part)) ps acc
  = (fold_left (fun a s => if truthy s then s else a)
               (List.map fst (flat_map (bodies dec) ps)) (fst acc),
     fold_left (fun a s => if truthy s then s else a)
               (List.map snd (flat_map (bodies dec) ps)) (snd acc)).
Proof.
  induction ps as [|p ps IH]; intros acc H.
  - destruct acc. reflexivity.
  - inversion H as [|p' ps' Hp Hps]; subst.
    cbn [fold_left flat_map]. rewrite IH by exact Hps.
    rewrite !map_app, !fold_left_app. rewrite Hp.
    unfold take_part. cbn [fst snd].
    now rewrite <- !last_truthy_from.
Qed.

(** X15. With several parts of the same kind in a message, the last
    one in document order whose decoded content is not empty wins:
    [extractBody] returns the last non-empty text and the last non-empty
    HTML of the parts, and the empty string for a kind that no part
    holds. *)
Theorem extractBody_last_wins (decodeBase64 : str -> str)
        (payload : MessagePart) :
  extractBody decodeBase64 payload
  = (last_truthy (List.map fst (bodies decodeBase64 payload)),
     last_truthy (List.map snd (bodies decodeBase64 payload))).
Proof.
  induction payload as [hs m d ps IH] using MessagePart_nested_ind.
  cbn [extractBody bodies map]. rewrite fold_parts by exact IH.
  now rewrite !last_truthy_cons.
Qed.

Lemma new_Date_range hp s t : new_Date hp s = Some t -> (Z.abs t <= maxTime)%Z.
Proof.
  unfold new_Date, obind. destruct (hp s) as [u|]; [|discriminate].
  intros H. apply TimeClip_inv in H. now destruct H as [-> H].
Qed.

Lemma parseMessage_inv dec bt hp messageId response email :
  parseMessage dec bt hp messageId response = Some email ->
  exists message t html,
    response = Some message
    /\ (Z.abs t <= maxTime)%Z
    /\ toISOString (Some t) = Ok (date email)
    /\ html = snd (extractBody_opt dec (m_payload message))
    /\ id email = messageId
    /\ body email = (if truthy html then stripHtml bt html
                     else fst (extractBody_opt dec (m_payload message)))
    /\ htmlBody email = (if truthy html then Some html else None).
Proof.
  unfold parseMessage. destruct response as [message|]; [|discriminate].
  destruct (extractBody_opt dec (m_payload message)) as [text html] eqn:B.
  match goal with
  | |- context [toISOString (new_Date hp ?d)] =>
      destruct (new_Date hp d) as [t|] eqn:D
  end; [|discriminate].
  cbn [toISOString]. intros H. injection H as <-.
  exists message, t, html. cbn [date id body htmlBody snd fst].
  repeat split; try reflexivity; try (rewrite B; reflexivity).
  eapply new_Date_range; eauto.
Qed.

(** X16. The date of an email that [parseMessage] builds always reads
    back: [parseJobApplication] returns a record for it under every
    category that has no follow-up date, and under the other two unless
    the follow-up date leaves the range of dates; it does not raise on
    the date of a fetched email. *)
Theorem fetched_email_parses (decodeBase64 body_text : str -> str)
        (host_parse : str -> option Z) (messageId : str)
        (response : option Message) (email : ParsedEmail) :
  parseMessage decodeBase64 body_text host_parse messageId response
    = Some email ->
  exists t,
    Date_parse (date email) = Some t
    /\ forall tz c, follow_up_in_range tz t c ->
         exists r, parseJobApplication tz email c = Ok r.
Proof.
  intros H. apply parseMessage_inv in H.
  destruct H as [message [t [html [_ [Ht [Hiso _]]]]]].
  destruct (@toISOString_parse t Ht) as [iso [E P]].
  rewrite Hiso in E. injection E as <-.
  exists t. split; [exact P|].
  intros tz c Hr.
  destruct (@parseJobApplication_ok tz email c t _ P
              (follow_up_of_valid tz email c P Hr)) as [r [Hr' _]].
  now exists r.
Qed.

Lemma fetched_email_parses_witness :
  exists email,
    parseMessage (fun s => s) (fun s => s) Date_parse (js "m1")
                 (Some plain_message) = Some email
    /\ exists t,
         Date_parse (date email) = Some t
         /\ forall tz c, follow_up_in_range tz t c ->
              exists r, parseJobApplication tz email c = Ok r.
Proof.
  destruct (parseMessage (fun s => s) (fun s => s) Date_parse (js "m1")
                         (Some plain_message)) as [email|] eqn:E.
  - exists email. split; [reflexivity|].
    exact (fetched_email_parses (fun s => s) (fun s => s) Date_parse
             (js "m1") (Some plain_message) E).
  - vm_compute in E. discriminate E.
Defined.

Lemma single_spaced_In s c :
  single_spaced s = true -> In c s -> isWhiteSpace c = true -> c = 32%N.
Proof.
  induction s as [|d s IH]; intros H Hin W; [destruct Hin|].
  cbn [single_spaced] in H. apply andb_true_iff in H. destruct H as [H1 H2].
  destruct Hin as [-> | Hin]; [|now apply IH].
  rewrite W in H1. apply andb_true_iff in H1. destruct H1 as [H1 _].
  now apply N.eqb_eq.
Qed.

Lemma stripHtml_single_spaced bt html :
  single_spaced (stripHtml bt html) = true /\ trimmed (stripHtml bt html).
Proof.
  unfold stripHtml. split; [|apply trim_trimmed].
  eapply single_spaced_substring; [apply trim_substring|].
  unfold replace. cbn [global re_g].
  rewrite replace_ws_collapse with (n := List.length (bt html)) by lia.
  apply collapse_ws_single_spaced.
Qed.

(** X17. For a message with a non-empty HTML part the body of the
    email is the stripped HTML: it has no white space at either end and
    no white space other than single spaces, so no line break; and
    [parseJobApplication] looks for the job link in the HTML itself. *)
Theorem html_email_body (decodeBase64 body_text : str -> str)
        (host_parse : str -> option Z) (messageId : str)
        (response : option Message) (email : ParsedEmail) (h : str) :
  parseMessage decodeBase64 body_text host_parse messageId response
    = Some email ->
  htmlBody email = Some h ->
  h <> []
  /\ body email = stripHtml body_text h
  /\ trimmed (body email) /\ single_spaced (body email) = true
  /\ ~ In newline (body email)
  /\ link_text email = h.
Proof.
  intros H Hh. apply parseMessage_inv in H.
  destruct H as [message [t [html [_ [_ [_ [_ [_ [Hb Hhtml]]]]]]]]].
  rewrite Hhtml in Hh. destruct (truthy html) eqn:T; [|discriminate Hh].
  injection Hh as ->.
  destruct (stripHtml_single_spaced body_text h) as [Hs Ht].
  split; [now apply truthy_nonempty|].
  split; [exact Hb|]. rewrite Hb.
  split; [exact Ht|]. split; [exact Hs|]. split.
  - intros Hin. pose proof (@single_spaced_In _ newline Hs Hin eq_refl) as E.
    discriminate E.
  - unfold link_text. rewrite Hhtml. cbn [opt_truthy]. now rewrite T.
Qed.

Lemma html_email_body_witness :
  exists email h,
    (parseMessage (fun s => s) (fun s => s) Date_parse (js "m1")
                  (Some plain_message) = Some email
     /\ htmlBody email = Some h)
    /\ (h <> []
        /\ body email = stripHtml (fun s => s) h
        /\ trimmed (body email) /\ single_spaced (body email) = true
        /\ ~ In newline (body email)
        /\ link_text email = h).
Proof.
  destruct (parseMessage (fun s => s) (fun s => s) Date_parse (js "m1")
                         (Some plain_message)) as [email|] eqn:E;
    [|vm_compute in E; discriminate E].
  destruct (htmlBody email) as [h|] eqn:Eh.
  - exists email, h. split; [split; [reflexivity | exact Eh]|].
    exact (html_email_body (fun s => s) (fun s => s) Date_parse
             (js "m1") (Some plain_message) E Eh).
  - vm_compute in E. injection E as <-. discriminate Eh.
Defined.

Lemma batch_size_pos : (0 < batch_size)%nat.
Proof. unfold batch_size. lia. Qed.

Lemma batches_from_spec fuel : forall i ids,
  (i <= List.length ids)%nat ->
  (List.length ids - i <= fuel)%nat ->
  concat (batches_from fuel i ids) = skipn i ids
  /\ Forall (fun b => (1 <= List.length b <= batch_size)%nat)
            (batches_from fuel i ids).
Proof.
  pose proof batch_size_pos as Hk.
  induction fuel as [|fuel IH]; intros i ids Hi Hf.
  - cbn [batches_from concat]. split; [|constructor].
    symmetry. apply skipn_all2. lia.
  - cbn [batches_from].
    destruct (Nat.ltb_spec i (List.length ids)) as [L|L].
    + cbn [concat].
      destruct (Nat.le_gt_cases (i + batch_size) (List.length ids))
        as [Hle|Hgt].
      * destruct (IH (i + batch_size)%nat ids Hle) as [Hc Hb]; [lia|].
        rewrite Hc. split.
        -- replace (i + batch_size)%nat with (batch_size + i)%nat by lia.
           rewrite <- skipn_skipn. apply firstn_skipn.
        -- constructor; [|exact Hb].
           rewrite firstn_length_le by (rewrite length_skipn; lia). lia.
      * assert (Hstop : batches_from fuel (i + batch_size) ids = []).
        { destruct fuel; [reflexivity|]. cbn [batches_from].
          destruct (Nat.ltb_spec (i + batch_size) (List.length ids));
            [lia | reflexivity]. }
        rewrite Hstop. cbn [concat]. rewrite app_nil_r.
        assert (Hlen : (List.length (skipn i ids) <= batch_size)%nat)
          by (rewrite length_skipn; lia).
        split.
        -- apply firstn_all2. exact Hlen.
        -- constructor; [|constructor].
           rewrite firstn_all2 by exact Hlen. rewrite length_skipn. lia.
    + cbn [concat]. split; [|constructor].
      symmetry. apply skipn_all2. lia.
Qed.

Lemma modified_app a b : modified (a ++ b) = modified a ++ modified b.
Proof.
  induction a as [|r a IH]; [reflexivity|].
  destruct r; cbn [app modified]; rewrite IH; reflexivity.
Qed.

Lemma modified_batches labelId bs :
  modified (List.map (fun batch => BatchModify batch [labelId]) bs) = bs.
Proof.
  induction bs as [|b bs IH]; [reflexivity|].
  cbn [map modified]. now rewrite IH.
Qed.

Lemma getOrCreateLabel_no_batch cached name listed created :
  modified (snd (getOrCreateLabel cached name listed created)) = [].
Proof.
  unfold getOrCreateLabel. destruct (opt_truthy cached); [reflexivity|].
  destruct (find _ listed) as [l|]; [|reflexivity].
  destruct (opt_truthy (l_id l)); reflexivity.
Qed.


(** X28. Once [getOrCreateLabel] has answered with a label identifier
    that is not empty, it has cached it: the next call sends no request
    and answers with the same identifier, whatever the API would say. *)
Theorem label_looked_up_once (cachedLabelId : option str)
        (labelName : str) (listed : list Label) (created : str)
        (labelId : str) (cache : option str) (sent : list Request) :
  getOrCreateLabel cachedLabelId labelName listed created
    = (labelId, cache, sent) ->
  labelId <> [] ->
  forall labelName' listed' created',
    getOrCreateLabel cache labelName' listed' created'
    = (labelId, cache, []).
Proof.
  intros H Hne labelName' listed' created'.
  assert (K : forall c : str,
            c <> [] ->
            getOrCreateLabel (Some c) labelName' listed' created'
            = (c, Some c, [])).
  { intros c Hc. unfold getOrCreateLabel. cbn [opt_truthy or_empty].
    destruct c; [now elim Hc | reflexivity]. }
  unfold getOrCreateLabel in H.
  destruct (opt_truthy cachedLabelId) eqn:C.
  - injection H as <- <- _. unfold getOrCreateLabel. now rewrite C.
  - destruct (find _ listed) as [existing|].
    + destruct (opt_truthy (l_id existing)) eqn:T.
      * injection H as <- <- _.
        destruct (l_id existing) as [i|]; [|discriminate T].
        cbn [or_empty] in *. now apply K.
      * injection H as <- <- _. now apply K.
    + injection H as <- <- _. now apply K.
Qed.

Lemma label_looked_up_once_witness :
  getOrCreateLabel None (js "JobTracker/Processed")
                   [mkLabel (Some (js "Label_7"))
                            (Some (js "JobTracker/Processed"))] (js "new")
    = (js "Label_7", Some (js "Label_7"), [LabelsList])
  /\ forall labelName' listed' created',
       getOrCreateLabel (Some (js "Label_7")) labelName' listed' created'
       = (js "Label_7", Some (js "Label_7"), []).
Proof.
  split; [vm_compute; reflexivity|].
  apply (@label_looked_up_once None (js "JobTracker/Processed")
           [mkLabel (Some (js "Label_7")) (Some (js "JobTracker/Processed"))]
           (js "new") (js "Label_7") (Some (js "Label_7")) [LabelsList]).
  - vm_compute. reflexivity.
  - discriminate.
Defined.

Import Notion.

(** ** The tracker database *)

Lemma when_set_keys field key make :
  keys (when_set field key make)
  = if opt_truthy field then [key] else [].
Proof.
  unfold when_set, opt_truthy. destruct field as [s|]; [|reflexivity].
  destruct (truthy s); reflexivity.
Qed.

Lemma keys_app {A : Type} (a b : list (str * A)) :
  keys (a ++ b) = keys a ++ keys b.
Proof. apply map_app. Qed.

Lemma buildProperties_keys app :
  keys (buildProperties app)
  = required
    ++ (if opt_truthy (salaryRange app) then [js "Salary Range"] else [])
    ++ (if opt_truthy (location app) then [js "Location"] else [])
    ++ (if opt_truthy (jobLink app) then [js "Job Link"] else [])
    ++ (if opt_truthy (emailThreadLink app) then [js "Email Thread"] else [])
    ++ (if opt_truthy (followUpDate app) then [js "Follow-up Date"] else [])
    ++ (if opt_truthy (notes app) then [js "Notes"] else []).
Proof.
  unfold buildProperties. rewrite !keys_app, !when_set_keys. reflexivity.
Qed.

Lemma verifyDatabase_spec db :
  verifyDatabase (Some db) = true <-> incl required db.
Proof.
  unfold verifyDatabase.
  set (missing := filter (fun r => negb (arr_includes r db)) required).
  split.
  - intros H r Hr.
    destruct (arr_includes r db) eqn:E.
    + unfold arr_includes in E. apply existsb_exists in E.
      destruct E as [x [Hx Hx']]. apply str_eqb_eq in Hx'. now subst.
    + assert (Hin : In r missing)
        by (apply filter_In; split; [exact Hr | now rewrite E]).
      destruct missing; [destruct Hin | discriminate H].
  - intros H. destruct missing as [|r rest] eqn:E; [reflexivity|].
    exfalso.
    assert (Hin : In r missing) by (rewrite E; now left).
    apply filter_In in Hin. destruct Hin as [Hr Hn].
    apply negb_true_iff in Hn.
    assert (Ht : arr_includes r db = true).
    { unfold arr_includes. apply existsb_exists. exists r.
      split; [now apply H | now apply str_eqb_eq]. }
    congruence.
Qed.


Lemma parseJobApplication_fixed tz email c r :
  parseJobApplication tz email c = Ok r ->
  opt_truthy (emailThreadLink r) = true /\ opt_truthy (notes r) = true
  /\ status r = STATUS_MAP c.
Proof.
  unfold parseJobApplication.
  destruct (match c with
            | application_confirmation =>
                bind (generateFollowUpDate tz (date email) 7)
                     (fun d => Ok (Some d))
            | interview_invitation =>
                bind (generateFollowUpDate tz (date email) 1)
                     (fun d => Ok (Some d))
            | _ => Ok None
            end) as [fu|]; [|discriminate].
  cbn [bind].
  destruct (toISOString (Date_parse (date email))) as [iso|]; [|discriminate].
  cbn [bind]. intros H. injection H as <-.
  cbn [emailThreadLink notes status]. repeat split.
Qed.

(** X20. [verifyDatabase] accepts a database exactly when it has the
    five required properties, yet every page created from a parsed
    email also writes the properties Email Thread and Notes, which are
    not among them: a database that passes the check can lack a property
    that the create request names. *)
Theorem verified_schema_is_partial tz (email : ParsedEmail)
        (c : EmailCategory) (r : JobApplication) :
  parseJobApplication tz email c = Ok r ->
  (forall db, verifyDatabase (Some db) = true <-> incl required db)
  /\ In (js "Email Thread") (keys (buildProperties r))
  /\ In (js "Notes") (keys (buildProperties r))
  /\ ~ In (js "Email Thread") required
  /\ ~ In (js "Notes") required.
Proof.
  intros H. apply parseJobApplication_fixed in H.
  destruct H as [Ht [Hn _]].
  split; [apply verifyDatabase_spec|].
  rewrite buildProperties_keys, Ht, Hn.
  split; [|split; [|split]].
  - apply in_or_app. right. do 3 (apply in_or_app; right).
    apply in_or_app. left. now left.
  - apply in_or_app. right. do 5 (apply in_or_app; right). now left.
  - cbn [required In]. intros K.
    repeat (destruct K as [K | K]; [discriminate K|]). exact K.
  - cbn [required In]. intros K.
    repeat (destruct K as [K | K]; [discriminate K|]). exact K.
Qed.

Lemma verified_schema_is_partial_witness :
  exists r,
    parseJobApplication utcHost acme_confirmation application_confirmation
      = Ok r
    /\ ((forall db, verifyDatabase (Some db) = true <-> incl required db)
        /\ In (js "Email Thread") (keys (buildProperties r))
        /\ In (js "Notes") (keys (buildProperties r))
        /\ ~ In (js "Email Thread") required
        /\ ~ In (js "Notes") required).
Proof.
  destruct (parseJobApplication utcHost acme_confirmation
              application_confirmation) as [r|e] eqn:E.
  - exists r. split; [reflexivity|].
    exact (verified_schema_is_partial utcHost acme_confirmation
             application_confirmation E).
  - vm_compute in E. discriminate E.
Defined.

Lemma spread_when_keys field key properties :
  keys (spread_when field key properties)
  = if opt_truthy field then [key] else [].
Proof. unfold spread_when. destruct (opt_truthy field); reflexivity. Qed.

(** X21. When the query finds a page for the company and the position,
    the service updates that page and sends the status of the new
    record whatever the page holds (an email classified follow_up sets
    Applied); the request can name Status, Notes, Follow-up Date, Salary
    Range and Location only, so the company, the position, the date
    applied, the links and the subject line of the page stay as they
    are. *)
Theorem existing_page_update tz (email : ParsedEmail) (c : EmailCategory)
        (r : JobApplication) (response : option (list str)) (page : str) :
  parseJobApplication tz email c = Ok r ->
  findExisting response = Some page ->
  exists props,
    createOrUpdateApplication response r = PagesUpdate page props
    /\ In (js "Status", Some (Select (STATUS_MAP c))) props
    /\ incl (keys props)
            [js "Status"; js "Notes"; js "Follow-up Date";
             js "Salary Range"; js "Location"].
Proof.
  intros H Hf. apply parseJobApplication_fixed in H.
  destruct H as [_ [_ Hs]].
  exists (update_properties r). unfold createOrUpdateApplication.
  rewrite Hf. split; [reflexivity|]. split.
  - unfold update_properties. left. rewrite <- Hs. reflexivity.
  - unfold update_properties. rewrite !keys_app, !spread_when_keys.
    intros k Hk. cbn [keys map fst List.app] in Hk.
    destruct Hk as [<- | [<- | Hk]]; [cbn; tauto | cbn; tauto |].
    repeat (apply in_app_or in Hk; destruct Hk as [Hk | Hk];
            [match type of Hk with
             | In _ (if ?b then _ else _) =>
                 destruct b; [|destruct Hk]; destruct Hk as [<- | []]
             end; cbn; tauto|]).
    match type of Hk with
    | In _ (if ?b then _ else _) =>
        destruct b; [|destruct Hk]; destruct Hk as [<- | []]
    end; cbn; tauto.
Qed.

Lemma existing_page_update_witness :
  exists r,
    (parseJobApplication utcHost greenhouse_rejection follow_up = Ok r
     /\ findExisting (Some [js "page-1"; js "page-2"]) = Some (js "page-1"))
    /\ exists props,
         createOrUpdateApplication (Some [js "page-1"; js "page-2"]) r
           = PagesUpdate (js "page-1") props
         /\ In (js "Status", Some (Select (STATUS_MAP follow_up))) props
         /\ incl (keys props)
                 [js "Status"; js "Notes"; js "Follow-up Date";
                  js "Salary Range"; js "Location"].
Proof.
  destruct (parseJobApplication utcHost greenhouse_rejection follow_up)
    as [r|e] eqn:E.
  - exists r. split; [split; reflexivity|].
    exact (@existing_page_update utcHost greenhouse_rejection follow_up r
             (Some [js "page-1"; js "page-2"]) (js "page-1") E eq_refl).
  - vm_compute in E. discriminate E.
Defined.

Import Scheduler.

(** ** The run over the new emails *)

Lemma str_ltb_irrefl a : str_ltb a a = false.
Proof.
  induction a as [|x a IH]; [reflexivity|].
  cbn [str_ltb]. now rewrite N.ltb_irrefl, N.eqb_refl, IH.
Qed.

Lemma str_ltb_trans a : forall b c,
  str_ltb a b = true -> str_ltb b c = true -> str_ltb a c = true.
Proof.
  induction a as [|x a IH]; intros [|y b] [|z c] Hab Hbc;
    try discriminate; [reflexivity|].
  cbn [str_ltb] in *.
  apply orb_true_iff in Hab, Hbc. apply orb_true_iff.
  destruct Hab as [Hab | Hab], Hbc as [Hbc | Hbc].
  - left. apply N.ltb_lt in Hab, Hbc. apply N.ltb_lt. lia.
  - apply andb_true_iff in Hbc. destruct Hbc as [E _].
    apply N.eqb_eq in E. subst. now left.
  - apply andb_true_iff in Hab. destruct Hab as [E _].
    apply N.eqb_eq in E. subst. now left.
  - apply andb_true_iff in Hab, Hbc.
    destruct Hab as [E1 Hab], Hbc as [E2 Hbc].
    apply N.eqb_eq in E1, E2. subst. right.
    rewrite N.eqb_refl. cbn [andb]. eapply IH; eauto.
Qed.

Lemma str_ltb_total a : forall b,
  str_ltb a b = false -> str_ltb b a = false -> a = b.
Proof.
  induction a as [|x a IH]; intros [|y b] Hab Hba;
    try discriminate; [reflexivity|].
  cbn [str_ltb] in *.
  apply orb_false_iff in Hab, Hba.
  destruct Hab as [L1 A1], Hba as [L2 A2].
  apply N.ltb_ge in L1, L2. assert (E : x = y) by lia. subst.
  rewrite N.eqb_refl in A1, A2. cbn [andb] in A1, A2.
  f_equal. now apply IH.
Qed.

(** [a <= b] and [b <= c] give [a <= c]. *)
Lemma str_le_trans a b c :
  str_ltb b a = false -> str_ltb c b = false -> str_ltb c a = false.
Proof.
  intros Hab Hbc. destruct (str_ltb c a) eqn:Hca; [|reflexivity].
  destruct (str_ltb b c) eqn:Hbc'.
  - rewrite (str_ltb_trans _ _ _ Hbc' Hca) in Hab. discriminate Hab.
  - rewrite (str_ltb_total _ _ Hbc' Hbc) in Hab. congruence.
Qed.

Lemma str_lt_le_trans x a b :
  str_ltb x a = true -> str_ltb b a = false -> str_ltb x b = true.
Proof.
  intros Hxa Hab. destruct (str_ltb x b) eqn:Hxb; [reflexivity|].
  rewrite (@str_le_trans a b x Hab Hxb) in Hxa. discriminate Hxa.
Qed.

Section RunFacts.

Variable tz : Z -> bool -> Z.
Variable Store : Type.
Variable upsert : Store -> JobApplication -> Store * bool.

(** What the loop keeps: the emails it has processed well since the
    state [st]. *)
Lemma loop_inv emails : forall st st',
  loop tz upsert emails st = Ok st' ->
  exists done,
    processedIds st' = processedIds st ++ List.map id done
    /\ successCount st' = (successCount st + List.length done)%nat
    /\ skipCount st'
       = (skipCount st
          + List.length (filter (fun e => negb (shouldProcess e)) emails))%nat
    /\ (List.length done
        + List.length (filter (fun e => negb (shouldProcess e)) emails)
        <= List.length emails)%nat
    /\ (forall e, In e done -> In e emails /\ shouldProcess e = true
                  /\ str_ltb (latestTimestamp st') (date e) = false)
    /\ str_ltb (latestTimestamp st') (latestTimestamp st) = false
    /\ (latestTimestamp st' = latestTimestamp st
        \/ exists e, In e done /\ latestTimestamp st' = date e).
Proof.
  induction emails as [|email rest IH]; intros st st' H.
  - cbn [loop] in H. injection H as <-. exists []. cbn [map List.length filter].
    rewrite app_nil_r, !Nat.add_0_r.
    split; [reflexivity|]. split; [reflexivity|]. split; [reflexivity|].
    split; [lia|]. split; [intros e []|].
    split; [apply str_ltb_irrefl | now left].
  - cbn [loop] in H.
    destruct (step tz upsert st email) as [st1|] eqn:S1; [|discriminate H].
    cbn [bind] in H. apply IH in H.
    destruct H as [done [Hids [Hs [Hk [Hlen [Hdone [Hmono Hstamp]]]]]]].
    unfold step in S1. cbn [filter].
    destruct (shouldProcess email) eqn:SP; cbn [negb] in *.
    + destruct (parseJobApplication tz email (classifyEmail email))
        as [a|]; [|discriminate S1].
      cbn [bind] in S1.
      destruct (upsert (store st) a) as [store' ok].
      destruct ok; injection S1 as <-;
        cbn [processedIds successCount skipCount latestTimestamp] in *.
      * exists (email :: done). cbn [map List.length].
        assert (Hle : str_ltb
                        (if str_gtb (date email) (latestTimestamp st)
                         then date email else latestTimestamp st)
                        (latestTimestamp st) = false
                      /\ str_ltb
                           (if str_gtb (date email) (latestTimestamp st)
                            then date email else latestTimestamp st)
                           (date email) = false).
        { unfold str_gtb.
          destruct (str_ltb (latestTimestamp st) (date email)) eqn:G.
          - split; [|apply str_ltb_irrefl].
            destruct (str_ltb (date email) (latestTimestamp st)) eqn:G';
              [|reflexivity].
            pose proof (str_ltb_trans _ _ _ G G') as C.
            rewrite str_ltb_irrefl in C. discriminate C.
          - split; [apply str_ltb_irrefl | exact G]. }
        destruct Hle as [Hle1 Hle2].
        rewrite <- app_assoc in Hids.
        split; [exact Hids|]. split; [lia|]. split; [lia|].
        split; [lia|]. split; [|split].
        -- intros e [<- | He].
           ++ split; [now left|]. split; [exact SP|].
              exact (@str_le_trans (date email) _ _ Hle2 Hmono).
           ++ destruct (Hdone e He) as [H1 [H2 H3]].
              split; [now right|]. split; assumption.
        -- exact (@str_le_trans (latestTimestamp st) _ _ Hle1 Hmono).
        -- destruct Hstamp as [E | [e [He E]]].
           ++ rewrite E. unfold str_gtb.
              destruct (str_ltb (latestTimestamp st) (date email));
                [right; exists email; split; [now left | reflexivity]
                | now left].
           ++ right. exists e. split; [now right | exact E].
      * exists done. cbn [List.length].
        split; [exact Hids|]. split; [lia|]. split; [lia|].
        split; [lia|]. split; [|split; [exact Hmono | exact Hstamp]].
        intros e He. destruct (Hdone e He) as [H1 [H2 H3]].
        split; [now right|]. split; assumption.
    + injection S1 as <-.
      cbn [processedIds successCount skipCount latestTimestamp
           List.length] in *.
      exists done.
      split; [exact Hids|]. split; [lia|]. split; [lia|].
      split; [lia|]. split; [|split; [exact Hmono | exact Hstamp]].
      intros e He. destruct (Hdone e He) as [H1 [H2 H3]].
      split; [now right|]. split; assumption.
Qed.

End RunFacts.

(** X22. In a run that completes, the identifiers handed to
    [labelAsProcessed] are those of emails of the batch that
    [shouldProcess] accepts; the processed count is their number, the
    skipped count the number of emails that [shouldProcess] refuses, and
    the three counts of the report add up to the size of the batch. *)
Theorem run_accounting tz (Store : Type)
        (upsert : Store -> JobApplication -> Store * bool) (db : Store)
        (stamp : str) (emails : list ParsedEmail) (labelled : list str)
        (saved : str) (processed skipped errors : nat) :
  processNewEmails tz upsert db stamp (Some emails)
    = Ok (Completed labelled saved processed skipped errors) ->
  processed = List.length labelled
  /\ skipped
     = List.length (filter (fun e => negb (shouldProcess e)) emails)
  /\ (processed + skipped + errors = List.length emails)%nat
  /\ incl labelled (List.map id (filter shouldProcess emails)).
Proof.
  unfold processNewEmails.
  destruct (Nat.eqb (List.length emails) 0); [discriminate|].
  destruct (loop tz upsert emails (mkProgress db [] stamp 0 0))
    as [st|] eqn:L; [|discriminate].
  cbn [bind]. intros H. injection H as <- <- <- <- <-.
  apply loop_inv in L.
  destruct L as [done [Hids [Hs [Hk [Hlen [Hdone _]]]]]].
  cbn [processedIds successCount skipCount List.app] in *.
  rewrite Hids, Hs, Hk, length_map.
  split; [reflexivity|]. split; [reflexivity|]. split; [lia|].
  intros i Hi. apply in_map_iff in Hi. destruct Hi as [e [<- He]].
  apply in_map. apply filter_In. destruct (Hdone e He) as [H1 [H2 _]].
  auto.
Qed.

Lemma run_accounting_witness :
  processNewEmails utcHost (picky (js "Initech")) 0%nat
                   (js "2024-02-01T00:00:00.000Z") (Some sample_batch)
    = Ok (Completed [js "a2"] (js "2024-03-02T09:00:00.000Z") 1 1 1)
  /\ (1%nat = List.length [js "a2"]
      /\ 1%nat
         = List.length (filter (fun e => negb (shouldProcess e)) sample_batch)
      /\ (1 + 1 + 1 = List.length sample_batch)%nat
      /\ incl [js "a2"] (List.map id (filter shouldProcess sample_batch))).
Proof.
  split; [vm_compute; reflexivity|].
  apply (@run_accounting utcHost nat (picky (js "Initech")) 0%nat
           (js "2024-02-01T00:00:00.000Z") sample_batch [js "a2"]
           (js "2024-03-02T09:00:00.000Z")).
  vm_compute. reflexivity.
Defined.

(** X23. The timestamp a run saves is never earlier (in the order of
    strings) than the one it started from; it is that one or the date of
    an email processed well in the run, and no email processed well is
    dated after it.  Whatever is dated before an email processed well is
    dated before the saved timestamp: an email that failed is behind it
    as soon as a later one succeeds. *)
Theorem saved_timestamp_is_latest tz (Store : Type)
        (upsert : Store -> JobApplication -> Store * bool) (db : Store)
        (stamp : str) (emails : list ParsedEmail) (labelled : list str)
        (saved : str) (processed skipped errors : nat) :
  processNewEmails tz upsert db stamp (Some emails)
    = Ok (Completed labelled saved processed skipped errors) ->
  str_ltb saved stamp = false
  /\ exists done,
       labelled = List.map id done
       /\ incl done emails
       /\ (forall e, In e done -> str_gtb (date e) saved = false)
       /\ (forall e x, In e done -> str_ltb x (date e) = true ->
                       str_ltb x saved = true)
       /\ (saved = stamp \/ exists e, In e done /\ saved = date e).
Proof.
  unfold processNewEmails.
  destruct (Nat.eqb (List.length emails) 0); [discriminate|].
  destruct (loop tz upsert emails (mkProgress db [] stamp 0 0))
    as [st|] eqn:L; [|discriminate].
  cbn [bind]. intros H. injection H as <- <- <- <- <-.
  apply loop_inv in L.
  destruct L as [done [Hids [_ [_ [_ [Hdone [Hmono Hstamp]]]]]]].
  cbn [processedIds latestTimestamp List.app] in *.
  split; [exact Hmono|]. exists done.
  split; [exact Hids|]. split; [|split; [|split; [|exact Hstamp]]].
  - intros e He. now destruct (Hdone e He).
  - intros e He. unfold str_gtb. now destruct (Hdone e He) as [_ [_ H3]].
  - intros e x He Hx. destruct (Hdone e He) as [_ [_ H3]].
    exact (@str_lt_le_trans x (date e) _ Hx H3).
Qed.

Lemma saved_timestamp_is_latest_witness :
  processNewEmails utcHost (picky (js "Initech")) 0%nat
                   (js "2024-02-01T00:00:00.000Z") (Some sample_batch)
    = Ok (Completed [js "a2"] (js "2024-03-02T09:00:00.000Z") 1 1 1)
  /\ (str_ltb (js "2024-03-02T09:00:00.000Z")
              (js "2024-02-01T00:00:00.000Z") = false
      /\ exists done,
           [js "a2"] = List.map id done
           /\ incl done sample_batch
           /\ (forall e, In e done ->
                 str_gtb (date e) (js "2024-03-02T09:00:00.000Z") = false)
           /\ (forall e x, In e done -> str_ltb x (date e) = true ->
                 str_ltb x (js "2024-03-02T09:00:00.000Z") = true)
           /\ (js "2024-03-02T09:00:00.000Z" = js "2024-02-01T00:00:00.000Z"
               \/ exists e, In e done
                            /\ js "2024-03-02T09:00:00.000Z" = date e)).
Proof.
  split; [vm_compute; reflexivity|].
  apply (@saved_timestamp_is_latest utcHost nat (picky (js "Initech")) 0%nat
           (js "2024-02-01T00:00:00.000Z") sample_batch [js "a2"]
           (js "2024-03-02T09:00:00.000Z") 1 1 1).
  vm_compute. reflexivity.
Defined.

Lemma loop_raises tz (Store : Type)
      (upsert : Store -> JobApplication -> Store * bool) emails bad :
  In bad emails -> shouldProcess bad = true ->
  Date_parse (date bad) = None ->
  forall st, loop tz upsert emails st = Throw RangeError.
Proof.
  intros Hin Hsp Hd. induction emails as [|email rest IH]; [destruct Hin|].
  intros st. cbn [loop].
  destruct (step tz upsert st email) as [st1|[]] eqn:S1; [|reflexivity].
  cbn [bind]. destruct Hin as [-> | Hin]; [|now apply IH].
  exfalso. unfold step in S1. rewrite Hsp in S1. cbn [negb] in S1.
  rewrite (parseJobApplication_invalid_date tz bad _ Hd) in S1.
  discriminate S1.
Qed.



Lemma step_returns tz (Store : Type)
      (upsert : Store -> JobApplication -> Store * bool) st email :
  (shouldProcess email = true ->
   exists t, Date_parse (date email) = Some t
             /\ follow_up_in_range tz t (classifyEmail email)) ->
  exists st', step tz upsert st email = Ok st'.
Proof.
  intros H. unfold step.
  destruct (shouldProcess email) eqn:SP; cbn [negb]; [|eauto].
  destruct (H eq_refl) as [t [Hp Hr]].
  destruct (@parseJobApplication_ok tz email (classifyEmail email) t _ Hp
              (follow_up_of_valid tz email (classifyEmail email) Hp Hr))
    as [r [Hr' _]].
  rewrite Hr'. cbn [bind].
  destruct (upsert (store st) r) as [store' ok]. destruct ok; eauto.
Qed.

(** X25. A run over a batch in which every email that [shouldProcess]
    accepts has a date that reads as a date (as the dates written by
    [parseMessage] do) and a follow-up date within the range of dates
    never raises, whatever the database answers: it completes, labels
    and saves. *)
Theorem run_completes tz (Store : Type)
        (upsert : Store -> JobApplication -> Store * bool) (db : Store)
        (stamp : str) (emails : list ParsedEmail) :
  emails <> [] ->
  (forall e, In e emails -> shouldProcess e = true ->
     exists t, Date_parse (date e) = Some t
               /\ follow_up_in_range tz t (classifyEmail e)) ->
  exists labelled saved processed skipped errors,
    processNewEmails tz upsert db stamp (Some emails)
    = Ok (Completed labelled saved processed skipped errors).
Proof.
  intros Hne H. unfold processNewEmails.
  destruct (Nat.eqb_spec (List.length emails) 0) as [E|E];
    [destruct emails; [now elim Hne | discriminate E]|].
  clear Hne E.
  assert (L : forall st, exists st', loop tz upsert emails st = Ok st').
  { induction emails as [|email rest IH]; intros st; [now exists st|].
    cbn [loop].
    destruct (@step_returns tz Store upsert st email) as [st1 S1].
    - intros SP. apply H; [now left | exact SP].
    - rewrite S1. cbn [bind]. apply IH.
      intros e He. apply H. now right. }
  destruct (L (mkProgress db [] stamp 0 0)) as [st' Hst]. rewrite Hst.
  cbn [bind]. eauto 6.
Qed.

Lemma run_completes_witness :
  exists labelled saved processed skipped errors,
    processNewEmails utcHost (picky (js "Initech")) 0%nat
                     (js "2024-02-01T00:00:00.000Z") (Some sample_batch)
    = Ok (Completed labelled saved processed skipped errors).
Proof.
  apply run_completes.
  - discriminate.
  - intros e He _. cbn [sample_batch In] in He.
    destruct He as [<- | [<- | [<- | []]]]; eexists;
      (split; [vm_compute; reflexivity|]); vm_compute;
      first [exact I | intros C; discriminate C].
Defined.

(** ** The two copies of the service *)

Lemma old_patterns_capture p :
  In p ParserOldFields.captured_patterns -> sets_group 1 (source p) = true.
Proof.
  assert (H : forallb (fun p => sets_group 1 (source p))
                      ParserOldFields.captured_patterns = true)
    by reflexivity.
  rewrite forallb_forall in H. apply H.
Qed.

Lemma old_patterns_no_group_in_rep :
  forallb (fun p => no_group_in_rep (source p))
          (ParserOldFields.captured_patterns
           ++ [ParserOldFields.GENERIC_NAME; ParserOldFields.NAME_SUFFIX;
               ParserOldFields.SUBJECT_PREFIX;
               ParserOldFields.TRAILING_PART]) = true.
Proof. reflexivity. Qed.

(** X26. The two copies of [parseJobApplication] in the file raise on
    the same emails and, when they return, give the same date applied,
    status, thread link, follow-up date, notes and subject line; they
    give the same salary range, location and job link when the body
    holds at most 3000 code units (the older copy reads the whole body).
    The company and the position are where the copies differ. *)
Theorem parse_copies_agree tz (email : ParsedEmail) (c : EmailCategory) :
  match ParserOldFields.parseJobApplication tz email c,
        Parser.parseJobApplication tz email c with
  | Ok o, Ok n =>
      dateApplied o = dateApplied n /\ status o = status n
      /\ emailThreadLink o = emailThreadLink n
      /\ followUpDate o = followUpDate n /\ notes o = notes n
      /\ sourceEmail o = sourceEmail n
      /\ ((List.length (body email) <= 3000)%nat ->
          salaryRange o = salaryRange n /\ location o = location n
          /\ jobLink o = jobLink n)
  | Throw a, Throw b => a = b
  | _, _ => False
  end.
Proof.
  unfold ParserOldFields.parseJobApplication, Parser.parseJobApplication.
  change (ParserOldFields.generateFollowUpDate tz)
    with (Parser.generateFollowUpDate tz).
  destruct (match c with
            | application_confirmation =>
                bind (generateFollowUpDate tz (date email) 7)
                     (fun d => Ok (Some d))
            | interview_invitation =>
                bind (generateFollowUpDate tz (date email) 1)
                     (fun d => Ok (Some d))
            | _ => Ok None
            end) as [fu|[]]; cbn [bind]; [|reflexivity].
  destruct (toISOString (Date_parse (date email))) as [iso|[]];
    cbn [bind]; [|reflexivity].
  cbn [dateApplied status emailThreadLink followUpDate notes sourceEmail
       salaryRange location jobLink].
  do 6 (split; [reflexivity|]).
  intros Hlen. unfold slice0.
  rewrite (firstn_all2 (n := 3000) (body email)) by exact Hlen.
  repeat split; reflexivity.
Qed.

Lemma old_first_position_ok ps text p :
  ParserOldFields.first_position ps text = Some p ->
  (3 < List.length p < 100)%nat.
Proof.
  induction ps as [|re ps IH]; cbn [ParserOldFields.first_position];
    [discriminate|].
  destruct (exec re text) as [m|]; [|exact IH].
  destruct (group 1 m) as [g|]; [|exact IH].
  destruct (ParserOldFields.position_ok (trim g)) eqn:V; [|exact IH].
  intros H. injection H as <-.
  unfold ParserOldFields.position_ok in V.
  apply andb_true_iff in V. destruct V as [V1 V2].
  apply Nat.ltb_lt in V1, V2. lia.
Qed.

(** X27. The position of the older copy is never the empty string
    either, and has no white space at either end: a pattern gives it
    between 4 and 99 code units, and an empty cleaned subject gives way
    to "Unknown Position". *)
Theorem old_position_nonempty (email : ParsedEmail) :
  ParserOldFields.extractPosition email <> []
  /\ trimmed (ParserOldFields.extractPosition email).
Proof.
  unfold ParserOldFields.extractPosition.
  destruct (ParserOldFields.first_position _ _) as [p|] eqn:F.
  - split.
    + apply old_first_position_ok in F. intros ->. simpl in F. lia.
    + clear - F. revert F.
      generalize ParserOldFields.position_patterns as ps.
      induction ps as [|re ps IH]; cbn [ParserOldFields.first_position];
        [discriminate|].
      destruct (exec re _) as [m|]; [|exact IH].
      destruct (group 1 m) as [g|]; [|exact IH].
      destruct (ParserOldFields.position_ok (trim g)); [|exact IH].
      intros H. injection H as <-. apply trim_trimmed.
  - match goal with
    | |- context [if truthy ?s then _ else _] => destruct (truthy s) eqn:T
    end.
    + split; [now apply truthy_nonempty | apply trim_trimmed].
    + split; [discriminate | vm_compute; reflexivity].
Qed.

(** ** Splitting on white space *)

Lemma split_from_nonempty fuel re : forall bef ah piece,
  split_from fuel re bef ah piece <> [].
Proof.
  induction fuel as [|f IH]; intros bef ah piece; cbn [split_from];
    [discriminate|].
  destruct ah as [|c tl]; [discriminate|].
  destruct (run_re re _ _) as [y|]; [|apply IH].
  destruct (is_empty_match _ y && negb (truthy piece)); [apply IH|].
  discriminate.
Qed.

(** Without white space there is one piece; with some, at least two. *)
Lemma split_ws_pieces fuel : forall bef ah piece,
  (List.length ah < fuel)%nat ->
  (2 <=? List.length (split_from fuel (re_plain (plus ws)) bef ah piece))%nat
  = existsb isWhiteSpace ah.
Proof.
  induction fuel as [|f IH]; intros bef ah piece Hf; [lia|].
  cbn [split_from]. destruct ah as [|c tl]; [reflexivity|].
  cbn [existsb List.length] in *.
  pose proof (run_plus_ws bef (c :: tl) []) as R. cbn beta iota in R.
  unfold run_re. cbn [ignoreCase multiline source re_plain].
  destruct (isWhiteSpace c) eqn:W.
  - destruct R as [bef' R]. rewrite R.
    unfold is_empty_match. cbn [ahead List.length].
    pose proof (trimStart_length tl) as Ht.
    replace (Nat.eqb (S (List.length tl)) (List.length (trimStart tl)))
      with false by (symmetry; apply Nat.eqb_neq; lia).
    cbn [andb orb List.length before ahead].
    pose proof (@split_from_nonempty f (re_plain (plus ws)) bef'
                  (trimStart tl) []) as Hn.
    destruct (split_from f (re_plain (plus ws)) bef' (trimStart tl) []);
      [now elim Hn | reflexivity].
  - rewrite R. cbn [orb]. apply IH. lia.
Qed.

Lemma split_words text :
  text <> [] ->
  (2 <=? List.length (split_re (re_plain (plus ws)) text))%nat
  = existsb isWhiteSpace text.
Proof.
  intros Hne. unfold split_re. destruct text as [|c tl]; [now elim Hne|].
  apply split_ws_pieces. cbn [List.length]. lia.
Qed.

(** X29. [isValidPosition] accepts a text exactly when it holds
    between 3 and 100 code units, is not matched by [NOT_A_POSITION],
    and either is matched by [JOB_TITLE_KEYWORDS] or holds a white-space
    code unit: the test on the number of pieces of the split comes to
    that. *)
Theorem isValidPosition_spec (text : str) :
  isValidPosition text = true
  <-> (3 <= List.length text <= 100)%nat
      /\ test NOT_A_POSITION text = false
      /\ (test JOB_TITLE_KEYWORDS text = true
          \/ exists c, In c text /\ isWhiteSpace c = true).
Proof.
  unfold isValidPosition.
  destruct text as [|c0 tl0] eqn:Et.
  { cbn [truthy negb orb]. split; [discriminate|].
    intros [[H _] _]. simpl in H. lia. }
  rewrite <- Et. assert (Hne : text <> []) by (subst; discriminate).
  assert (Ht : truthy text = true) by (subst; reflexivity).
  clear Et. rewrite Ht. cbn [negb orb].
  rewrite (split_words Hne).
  destruct (Nat.ltb_spec (List.length text) 3) as [L3|L3];
    [split; [discriminate | intros [[H _] _]; lia]|].
  destruct (Nat.ltb_spec 100 (List.length text)) as [L100|L100];
    [split; [discriminate | intros [[_ H] _]; lia]|].
  cbn [orb].
  destruct (test NOT_A_POSITION text);
    [split; [discriminate | intros [_ [H _]]; discriminate H]|].
  destruct (test JOB_TITLE_KEYWORDS text).
  - split; [intros _|reflexivity]. repeat split; auto.
  - destruct (existsb isWhiteSpace text) eqn:E.
    + split; [intros _|reflexivity]. repeat split; auto.
      right. apply existsb_exists in E. exact E.
    + split; [discriminate|]. intros [_ [_ [H | [c [Hc Hw]]]]];
        [discriminate H|].
      assert (E' : existsb isWhiteSpace text = true)
        by (apply existsb_exists; now exists c).
      congruence.
Qed.

(** ** The order of printed dates *)

Section IsoOrder.
Import Calendar.
Local Open Scope Z_scope.

Lemma days_from_civil_before y m d :
  days_from_civil y m d
  = days_before (if m <=? 2 then y - 1 else y)
    + (153 * (if 2 <? m then m - 3 else m + 9) + 2) / 5 + d - 1 - 719468.
Proof.
  unfold days_from_civil, days_before. cbv zeta.
  generalize (if m <=? 2 then y - 1 else y). intros y'.
  generalize ((153 * (if 2 <? m then m - 3 else m + 9) + 2) / 5). intros o.
  Z.div_mod_to_equations. lia.
Qed.

Lemma days_before_step y :
  days_before y = days_before (y - 1) + (if isLeapYear y then 366 else 365).
Proof.
  unfold days_before, isLeapYear.
  destruct (Z.eqb_spec (y mod 4) 0), (Z.eqb_spec (y mod 100) 0),
    (Z.eqb_spec (y mod 400) 0); cbn [andb orb negb];
    Z.div_mod_to_equations; lia.
Qed.

Lemma days_before_le a b : a <= b -> days_before a <= days_before b.
Proof.
  intros H. destruct (Z.eq_dec a b) as [->|N]; [lia|].
  unfold days_before. Z.div_mod_to_equations. lia.
Qed.

Lemma month_cases m :
  1 <= m <= 12 ->
  m = 1 \/ m = 2 \/ m = 3 \/ m = 4 \/ m = 5 \/ m = 6 \/ m = 7 \/ m = 8
  \/ m = 9 \/ m = 10 \/ m = 11 \/ m = 12.
Proof. lia. Qed.

(** A later calendar date has a larger day number. *)
Lemma days_from_civil_mono y1 m1 d1 y2 m2 d2 :
  1 <= m1 <= 12 -> 1 <= d1 <= DaysInMonth y1 m1 ->
  1 <= m2 <= 12 -> 1 <= d2 <= DaysInMonth y2 m2 ->
  date_lt (y1, m1, d1) (y2, m2, d2) ->
  days_from_civil y1 m1 d1 < days_from_civil y2 m2 d2.
Proof.
  intros Hm1 Hd1 Hm2 Hd2 Hlt. cbn [date_lt] in Hlt.
  rewrite !days_from_civil_before.
  pose proof (days_before_step y1) as S1.
  pose proof (days_before_step y2) as S2.
  assert (M : y1 < y2 -> days_before y1 <= days_before (y2 - 1))
    by (intros H; apply days_before_le; lia).
  unfold DaysInMonth in Hd1, Hd2.
  assert (B : forall b : bool,
             (if b then 366 else 365) = 365 + Z.b2z b
             /\ (if b then 29 else 28) = 28 + Z.b2z b
             /\ 0 <= Z.b2z b <= 1) by (intros []; cbn; lia).
  destruct (B (isLeapYear y1)) as [B1 [B1' B1'']].
  destruct (B (isLeapYear y2)) as [B2 [B2' B2'']].
  rewrite B1 in S1. rewrite B2 in S2. rewrite B1' in Hd1. rewrite B2' in Hd2.
  clear B B1 B1' B2 B2'.
  assert (E : y1 = y2 -> days_before y1 = days_before y2
                         /\ days_before (y1 - 1) = days_before (y2 - 1)
                         /\ Z.b2z (isLeapYear y1) = Z.b2z (isLeapYear y2))
    by (intros ->; auto).
  revert S1 S2 M E Hd1 Hd2 B1'' B2''.
  generalize (Z.b2z (isLeapYear y1)), (Z.b2z (isLeapYear y2)), days_before.
  intros l1 l2 f S1 S2 M E Hd1 Hd2 L1 L2.
  destruct (month_cases Hm1)
    as [->|[->|[->|[->|[->|[->|[->|[->|[->|[->|[->| ->]]]]]]]]]]];
    destruct (month_cases Hm2)
      as [->|[->|[->|[->|[->|[->|[->|[->|[->|[->|[->| ->]]]]]]]]]]];
    cbn [Z.eqb Z.leb Z.ltb Z.compare Pos.compare Pos.compare_cont Pos.eqb
           orb] in Hd1, Hd2 |- *;
    Z.div_mod_to_equations; lia.
Qed.

Lemma date_lt_total a b : date_lt a b \/ a = b \/ date_lt b a.
Proof.
  destruct a as [[y1 m1] d1], b as [[y2 m2] d2]. cbn [date_lt].
  destruct (Z.lt_trichotomy y1 y2) as [H|[H|H]]; [lia| |lia].
  destruct (Z.lt_trichotomy m1 m2) as [H'|[H'|H']]; [lia| |lia].
  destruct (Z.lt_trichotomy d1 d2) as [H''|[H''|H'']]; [lia| |lia].
  right. left. congruence.
Qed.

(** A later day has a later calendar date. *)
Lemma civil_from_days_mono z1 z2 :
  z1 < z2 -> date_lt (civil_from_days z1) (civil_from_days z2).
Proof.
  intros H.
  pose proof (civil_roundtrip z1) as R1. pose proof (civil_valid z1) as V1.
  pose proof (civil_roundtrip z2) as R2. pose proof (civil_valid z2) as V2.
  destruct (date_lt_total (civil_from_days z1) (civil_from_days z2))
    as [L|[E|L]]; [exact L| |].
  - rewrite E in R1. destruct (civil_from_days z2) as [[y m] d]. lia.
  - destruct (civil_from_days z1) as [[y1 m1] d1],
      (civil_from_days z2) as [[y2 m2] d2].
    destruct V1 as [Vm1 Vd1], V2 as [Vm2 Vd2].
    pose proof (days_from_civil_mono Vm2 Vd2 Vm1 Vd1 L). lia.
Qed.

(** The years printed with four digits. *)
Lemma four_digit_year t :
  year_0 <= t < year_10000 ->
  0 <= fst (fst (civil_from_days (Day t))) <= 9999.
Proof.
  intros [H0 H1].
  assert (D : -719528 <= Day t <= 2932896).
  { unfold Day, msPerDay, year_0, year_10000 in *.
    Z.div_mod_to_equations. lia. }
  split.
  - destruct (Z.eq_dec (Day t) (-719528)) as [->|N]; [vm_compute; discriminate|].
    assert (L : -719528 < Day t) by lia.
    apply civil_from_days_mono in L.
    change (civil_from_days (-719528)) with (0, 1, 1) in L.
    destruct (civil_from_days (Day t)) as [[y m] d]. cbn [date_lt fst] in *.
    lia.
  - destruct (Z.eq_dec (Day t) 2932896) as [->|N]; [vm_compute; discriminate|].
    assert (L : Day t < 2932896) by lia.
    apply civil_from_days_mono in L.
    change (civil_from_days 2932896) with (9999, 12, 31) in L.
    destruct (civil_from_days (Day t)) as [[y m] d]. cbn [date_lt fst] in *.
    lia.
Qed.

Lemma five_digit_year t :
  year_10000 <= t -> 9999 < fst (fst (civil_from_days (Day t))).
Proof.
  intros H1.
  assert (D : 2932896 < Day t).
  { unfold Day, msPerDay, year_10000 in *. Z.div_mod_to_equations. lia. }
  apply civil_from_days_mono in D.
  change (civil_from_days 2932896) with (9999, 12, 31) in D.
  pose proof (civil_valid (Day t)) as V.
  destruct (civil_from_days (Day t)) as [[y m] d]. cbn [date_lt fst] in *.
  unfold DaysInMonth in V.
  destruct (m =? 2), (isLeapYear y), ((m =? 4) || (m =? 6) || (m =? 9) || (m =? 11));
    lia.
Qed.

(** *** Strings of digits *)

Lemma str_ltb_cons c a b : str_ltb (c :: a) (c :: b) = str_ltb a b.
Proof.
  cbn [str_ltb]. rewrite N.ltb_irrefl, N.eqb_refl. reflexivity.
Qed.

Lemma str_ltb_app_same p a b : str_ltb (p ++ a) (p ++ b) = str_ltb a b.
Proof.
  induction p as [|c p IH]; [reflexivity|].
  cbn [List.app]. now rewrite str_ltb_cons.
Qed.

Lemma str_ltb_app_lt p : forall q a b,
  List.length p = List.length q ->
  str_ltb p q = true -> str_ltb (p ++ a) (q ++ b) = true.
Proof.
  induction p as [|x p IH]; intros [|y q] a b L H; cbn [List.length] in L;
    try discriminate.
  cbn [List.app str_ltb] in *.
  apply orb_true_iff in H. destruct H as [H|H]; [now rewrite H|].
  apply andb_true_iff in H. destruct H as [H1 H2].
  rewrite H1, (IH q a b) by (congruence || lia). apply orb_true_r.
Qed.

Lemma pad_length n : forall v, List.length (pad n v) = n.
Proof.
  induction n as [|n IH]; intros v; [reflexivity|].
  cbn [pad]. rewrite length_app, IH. cbn [List.length]. lia.
Qed.

(** On numbers printed with the same number of digits the order of the
    strings is the order of the numbers. *)
Lemma pad_lt n : forall v w,
  0 <= v < w -> w < 10 ^ Z.of_nat n ->
  str_ltb (pad n v) (pad n w) = true.
Proof.
  induction n as [|n IH]; intros v w Hv Hw.
  - change (10 ^ Z.of_nat 0) with 1 in Hw. lia.
  - assert (Hp : 10 ^ Z.of_nat (S n) = 10 * 10 ^ Z.of_nat n).
    { rewrite Nat2Z.inj_succ. apply Z.pow_succ_r. lia. }
    cbn [pad]. destruct (Z.eq_dec (v / 10) (w / 10)) as [E|N].
    + rewrite E, str_ltb_app_same. cbn [str_ltb]. unfold digit_char.
      apply orb_true_iff. left. apply N.ltb_lt.
      apply Z2N.inj_lt; Z.div_mod_to_equations; lia.
    + apply str_ltb_app_lt; [now rewrite !pad_length|].
      apply IH; Z.div_mod_to_equations; nia.
Qed.

Lemma field_lt n v w a b :
  0 <= v < w -> w < 10 ^ Z.of_nat n ->
  str_ltb (pad n v ++ a) (pad n w ++ b) = true.
Proof.
  intros Hv Hw. apply str_ltb_app_lt; [now rewrite !pad_length|].
  now apply pad_lt.
Qed.

Lemma time_string_lt tod1 tod2 a b :
  0 <= tod1 < tod2 -> tod2 < msPerDay ->
  str_ltb (time_string tod1 ++ a) (time_string tod2 ++ b) = true.
Proof.
  intros H1 H2. unfold msPerDay in H2. unfold time_string.
  repeat (rewrite <- app_assoc; cbn [List.app]).
  destruct (Z.lt_trichotomy (tod1 / 3600000) (tod2 / 3600000))
    as [L|[E|L]]; [| |Z.div_mod_to_equations; lia].
  { apply field_lt; [|change (10 ^ Z.of_nat 2) with 100];
      Z.div_mod_to_equations; lia. }
  rewrite E, str_ltb_app_same, str_ltb_cons.
  destruct (Z.lt_trichotomy ((tod1 / 60000) mod 60) ((tod2 / 60000) mod 60))
    as [L|[E'|L]]; [| |Z.div_mod_to_equations; lia].
  { apply field_lt; [|change (10 ^ Z.of_nat 2) with 100];
      Z.div_mod_to_equations; lia. }
  rewrite E', str_ltb_app_same, str_ltb_cons.
  destruct (Z.lt_trichotomy ((tod1 / 1000) mod 60) ((tod2 / 1000) mod 60))
    as [L|[E''|L]]; [| |Z.div_mod_to_equations; lia].
  { apply field_lt; [|change (10 ^ Z.of_nat 2) with 100];
      Z.div_mod_to_equations; lia. }
  rewrite E'', str_ltb_app_same, str_ltb_cons.
  apply field_lt; [|change (10 ^ Z.of_nat 3) with 1000];
    Z.div_mod_to_equations; lia.
Qed.

Lemma days_in_month_le y m : DaysInMonth y m <= 31.
Proof.
  unfold DaysInMonth.
  destruct (m =? 2), (isLeapYear y),
    ((m =? 4) || (m =? 6) || (m =? 9) || (m =? 11)); lia.
Qed.

Lemma date_string_lt z1 z2 a b :
  0 <= fst (fst (civil_from_days z1)) <= 9999 ->
  0 <= fst (fst (civil_from_days z2)) <= 9999 ->
  z1 < z2 ->
  str_ltb (date_string z1 ++ a) (date_string z2 ++ b) = true.
Proof.
  intros Y1 Y2 H. apply civil_from_days_mono in H.
  pose proof (civil_valid z1) as V1. pose proof (civil_valid z2) as V2.
  unfold date_string.
  destruct (civil_from_days z1) as [[y1 m1] d1],
    (civil_from_days z2) as [[y2 m2] d2].
  cbn [fst date_lt] in *.
  pose proof (days_in_month_le y1 m1). pose proof (days_in_month_le y2 m2).
  unfold year_string.
  replace ((0 <=? y1) && (y1 <=? 9999)) with true
    by (symmetry; apply andb_true_iff; split; apply Z.leb_le; lia).
  replace ((0 <=? y2) && (y2 <=? 9999)) with true
    by (symmetry; apply andb_true_iff; split; apply Z.leb_le; lia).
  repeat (rewrite <- app_assoc; cbn [List.app]).
  destruct H as [L|[-> [L|[-> L]]]].
  - apply field_lt; [|change (10 ^ Z.of_nat 4) with 10000]; lia.
  - rewrite str_ltb_app_same, str_ltb_cons.
    apply field_lt; [|change (10 ^ Z.of_nat 2) with 100]; lia.
  - rewrite str_ltb_app_same, str_ltb_cons, str_ltb_app_same, str_ltb_cons.
    apply field_lt; [|change (10 ^ Z.of_nat 2) with 100]; lia.
Qed.

(** Among the instants of the years 0000 to 9999 a later instant prints a
    larger string. *)
Lemma toISOString_mono t1 t2 s1 s2 :
  year_0 <= t1 < year_10000 -> year_0 <= t2 < year_10000 ->
  toISOString (Some t1) = Ok s1 -> toISOString (Some t2) = Ok s2 ->
  t1 < t2 -> str_ltb s1 s2 = true.
Proof.
  intros R1 R2 E1 E2 H. cbn [toISOString] in E1, E2.
  injection E1 as <-. injection E2 as <-.
  pose proof (four_digit_year R1) as Y1.
  pose proof (four_digit_year R2) as Y2.
  destruct (Z.eq_dec (Day t1) (Day t2)) as [E|N].
  - rewrite E, str_ltb_app_same. cbn [List.app]. rewrite str_ltb_cons.
    apply time_string_lt; unfold TimeWithinDay, Day, msPerDay in *;
      Z.div_mod_to_equations; lia.
  - apply date_string_lt; try assumption.
    unfold Day, msPerDay in *. Z.div_mod_to_equations. lia.
Qed.

(** X30. The scheduler's test [email.date > latestTimestamp] compares
    strings.  When both were printed by [toISOString], the saved instant
    lies in the years 0000 to 9999 and the email's is not before year
    0000, the test holds exactly when the email's instant is the later
    one and lies before the year 10000: from that year on the printed
    form begins with a plus sign, which sorts before every digit. *)
Theorem printed_dates_order (t1 t2 : Z) (latestTimestamp date : str) :
  year_0 <= t1 < year_10000 -> year_0 <= t2 ->
  toISOString (Some t1) = Ok latestTimestamp ->
  toISOString (Some t2) = Ok date ->
  str_gtb date latestTimestamp = (t1 <? t2) && (t2 <? year_10000).
Proof.
  intros R1 R2 E1 E2. unfold str_gtb.
  destruct (Z.ltb_spec t2 year_10000) as [B|B].
  - rewrite andb_true_r.
    destruct (Z.ltb_spec t1 t2) as [L|L].
    + apply (toISOString_mono R1 (conj R2 B) E1 E2 L).
    + destruct (Z.eq_dec t1 t2) as [->|N].
      * assert (latestTimestamp = date) by congruence. subst.
        apply str_ltb_irrefl.
      * assert (G : t2 < t1) by lia.
        pose proof (toISOString_mono (conj R2 B) R1 E2 E1 G) as M.
        destruct (str_ltb latestTimestamp date) eqn:C; [|reflexivity].
        pose proof (str_ltb_trans _ _ _ M C) as T.
        rewrite str_ltb_irrefl in T. discriminate T.
  - rewrite andb_false_r. cbn [toISOString] in E1, E2.
    injection E1 as <-. injection E2 as <-.
    pose proof (four_digit_year R1) as Y1.
    pose proof (five_digit_year B) as Y2.
    unfold date_string.
    destruct (civil_from_days (Day t1)) as [[y1 m1] d1],
      (civil_from_days (Day t2)) as [[y2 m2] d2].
    cbn [fst] in *. unfold year_string.
    replace ((0 <=? y1) && (y1 <=? 9999)) with true
      by (symmetry; apply andb_true_iff; split; apply Z.leb_le; lia).
    replace (y2 <=? 9999) with false by (symmetry; apply Z.leb_gt; lia).
    rewrite andb_false_r.
    replace (y2 <? 0) with false by (symmetry; apply Z.ltb_ge; lia).
    destruct (pad_head 3 y1) as [c [tl [P Hc]]]. rewrite P.
    cbn [List.app str_ltb].
    replace (c <? 43)%N with false by (symmetry; apply N.ltb_ge; lia).
    replace (c =? 43)%N with false by (symmetry; apply N.eqb_neq; lia).
    reflexivity.
Qed.

Lemma printed_dates_order_witness :
  year_0 <= 1709296200000 < year_10000
  /\ year_0 <= 1709370000000
  /\ toISOString (Some 1709296200000) = Ok (js "2024-03-01T12:30:00.000Z")
  /\ toISOString (Some 1709370000000) = Ok (js "2024-03-02T09:00:00.000Z")
  /\ str_gtb (js "2024-03-02T09:00:00.000Z") (js "2024-03-01T12:30:00.000Z")
     = true.
Proof.
  assert (R1 : year_0 <= 1709296200000 < year_10000)
    by (unfold year_0, year_10000; lia).
  assert (R2 : year_0 <= 1709370000000) by (unfold year_0; lia).
  split; [exact R1|]. split; [exact R2|].
  split; [reflexivity|]. split; [reflexivity|].
  exact (@printed_dates_order 1709296200000 1709370000000 _ _
           R1 R2 eq_refl eq_refl).
Defined.

End IsoOrder.
